(** * Persona-Chat audio pipeline: sequenced PCM16 playback

    A shallow embedding of the browser audio streaming pipeline of
    Persona-Chat and the properties its specification states about it:

    - [SequenceBuffer]  (client/replit_integrations/audio/useAudioPlayback.ts)
    - [RingBuffer], [AudioPlaybackProcessor]
                        (client/replit_integrations/audio/audio-playback-worklet.js)
    - [decodePCM16ToFloat32]
                        (client/replit_integrations/audio/audio-utils.ts)
    - [useAudioPlayback], [streamVoiceResponse]
                        (useAudioPlayback.ts, useVoiceStream.ts)

    JavaScript numbers used as counters and indices are modelled by the
    unbounded integers they range over here ([Z] for sequence numbers,
    [nat] for array indices). *)

From Stdlib Require Import ZArith QArith String Ascii List Sorted DecimalString.
From stdpp Require Import gmap strings list fin_maps sorting.

Close Scope Q_scope.
Local Open Scope Z_scope.

(** ** Sequence reassembly buffer *)

Module SequenceBuffer.
Section Buffer.
(** The payload type; the hook stores base64 strings. *)
Context {A : Type}.

(** [private pending = new Map<number, string[]>(); private nextSeq = 0] *)
Record t : Type := mk { pending : gmap Z (list A); nextSeq : Z }.

Definition new : t := mk ∅ 0.

(** [if (!pending.has(seq)) pending.set(seq, []); pending.get(seq)!.push(data)] *)
Definition store (seq : Z) (data : A) (pending : gmap Z (list A))
  : gmap Z (list A) :=
  let pending1 :=
    if decide (is_Some (pending !! seq)) then pending
    else <[seq := []]> pending in
  alter (λ chunks, chunks ++ [data]) seq pending1.

(** [while (pending.has(nextSeq)) { ready.push(...pending.get(nextSeq));
     pending.delete(nextSeq); nextSeq++ }].
    One unit of fuel is spent per iteration; [None] means the fuel ran
    out before the loop condition became false. *)
Fixpoint drain (fuel : nat) (pending : gmap Z (list A)) (nextSeq : Z)
    (ready : list A) : option (t * list A) :=
  match pending !! nextSeq with
  | None => Some (mk pending nextSeq, ready)
  | Some chunks =>
      match fuel with
      | O => None
      | S fuel' =>
          drain fuel' (delete nextSeq pending) (nextSeq + 1) (ready ++ chunks)
      end
  end.

(** [push(seq, data): string[]].  Every iteration of the loop deletes a
    key, so the number of keys bounds the number of iterations. *)
Definition push (sb : t) (seq : Z) (data : A) : option (t * list A) :=
  let pending' := store seq data (pending sb) in
  drain (size pending') pending' (nextSeq sb) [].

(** [reset() { pending.clear(); nextSeq = 0 }] *)
Definition reset (sb : t) : t := mk ∅ 0.

(** Operations a client can perform, and runs of them. *)
Inductive op : Type :=
| Push (seq : Z) (data : A)
| Reset.

Definition step (sb : t) (o : op) : option (t * list A) :=
  match o with
  | Push seq data => push sb seq data
  | Reset => Some (reset sb, [])
  end.

(** Runs a list of operations, collecting what each one returned. *)
Fixpoint run (sb : t) (ops : list op) : option (t * list (list A)) :=
  match ops with
  | [] => Some (sb, [])
  | o :: ops' =>
      match step sb o with
      | None => None
      | Some (sb1, out) =>
          match run sb1 ops' with
          | None => None
          | Some (sb2, outs) => Some (sb2, out :: outs)
          end
      end
  end.

(** Pushing a list of (sequence number, payload) fragments in order. *)
Definition push_all (sb : t) (frags : list (Z * A))
  : option (t * list (list A)) :=
  run sb (map (λ f, Push f.1 f.2) frags).

(** Every key of [pending] is at least [nextSeq]. *)
Definition keys_ge (sb : t) : Prop :=
  ∀ k chunks, pending sb !! k = Some chunks → nextSeq sb ≤ k.

(** The chunks stored under the keys [lo, lo+1, ..., lo+n-1]. *)
Definition chunks_from (m : gmap Z (list A)) (lo : Z) (n : nat) : list A :=
  flat_map (λ k, default [] (m !! k)) (seqZ lo (Z.of_nat n)).

(** The state reached after the fragments of [payloads] with the sequence
    numbers [seen] were pushed, each once: the numbers below [nextSeq]
    were all seen, and the seen ones from [nextSeq] on wait in [pending]. *)
Definition awaiting (payloads : list A) (seen : list Z) (sb : t) : Prop :=
  0 ≤ nextSeq sb
  ∧ (∀ k, pending sb !! k =
          if decide (k ∈ seen ∧ nextSeq sb ≤ k)
          then (λ d, [d]) <$> payloads !! Z.to_nat k else None)
  ∧ (∀ k, 0 ≤ k < nextSeq sb → k ∈ seen)
  ∧ nextSeq sb ∉ seen.

(** Every pending payload is filed under its own sequence number, read
    off the payload by [tag]. *)
Definition filed_by (tag : A → Z) (sb : t) : Prop :=
  ∀ k chunks x, pending sb !! k = Some chunks → x ∈ chunks → tag x = k.

(** The order of payloads by the sequence number they carry. *)
Definition by_tag (tag : A → Z) : relation A := λ x y, tag x ≤ tag y.

(** Pushing payloads under the sequence numbers they carry. *)
Definition push_tagged (tag : A → Z) (sb : t) (xs : list A)
  : option (t * list (list A)) :=
  run sb (map (λ x, Push (tag x) x) xs).

End Buffer.
Arguments t : clear implicits.
Arguments op : clear implicits.



End SequenceBuffer.

(** ** Ring buffer (audio-playback-worklet.js) *)

Module RingBuffer.
Section Buffer.
(** Samples are the elements of a [Float32Array]; the buffer only copies
    them.  [zero] is the sample [0] and [nan] is what a typed array
    stores when it is handed [undefined] (a read past its end).  A store
    past the end of a typed array is ignored, as list insertion is.
    [x % capacity] is evaluated only inside loops that run when something
    is available or being written, which takes a positive capacity. *)
Context {sample : Type} (zero nan : sample).

Record t : Type := mk {
  capacity : nat;
  buffer : list sample;
  readIndex : nat;
  writeIndex : nat;
  availableData : nat
}.

(** [constructor(initialCapacity)] *)
Definition new (initialCapacity : nat) : t :=
  mk initialCapacity (replicate initialCapacity zero) 0 0 0.

(** [array[i]] read for storing into another typed array. *)
Definition read (array : list sample) (i : nat) : sample :=
  default nan (array !! i).

(** [grow()]: the copy loop runs over [i = 0 .. availableData - 1]. *)
Definition grow (rb : t) : t :=
  let newCapacity := (capacity rb * 2)%nat in
  let newBuffer :=
    fold_left
      (λ newBuffer i,
         let srcIndex := ((readIndex rb + i) `mod` capacity rb)%nat in
         <[i := read (buffer rb) srcIndex]> newBuffer)
      (seq 0 (availableData rb))
      (replicate newCapacity zero) in
  mk newCapacity newBuffer 0 (availableData rb) (availableData rb).

(** [while (availableData + len > capacity) grow()], one unit of fuel
    per iteration; [None] when the fuel runs out first. *)
Fixpoint grow_until (fuel : nat) (rb : t) (len : nat) : option t :=
  if decide (capacity rb < availableData rb + len)%nat then
    match fuel with
    | O => None
    | S fuel' => grow_until fuel' (grow rb) len
    end
  else Some rb.

(** One iteration of the write loop of [push]. *)
Definition write (rb : t) (x : sample) : t :=
  mk (capacity rb)
     (<[writeIndex rb := x]> (buffer rb))
     (readIndex rb)
     ((writeIndex rb + 1) `mod` capacity rb)%nat
     (availableData rb + 1)%nat.

(** [push(data)].  A positive capacity at least doubles on every [grow],
    so [availableData + len] iterations are more than the loop can take. *)
Definition push (rb : t) (data : list sample) : option t :=
  let len := length data in
  rb1 ← grow_until (availableData rb + len) rb len;
  Some (fold_left write data rb1).

(** [pull(outputBuffer)]: returns the buffer, the contents of
    [outputBuffer] afterwards, and [available > 0]. *)
Definition pull (rb : t) (outputBuffer : list sample)
  : t * list sample * bool :=
  let len := length outputBuffer in
  let available := (len `min` availableData rb)%nat in
  let '(out1, readIndex1) :=
    fold_left
      (λ '(out, ri) i,
         (<[i := read (buffer rb) ri]> out, ((ri + 1) `mod` capacity rb)%nat))
      (seq 0 available)
      (outputBuffer, readIndex rb) in
  let out2 :=
    fold_left (λ out i, <[i := zero]> out)
      (seq available (len - available)) out1 in
  (mk (capacity rb) (buffer rb) readIndex1 (writeIndex rb)
      (availableData rb - available),
   out2,
   bool_decide (0 < available)%nat).

(** [available()] *)
Definition available (rb : t) : nat := availableData rb.

(** [clear()] *)
Definition clear (rb : t) : t :=
  mk (capacity rb) (buffer rb) 0 0 0.

(** The state predicate of the data model. *)
Definition invariant (rb : t) : Prop :=
  (0 ≤ availableData rb ≤ capacity rb)%nat
  ∧ writeIndex rb = ((readIndex rb + availableData rb) `mod` capacity rb)%nat.

(** The storage has [capacity] slots and the read index is one of them. *)
Definition well_formed (rb : t) : Prop :=
  (0 < capacity rb)%nat
  ∧ length (buffer rb) = capacity rb
  ∧ (readIndex rb < capacity rb)%nat
  ∧ invariant rb.

(** The unread samples, oldest first. *)
Definition contents (rb : t) : list sample :=
  map (λ i, read (buffer rb) ((readIndex rb + i) `mod` capacity rb)%nat)
      (seq 0 (availableData rb)).

(** Interleavings of [push] and [pull]. *)
Inductive op : Type :=
| Push (data : list sample)
| Pull (outputBuffer : list sample).

(** Runs an interleaving; collects, per [pull], the output region and
    how many of its leading samples came from the buffer. *)
Fixpoint run (rb : t) (ops : list op) : option (t * list (list sample * nat)) :=
  match ops with
  | [] => Some (rb, [])
  | Push data :: ops' => rb1 ← push rb data; run rb1 ops'
  | Pull outputBuffer :: ops' =>
      let n := (length outputBuffer `min` availableData rb)%nat in
      let '(rb1, out, _) := pull rb outputBuffer in
      '(rb2, outs) ← run rb1 ops';
      Some (rb2, (out, n) :: outs)
  end.

Definition pushed (ops : list op) : list sample :=
  flat_map (λ o, match o with Push data => data | Pull _ => [] end) ops.

(** The samples the pulls took from the buffer, padding left out. *)
Definition real_samples (outs : list (list sample * nat)) : list sample :=
  flat_map (λ '(out, n), take n out) outs.

End Buffer.
Arguments t : clear implicits.
Arguments op : clear implicits.
End RingBuffer.

(** ** Playback processor (audio-playback-worklet.js) *)

Module AudioPlaybackProcessor.
Section Processor.
Context {sample : Type} (zero nan : sample).

Record t : Type := mk {
  ringBuffer : RingBuffer.t sample;
  isPlaying : bool;
  streamComplete : bool
}.

(** [event.data] of a control message: [{ type, samples }]. *)
Record message : Type := Message { type : string; samples : list sample }.

(** What the processor posts on its port. *)
Inductive port_message : Type := Ended.

Definition initialCapacity : nat := N.to_nat (24000 * 30).

(** [constructor()] *)
Definition new : t := mk (RingBuffer.new zero initialCapacity) false false.

(** [this.port.onmessage] *)
Definition onmessage (p : t) (m : message) : option t :=
  if decide (type m = "audio") then
    rb ← RingBuffer.push zero nan (ringBuffer p) (samples m);
    Some (mk rb true (streamComplete p))
  else if decide (type m = "clear") then
    Some (mk (RingBuffer.clear (ringBuffer p)) false false)
  else if decide (type m = "streamComplete") then
    Some (mk (ringBuffer p) (isPlaying p) true)
  else if decide (type m = "stop") then
    Some (mk (ringBuffer p) false false)
  else Some p.

(** [process(inputs, outputs)]: [outputs] is a list of outputs, each a
    list of channels.  Returns the processor, the outputs afterwards and
    the messages posted. *)
Definition process (p : t) (outputs : list (list (list sample)))
  : t * list (list (list sample)) * list port_message :=
  match outputs with
  | [] => (p, outputs, [])
  | [] :: _ => (p, outputs, [])
  | (channel :: channels) :: rest =>
      if isPlaying p then
        let '(rb, channel', _) := RingBuffer.pull zero nan (ringBuffer p) channel in
        let outputs' := (channel' :: channels) :: rest in
        if streamComplete p && bool_decide (RingBuffer.available rb = 0%nat) then
          (mk rb false false, outputs', [Ended])
        else
          (mk rb (isPlaying p) (streamComplete p), outputs', [])
      else
        (p, (replicate (length channel) zero :: channels) :: rest, [])
  end.

(** The two kinds of step the audio thread takes. *)
Inductive event : Type :=
| Receive (m : message)
| Render (outputs : list (list (list sample))).

Definition step (p : t) (e : event) : option (t * list port_message) :=
  match e with
  | Receive m => p' ← onmessage p m; Some (p', [])
  | Render outputs => let '(p', _, posted) := process p outputs in Some (p', posted)
  end.

(** An execution: the messages posted by each step, in order. *)
Fixpoint exec (p : t) (es : list event) : option (t * list (list port_message)) :=
  match es with
  | [] => Some (p, [])
  | e :: es' =>
      '(p1, posted) ← step p e;
      '(p2, rest) ← exec p1 es';
      Some (p2, posted :: rest)
  end.

Definition is_streamComplete (e : event) : bool :=
  match e with
  | Receive m => bool_decide (type m = "streamComplete")
  | Render _ => false
  end.

(** How many "streamComplete" messages an execution receives. *)
Definition completions (es : list event) : nat :=
  length (List.filter is_streamComplete es).

(** The pending completion, counted: 1 while the flag is set. *)
Definition pending_completion (p : t) : nat :=
  if streamComplete p then 1%nat else 0%nat.

End Processor.
Arguments t : clear implicits.
Arguments message : clear implicits.
Arguments event : clear implicits.
End AudioPlaybackProcessor.

(** ** Exceptions *)

(** The exceptions this code can raise, by the constructor they are an
    instance of.  [InvalidCharacterError] is the [DOMException] of [atob]. *)
Inductive exn : Type :=
| SyntaxError
| TypeError
| RangeError
| InvalidCharacterError
| Error (message : string).

Inductive result (A : Type) : Type :=
| Ok (a : A)
| Throw (e : exn).
Arguments Ok {A} a.
Arguments Throw {A} e.

(** [e instanceof SyntaxError] *)
Definition instanceof_SyntaxError (e : exn) : bool :=
  match e with SyntaxError => true | _ => false end.

(** ** The platform's [atob]

    [atob] is the browser's function, not code of this repository; it is
    written out here after the forgiving-base64 decode algorithm it
    implements, so that the decoder can be run on concrete payloads. *)

Module Base64.

Definition is_ascii_whitespace (c : ascii) : bool :=
  let n := N_of_ascii c in
  ((n =? 9) || (n =? 10) || (n =? 12) || (n =? 13) || (n =? 32))%N.

(** The 6-bit value of a character of the base64 alphabet. *)
Definition sextet (c : ascii) : option N :=
  let n := N_of_ascii c in
  if ((65 <=? n) && (n <=? 90))%N then Some (n - 65)%N
  else if ((97 <=? n) && (n <=? 122))%N then Some (n - 71)%N
  else if ((48 <=? n) && (n <=? 57))%N then Some (n + 4)%N
  else if (n =? 43)%N then Some 62%N
  else if (n =? 47)%N then Some 63%N
  else None.

(** Removes one or two trailing [=]. *)
Definition strip_padding (data : list ascii) : list ascii :=
  match rev data with
  | "="%char :: "="%char :: r => rev r
  | "="%char :: r => rev r
  | _ => data
  end.

(** Four sextets make three bytes; a final group of three makes two
    bytes and one of two makes one byte, the spare low bits dropped. *)
Fixpoint bytes_of_sextets (l : list N) : list N :=
  match l with
  | a :: b :: c :: d :: rest =>
      let w := (N.shiftl a 18 + N.shiftl b 12 + N.shiftl c 6 + d)%N in
      N.land (N.shiftr w 16) 255 :: N.land (N.shiftr w 8) 255 :: N.land w 255
        :: bytes_of_sextets rest
  | [a; b; c] =>
      let w := (N.shiftl a 12 + N.shiftl b 6 + c)%N in
      [N.land (N.shiftr w 10) 255; N.land (N.shiftr w 2) 255]
  | [a; b] =>
      let w := (N.shiftl a 6 + b)%N in
      [N.land (N.shiftr w 4) 255]
  | _ => []
  end.

(** [atob(data)]: the binary string, or [None] where the platform throws
    [InvalidCharacterError]. *)
Definition atob (data : string) : option string :=
  let data1 := filter (λ c, negb (is_ascii_whitespace c)) (list_ascii_of_string data) in
  let data2 :=
    if decide (length data1 `mod` 4 = 0)%nat then strip_padding data1 else data1 in
  if decide (length data2 `mod` 4 = 1)%nat then None
  else
    sextets ← mapM sextet data2;
    Some (string_of_list_ascii (map ascii_of_N (bytes_of_sextets sextets))).

End Base64.

(** ** PCM decoder (audio-utils.ts) *)

(** Two's-complement reading of a 16-bit pattern. *)
Definition int16 (u : Z) : Z := if decide (u < 32768) then u else u - 65536.

(** [new Int16Array(bytes.buffer)][i], on a little-endian platform. *)
Fixpoint Int16Array_view (bytes : list Z) : list Z :=
  match bytes with
  | lo :: hi :: rest => int16 (lo + 256 * hi) :: Int16Array_view rest
  | _ => []
  end.

(** A [Float32Array] element holding [v / 32768] for a 16-bit integer [v]:
    the quotient has at most 16 significant bits, so the division and the
    store are exact and the sample is this rational. *)
Definition float32_div_32768 (v : Z) : Q := (v # 32768)%Q.

(** [decodePCM16ToFloat32(base64Audio)].  The [Int16Array] constructor
    throws [RangeError] on a buffer whose byte length is odd. *)
Definition decodePCM16ToFloat32 (base64Audio : string) : result (list Q) :=
  match Base64.atob base64Audio with
  | None => Throw InvalidCharacterError
  | Some raw =>
      let bytes := map (λ c, Z.of_N (N_of_ascii c)) (list_ascii_of_string raw) in
      if decide (length bytes `mod` 2 = 0)%nat then
        let pcm16 := Int16Array_view bytes in
        Ok (map float32_div_32768 pcm16)
      else Throw RangeError
  end.

(** ** Playback hook (useAudioPlayback.ts) *)

Module AudioPlayback.

Inductive PlaybackState : Type := idle | playing | ended.

Abbreviation message := (AudioPlaybackProcessor.message Q).
Abbreviation Message := (@AudioPlaybackProcessor.Message Q).

(** The hook's refs and state: [workletRef.current] is set or null,
    [posted] lists what went through [worklet.port.postMessage]. *)
Record t : Type := mk {
  state : PlaybackState;
  worklet : bool;
  seqBuffer : SequenceBuffer.t string;
  posted : list message
}.

Definition new : t := mk idle false SequenceBuffer.new [].

(** [init()], its awaited module load taken to succeed. *)
Definition init (h : t) : t :=
  if worklet h then h else mk (state h) true (seqBuffer h) (posted h).

(** [pushAudio(base64Audio)]: the hook afterwards and the exception that
    escaped, if any. *)
Definition pushAudio (h : t) (base64Audio : string) : t * option exn :=
  if negb (worklet h) then (h, None)
  else
    match decodePCM16ToFloat32 base64Audio with
    | Throw e => (h, Some e)
    | Ok samples =>
        (mk playing (worklet h) (seqBuffer h)
            (posted h ++ [Message "audio" samples]), None)
    end.

(** [for (const chunk of readyChunks) { decode; postMessage }] *)
Fixpoint post_chunks (posted : list message) (readyChunks : list string)
  : list message * option exn :=
  match readyChunks with
  | [] => (posted, None)
  | chunk :: rest =>
      match decodePCM16ToFloat32 chunk with
      | Throw e => (posted, Some e)
      | Ok samples => post_chunks (posted ++ [Message "audio" samples]) rest
      end
  end.

(** [pushSequencedAudio(seq, base64Audio)] *)
Definition pushSequencedAudio (h : t) (seq : Z) (base64Audio : string)
  : option (t * option exn) :=
  if negb (worklet h) then Some (h, None)
  else
    '(sb, readyChunks) ← SequenceBuffer.push (seqBuffer h) seq base64Audio;
    match post_chunks (posted h) readyChunks with
    | (posted', Some e) => Some (mk (state h) (worklet h) sb posted', Some e)
    | (posted', None) =>
        let state' :=
          if decide (0 < length readyChunks)%nat then playing else state h in
        Some (mk state' (worklet h) sb posted', None)
    end.

(** [signalComplete()] *)
Definition signalComplete (h : t) : t :=
  if worklet h then
    mk (state h) (worklet h) (seqBuffer h)
       (posted h ++ [Message "streamComplete" []])
  else h.

(** [clear()] *)
Definition clear (h : t) : t :=
  let posted' :=
    if worklet h then posted h ++ [Message "clear" []] else posted h in
  mk idle (worklet h) (SequenceBuffer.reset (seqBuffer h)) posted'.

(** A series of [pushSequencedAudio] calls, each fragment given as its
    sequence number and payload, the caller catching what a call throws. *)
Fixpoint sequenced_calls (h : t) (calls : list (Z * string))
  : option (t * list (option exn)) :=
  match calls with
  | [] => Some (h, [])
  | (seq, base64Audio) :: rest =>
      '(h1, e) ← pushSequencedAudio h seq base64Audio;
      '(h2, es) ← sequenced_calls h1 rest;
      Some (h2, e :: es)
  end.

(** The sample blocks among the posted messages, in posting order. *)
Definition audio_blocks (msgs : list message) : list (list Q) :=
  omap (λ m, if decide (AudioPlaybackProcessor.type m = "audio")
             then Some (AudioPlaybackProcessor.samples m) else None) msgs.

End AudioPlayback.

(** ** Parsed records *)

(** An integer in the range where every integer is a Number and
    distinct from its neighbours, from [-(2^53 - 1)] to [2^53 - 1]
    ([Number.isSafeInteger]). *)
Record safe_integer : Type := SafeInteger {
  safe_value : Z;
  safe_range : bool_decide (Z.abs safe_value < 2 ^ 53)
}.

(** [String(n)] for such a number: its decimal digits, with a minus sign
    below zero. *)
Definition Number_toString (n : safe_integer) : string :=
  NilZero.string_of_int (Z.to_int (safe_value n)).

(** The values [JSON.parse] returns.  Numbers are the safe integers, as
    the wire format carries them in [seq]; [fields] lists an object's own
    properties. *)
#[local] Unset Elimination Schemes.
Inductive json : Type :=
| JNull
| JBool (b : bool)
| JNum (n : safe_integer)
| JStr (s : string)
| JArr (items : list json)
| JObj (fields : list (string * json)).
#[local] Set Elimination Schemes.

(** A JavaScript value read off a parsed record: [None] is [undefined]. *)
Definition jsval : Type := option json.

(** Own-property lookup in an object's field list. *)
Fixpoint field (fields : list (string * json)) (name : string) : jsval :=
  match fields with
  | [] => None
  | (k, v) :: rest => if decide (k = name) then Some v else field rest name
  end.

(** [event.name]: throws [TypeError] on [null]; [undefined] on the other
    primitives and on arrays for the names read here. *)
Definition get (event : json) (name : string) : result jsval :=
  match event with
  | JNull => Throw TypeError
  | JObj fields => Ok (field fields name)
  | _ => Ok None
  end.

(** [event.name] on a value known not to be [null]. *)
Definition prop (event : json) (name : string) : jsval :=
  match get event name with
  | Ok v => v
  | Throw _ => None
  end.

Definition join (sep : string) (parts : list string) : string :=
  match parts with
  | [] => ""
  | p :: ps => fold_left (λ acc q, acc +:+ sep +:+ q) ps p
  end.

(** The conversion of a parsed value to a string, as [String(v)], string
    concatenation, [new Error(v)] and [atob(v)] perform it.  A parsed
    object inherits [Object.prototype.toString] unless it has an own
    property [toString]; an own one comes from JSON, so it is not
    callable, [valueOf] does not give a primitive either, and the
    conversion throws [TypeError].  An array is joined with commas, its
    elements converted in order, [null] giving the empty string. *)
Fixpoint json_ToString (v : json) : result string :=
  match v with
  | JNull => Ok "null"
  | JBool true => Ok "true"
  | JBool false => Ok "false"
  | JNum n => Ok (Number_toString n)
  | JStr s => Ok s
  | JArr items =>
      match
        (fix elements (items : list json) : result (list string) :=
           match items with
           | [] => Ok []
           | x :: rest =>
               match match x with JNull => Ok "" | _ => json_ToString x end with
               | Throw e => Throw e
               | Ok part =>
                   match elements rest with
                   | Throw e => Throw e
                   | Ok parts => Ok (part :: parts)
                   end
               end
           end) items
      with
      | Throw e => Throw e
      | Ok parts => Ok (join "," parts)
      end
  | JObj fields =>
      match field fields "toString" with
      | Some _ => Throw TypeError
      | None => Ok "[object Object]"
      end
  end.

Definition ToString (v : jsval) : result string :=
  match v with
  | None => Ok "undefined"
  | Some j => json_ToString j
  end.

(** What [throw new Error(v)] throws: an [Error] with no message for
    [undefined], with the string form of [v] otherwise, or the
    [TypeError] of the conversion where that throws. *)
Definition new_Error (v : jsval) : exn :=
  match v with
  | None => Error ""
  | Some j =>
      match json_ToString j with
      | Ok message => Error message
      | Throw e => e
      end
  end.

(** [decodePCM16ToFloat32(v)] for whatever value is passed: [atob]
    converts its argument to a string first. *)
Definition decode_value (v : jsval) : result (list Q) :=
  match ToString v with
  | Throw e => Throw e
  | Ok base64Audio => decodePCM16ToFloat32 base64Audio
  end.

(** ** Stream orchestrator (useVoiceStream.ts) *)

Module VoiceStream.

(** One line of the response body, as the loop body sees it. *)
Inductive line : Type :=
| Skipped
    (** [!line.startsWith("data: ")] *)
| Data (parsed : option json)
    (** [JSON.parse(line.slice(6))]: the value, or [None] where it throws
        [SyntaxError] *).

(** Which of the optional callbacks the caller supplied.  A callback that
    is invoked is taken to return normally. *)
Record StreamCallbacks : Type := {
  onUserTranscript : bool;
  onTranscript : bool;
  onComplete : bool;
  onError : bool
}.

(** A callback invocation, with its arguments. *)
Inductive call : Type :=
| OnUserTranscript (text : jsval)
| OnTranscript (text : jsval) (full : string)
| OnComplete (transcript : string)
| OnError (error : exn).

(** [callbacks.f?.(args)] *)
Definition optional_call (supplied : bool) (c : call) : list call :=
  if supplied then [c] else [].

(** What the read loop carries from record to record. *)
Record t : Type := mk {
  fullTranscript : string;
  playback : AudioPlayback.t
}.

(** [playback.pushAudio(event.data)] for whatever value the record
    carries: the worklet check comes first, then [atob] converts its
    argument to a string. *)
Definition pushAudio_value (h : AudioPlayback.t) (data : jsval)
  : AudioPlayback.t * option exn :=
  if negb (AudioPlayback.worklet h) then (h, None)
  else
    match ToString data with
    | Throw e => (h, Some e)
    | Ok base64Audio => AudioPlayback.pushAudio h base64Audio
    end.

(** The body of the [try]: the state afterwards, the callbacks invoked
    and the exception thrown out of it, if any. *)
Definition dispatch (callbacks : StreamCallbacks) (st : t) (parsed : option json)
  : t * list call * option exn :=
  match parsed with
  | None => (st, [], Some SyntaxError)
  | Some event =>
      match get event "type" with
      | Throw e => (st, [], Some e)
      | Ok (Some (JStr type)) =>
          let data := prop event "data" in
          if decide (type = "user_transcript") then
            (st, optional_call (onUserTranscript callbacks) (OnUserTranscript data), None)
          else if decide (type = "transcript") then
            match ToString data with
            | Throw e => (st, [], Some e)
            | Ok text =>
                let full := fullTranscript st +:+ text in
                (mk full (playback st),
                 optional_call (onTranscript callbacks) (OnTranscript data full), None)
            end
          else if decide (type = "audio") then
            let '(pb, e) := pushAudio_value (playback st) data in
            (mk (fullTranscript st) pb, [], e)
          else if decide (type = "done") then
            (mk (fullTranscript st) (AudioPlayback.signalComplete (playback st)),
             optional_call (onComplete callbacks) (OnComplete (fullTranscript st)), None)
          else if decide (type = "error") then
            (st, [], Some (new_Error (prop event "error")))
          else (st, [], None)
      | Ok _ => (st, [], None)
      end
  end.

(** One iteration of [for (const line of lines)], with its [catch]. *)
Definition handle_line (callbacks : StreamCallbacks) (st : t) (l : line)
  : t * list call :=
  match l with
  | Skipped => (st, [])
  | Data parsed =>
      match dispatch callbacks st parsed with
      | (st', calls, None) => (st', calls)
      | (st', calls, Some e) =>
          if instanceof_SyntaxError e then (st', calls)
          else (st', calls ++ optional_call (onError callbacks) (OnError e))
      end
  end.

(** The read loop over all the lines of the response, in order. *)
Fixpoint process_lines (callbacks : StreamCallbacks) (st : t) (lines : list line)
  : t * list call :=
  match lines with
  | [] => (st, [])
  | l :: rest =>
      let '(st1, calls1) := handle_line callbacks st l in
      let '(st2, calls2) := process_lines callbacks st1 rest in
      (st2, calls1 ++ calls2)
  end.

(** [streamVoiceResponse], from [playback.init()] on, given the lines the
    response delivers. *)
Definition streamVoiceResponse (callbacks : StreamCallbacks)
    (pb : AudioPlayback.t) (lines : list line) : t * list call :=
  let pb1 := AudioPlayback.init pb in
  let pb2 := AudioPlayback.clear pb1 in
  process_lines callbacks (mk "" pb2) lines.

(** The audio fragment a record carries: its [seq], if it is an integer,
    and its payload. *)
Definition fragment (l : line) : option (option Z * jsval) :=
  match l with
  | Data (Some (JObj fields)) =>
      match field fields "type" with
      | Some (JStr type) =>
          if decide (type = "audio") then
            Some (match field fields "seq" with
                  | Some (JNum n) => Some (safe_value n)
                  | _ => None
                  end,
                  field fields "data")
          else None
      | _ => None
      end
  | _ => None
  end.

(** The sample block an audio record contributes when its payload
    decodes. *)
Definition arrival_block (l : line) : option (list Q) :=
  match fragment l with
  | Some (_, payload) =>
      match decode_value payload with
      | Ok samples => Some samples
      | Throw _ => None
      end
  | None => None
  end.

(** A record whose [type] is the string [ty]. *)
Definition has_type (ty : string) (event : json) : Prop :=
  get event "type" = Ok (Some (JStr ty)).

(** Sample inputs: the callbacks all supplied, and records of the wire
    format of the three kinds used in the examples. *)
Definition all_callbacks : StreamCallbacks :=
  {| onUserTranscript := true; onTranscript := true;
     onComplete := true; onError := true |}.

Definition error_record : line :=
  Data (Some (JObj [("type", JStr "error"); ("error", JStr "boom")])).

Definition transcript_record (text : string) : line :=
  Data (Some (JObj [("type", JStr "transcript"); ("data", JStr text)])).

Definition audio_record (seq : safe_integer) (payload : string) : line :=
  Data (Some (JObj [("type", JStr "audio"); ("seq", JNum seq); ("data", JStr payload)])).

End VoiceStream.

(** ** Further definitions *)

Module ProcessorEvents.
Import AudioPlaybackProcessor.

(** An "audio" control message. *)
Definition is_audio {sample : Type} (e : event sample) : bool :=
  match e with
  | Receive m => bool_decide (type m = "audio")
  | Render _ => false
  end.

End ProcessorEvents.

Module SequenceBufferHeld.
Import SequenceBuffer.

(** Every payload waiting in [pending], key by key. *)
Definition held {A : Type} (sb : t A) : list A :=
  flat_map snd (map_to_list (pending sb)).

End SequenceBufferHeld.

Module VoiceStreamViews.
Import VoiceStream.

(** The message a record makes the hook post to the worklet: the decoded
    block of an [audio] record, "streamComplete" for a [done] record. *)
Definition worklet_message (l : line) : option AudioPlayback.message :=
  match l with
  | Data (Some (JObj fields)) =>
      match field fields "type" with
      | Some (JStr type) =>
          if decide (type = "audio") then
            match decode_value (field fields "data") with
            | Ok samples => Some (AudioPlaybackProcessor.Message "audio" samples)
            | Throw _ => None
            end
          else if decide (type = "done") then
            Some (AudioPlaybackProcessor.Message "streamComplete" [])
          else None
      | _ => None
      end
  | _ => None
  end.

(** The text a [transcript] record adds to the running transcript, if
    its [data] converts to a string. *)
Definition transcript_delta (l : line) : option string :=
  match l with
  | Data (Some (JObj fields)) =>
      match field fields "type" with
      | Some (JStr type) =>
          if decide (type = "transcript") then
            match ToString (field fields "data") with
            | Ok text => Some text
            | Throw _ => None
            end
          else None
      | _ => None
      end
  | _ => None
  end.

Definition concat_strings (parts : list string) : string :=
  foldr String.app "" parts.

(** Lines the loop passes over: lines without the [data: ] prefix, records
    that do not parse, parsed values other than [null] that are not
    objects, and objects whose [type] is none of the five the switch
    knows. *)
Definition inert (l : line) : bool :=
  match l with
  | Skipped => true
  | Data None => true
  | Data (Some JNull) => false
  | Data (Some (JObj fields)) =>
      match field fields "type" with
      | Some (JStr type) =>
          negb (bool_decide (type ∈ ["user_transcript"; "transcript"; "audio";
                                      "done"; "error"]))
      | _ => true
      end
  | Data (Some _) => true
  end.

End VoiceStreamViews.

(** ** Truthiness *)

(** [!!v] for a JavaScript value read off JSON. *)
Definition truthy (v : jsval) : bool :=
  match v with
  | None => false
  | Some JNull => false
  | Some (JBool b) => b
  | Some (JNum n) => negb (safe_value n =? 0)
  | Some (JStr s) => negb (String.eqb s "")
  | Some (JArr _) => true
  | Some (JObj _) => true
  end.

(** ** Audio format detection (server/replit_integrations/audio/client.ts) *)

Module AudioFormatDetection.

Inductive AudioFormat : Type := wav | mp3 | webm | mp4 | ogg | unknown.

(** [buffer[i] === v] *)
Definition byte_is (buffer : list Z) (i : nat) (v : Z) : bool :=
  bool_decide (buffer !! i = Some v).

(** [detectAudioFormat(buffer)] *)
Definition detectAudioFormat (buffer : list Z) : AudioFormat :=
  if decide (length buffer < 12)%nat then unknown
  else if byte_is buffer 0 0x52 && byte_is buffer 1 0x49
          && byte_is buffer 2 0x46 && byte_is buffer 3 0x46 then wav
  else if byte_is buffer 0 0x1a && byte_is buffer 1 0x45
          && byte_is buffer 2 0xdf && byte_is buffer 3 0xa3 then webm
  else if (byte_is buffer 0 0xff
           && (byte_is buffer 1 0xfb || byte_is buffer 1 0xfa || byte_is buffer 1 0xf3))
          || (byte_is buffer 0 0x49 && byte_is buffer 1 0x44 && byte_is buffer 2 0x33)
       then mp3
  else if byte_is buffer 4 0x66 && byte_is buffer 5 0x74
          && byte_is buffer 6 0x79 && byte_is buffer 7 0x70 then mp4
  else if byte_is buffer 0 0x4f && byte_is buffer 1 0x67
          && byte_is buffer 2 0x67 && byte_is buffer 3 0x53 then ogg
  else unknown.

(** [ensureCompatibleFormat(audioBuffer)], given what [convertToWav]
    (an ffmpeg run) resolves to or rejects with. *)
Definition ensureCompatibleFormat (convertToWav : list Z → result (list Z))
    (audioBuffer : list Z) : result (list Z * AudioFormat) :=
  let detected := detectAudioFormat audioBuffer in
  match detected with
  | wav => Ok (audioBuffer, wav)
  | mp3 => Ok (audioBuffer, mp3)
  | _ =>
      match convertToWav audioBuffer with
      | Ok wavBuffer => Ok (wavBuffer, wav)
      | Throw e => Throw e
      end
  end.

(** The buffer begins with the bytes [magic]. *)
Definition starts_with (magic buffer : list Z) : Prop :=
  take (length magic) buffer = magic.

End AudioFormatDetection.

(** ** Voice message route (server/replit_integrations/audio/routes.ts) *)

Module VoiceRoute.

(** What one chunk of the model's stream carries: [chunk.choices?.[0]?.delta]
    is falsy ([None]) or has [delta?.audio?.transcript] and
    [delta?.audio?.data], each a string where the audio delta has it and
    [undefined] ([None]) where not. *)
Record delta : Type := Delta {
  audio_transcript : option string;
  audio_data : option string
}.

Inductive response : Type :=
| Json (status : nat) (body : json)
    (** [res.status(status).json(body)] *)
| EventStream (records : list json)
    (** the objects written as [data: ${JSON.stringify(record)}\n\n],
        then [res.end()] *).

Definition record (type : string) (key : string) (value : json) : json :=
  JObj [("type", JStr type); (key, value)].

(** The body of [for await (const chunk of stream)], for the chunks the
    stream yields. *)
Fixpoint stream_chunks (assistantTranscript : string) (chunks : list (option delta))
  : string * list json :=
  match chunks with
  | [] => (assistantTranscript, [])
  | None :: rest => stream_chunks assistantTranscript rest
  | Some d :: rest =>
      let '(assistantTranscript1, written1) :=
        match audio_transcript d with
        | Some t =>
            if truthy (Some (JStr t))
            then (assistantTranscript +:+ t, [record "transcript" "data" (JStr t)])
            else (assistantTranscript, [])
        | None => (assistantTranscript, [])
        end in
      let written2 :=
        match audio_data d with
        | Some a => if truthy (Some (JStr a)) then [record "audio" "data" (JStr a)] else []
        | None => []
        end in
      let '(final, written3) := stream_chunks assistantTranscript1 rest in
      (final, written1 ++ written2 ++ written3)
  end.

(** The handler of [POST /api/conversations/:id/messages].  [audio] is
    [req.body.audio]; [prelude] is what format conversion, transcription
    and the storage calls before the response starts come to: the user's
    transcript, or an exception; [chunks] are the chunks the model's
    stream yields, [stream_throws] whether creating or reading it throws
    after them, [save_throws] whether saving the assistant message
    throws.  Returns the response and the assistant transcript saved. *)
Definition post_message (audio : jsval) (prelude : result string)
    (chunks : list (option delta)) (stream_throws save_throws : bool)
  : response * option string :=
  if negb (truthy audio) then
    (Json 400 (JObj [("error", JStr "Audio data (base64) is required")]), None)
  else
    match prelude with
    | Throw _ => (Json 500 (JObj [("error", JStr "Failed to process voice message")]), None)
    | Ok userTranscript =>
        let '(assistantTranscript, written) := stream_chunks "" chunks in
        let first := record "user_transcript" "data" (JStr userTranscript) in
        if stream_throws then
          (EventStream (first :: written
                          ++ [record "error" "error" (JStr "Failed to process voice message")]),
           None)
        else if save_throws then
          (EventStream (first :: written
                          ++ [record "error" "error" (JStr "Failed to process voice message")]),
           None)
        else
          (EventStream (first :: written
                          ++ [record "done" "transcript" (JStr assistantTranscript)]),
           Some assistantTranscript)
    end.

(** The lines the client's read loop sees for the records written: each
    record is followed by an empty line, and a record parses back to the
    value that was serialised. *)
Definition sse_lines (records : list json) : list VoiceStream.line :=
  flat_map (λ r, [VoiceStream.Data (Some r); VoiceStream.Skipped]) records.

End VoiceRoute.

(** ** URL building (shared/routes.ts) *)

Module Routes.

(** [s.startsWith(p)]: what follows the prefix, if [s] begins with [p]. *)
Fixpoint strip_prefix (p s : string) : option string :=
  match p, s with
  | EmptyString, _ => Some s
  | String a p', String b s' => if decide (a = b) then strip_prefix p' s' else None
  | String _ _, EmptyString => None
  end.

(** The first occurrence of [p] in [s]: what comes before and after it. *)
Fixpoint search (p s : string) : option (string * string) :=
  match strip_prefix p s with
  | Some after => Some (EmptyString, after)
  | None =>
      match s with
      | EmptyString => None
      | String c s' =>
          match search p s' with
          | Some (before, after) => Some (String c before, after)
          | None => None
          end
      end
  end.

(** [s.includes(p)] *)
Definition includes (s p : string) : bool :=
  match search p s with Some _ => true | None => false end.

(** GetSubstitution for a string pattern, which has no captures: [$$],
    [$&], [$`] and [$'] are expanded, any other [$] stands for itself. *)
Fixpoint GetSubstitution (matched before after replacement : string) : string :=
  match replacement with
  | EmptyString => EmptyString
  | String c tail =>
      if decide (c = "$"%char) then
        match tail with
        | String d rest =>
            if decide (d = "$"%char) then
              String "$" (GetSubstitution matched before after rest)
            else if decide (d = "&"%char) then
              matched +:+ GetSubstitution matched before after rest
            else if decide (d = "`"%char) then
              before +:+ GetSubstitution matched before after rest
            else if decide (d = "'"%char) then
              after +:+ GetSubstitution matched before after rest
            else String "$" (GetSubstitution matched before after tail)
        | EmptyString => String "$" EmptyString
        end
      else String c (GetSubstitution matched before after tail)
  end.

(** [s.replace(pattern, replacement)] with a string pattern. *)
Definition replace (s pattern replacement : string) : string :=
  match search pattern s with
  | None => s
  | Some (before, after) =>
      before +:+ GetSubstitution pattern before after replacement +:+ after
  end.

(** A parameter value: [string | number], the numbers being safe
    integers. *)
Inductive param : Type :=
| PStr (s : string)
| PNum (n : safe_integer).

(** [String(value)] *)
Definition param_ToString (value : param) : string :=
  match value with
  | PStr s => s
  | PNum n => Number_toString n
  end.

(** [buildUrl(path, params)]: [params] is [undefined] or the object's
    entries in [Object.entries] order. *)
Definition buildUrl (path : string) (params : option (list (string * param))) : string :=
  match params with
  | None => path
  | Some entries =>
      fold_left
        (λ url '(key, value),
           if includes url (":" +:+ key)
           then replace url (":" +:+ key) (param_ToString value)
           else url)
        entries path
  end.

(** The character [c] occurs in [s]. *)
Fixpoint has_char (c : ascii) (s : string) : bool :=
  match s with
  | EmptyString => false
  | String a s' => bool_decide (a = c) || has_char c s'
  end.

(** A value whose string form has no [$]: every number, and the strings
    without one. *)
Definition plain (value : param) : bool :=
  match value with
  | PNum _ => true
  | PStr s => negb (has_char "$" s)
  end.

End Routes.

(** ** Chat stream hook ([useChatStream]) *)

Module ChatStream.

(** A message of the cached conversation. *)
Record message : Type := Message {
  id : Z;
  conversationId : Z;
  role : string;
  content : string;
  createdAt : string
}.

(** The cached query data: [undefined], or a conversation with its
    [messages]. *)
Definition cache : Type := option (list message).

Definition with_content (m : message) (c : string) : message :=
  Message (id m) (conversationId m) (role m) c (createdAt m).

(** The optimistic update: the user message and an empty assistant
    message are appended, if the conversation is cached. *)
Definition optimistic (old : cache) (userMessage initialAssistantMessage : message)
  : cache :=
  match old with
  | None => None
  | Some messages => Some (messages ++ [userMessage; initialAssistantMessage])
  end.

(** The updater run for a record with content: [lastMsg.id] throws when
    there is no last message. *)
Definition update_last (tempAssistantMessageId : Z) (assistantContent : string)
    (old : cache) : result cache :=
  match old with
  | None => Ok None
  | Some messages =>
      match last messages with
      | None => Throw TypeError
      | Some lastMsg =>
          if decide (id lastMsg = tempAssistantMessageId) then
            Ok (Some (removelast messages ++ [with_content lastMsg assistantContent]))
          else Ok (Some messages)
      end
  end.

Record t : Type := mk {
  assistantContent : string;
  data : cache
}.

(** The body of the inner [try] for a line that begins with [data: ]:
    the state afterwards and the exception thrown out of it, if any. *)
Definition dispatch (tempAssistantMessageId : Z) (st : t) (parsed : option json)
  : t * option exn :=
  match parsed with
  | None => (st, Some SyntaxError)
  | Some record =>
      match get record "error" with
      | Throw e => (st, Some e)
      | Ok error =>
          if truthy error then (st, Some (new_Error error))
          else
            let content := prop record "content" in
            if truthy content then
              match ToString content with
              | Throw e => (st, Some e)
              | Ok text =>
                  let assistantContent' := assistantContent st +:+ text in
                  match update_last tempAssistantMessageId assistantContent'
                          (data st) with
                  | Ok data' => (mk assistantContent' data', None)
                  | Throw e => (mk assistantContent' (data st), Some e)
                  end
              end
            else (st, None)
      end
  end.

(** One iteration of [for (const line of lines)]: the inner [catch] logs
    whatever was thrown and the loop goes on.  Returns the state and what
    was logged. *)
Definition handle_line (tempAssistantMessageId : Z) (st : t) (l : VoiceStream.line)
  : t * list exn :=
  match l with
  | VoiceStream.Skipped => (st, [])
  | VoiceStream.Data parsed =>
      match dispatch tempAssistantMessageId st parsed with
      | (st', Some e) => (st', [e])
      | (st', None) => (st', [])
      end
  end.

Fixpoint process_lines (tempAssistantMessageId : Z) (st : t)
    (lines : list VoiceStream.line) : t * list exn :=
  match lines with
  | [] => (st, [])
  | l :: rest =>
      let '(st1, logged1) := handle_line tempAssistantMessageId st l in
      let '(st2, logged2) := process_lines tempAssistantMessageId st1 rest in
      (st2, logged1 ++ logged2)
  end.

(** What [fetch] and the reads of the body come to. *)
Inductive response : Type :=
| FetchThrows
| NotOk
| NoBody
| Body (lines : list VoiceStream.line) (read_throws : bool)
    (** the lines of the chunks read, then the end of the body or a
        read that throws *).

(** [sendMessage(content)] for a [content] that is not blank: the cache
    afterwards, the exceptions logged by the inner [catch], and whether
    the error toast was shown. *)
Definition sendMessage (old : cache) (userMessage initialAssistantMessage : message)
    (res : response) : cache * list exn * bool :=
  let data0 := optimistic old userMessage initialAssistantMessage in
  match res with
  | FetchThrows => (data0, [], true)
  | NotOk => (data0, [], true)
  | NoBody => (data0, [], true)
  | Body lines read_throws =>
      let '(st, logged) :=
        process_lines (id initialAssistantMessage) (mk EmptyString data0) lines in
      (data st, logged, read_throws)
  end.

(** The text a record adds to the assistant's message: the string form
    of its truthy [content], unless the record has a truthy [error] or
    the conversion of the content throws. *)
Definition content_delta (l : VoiceStream.line) : option string :=
  match l with
  | VoiceStream.Data (Some (JObj fields)) =>
      if truthy (field fields "error") then None
      else if truthy (field fields "content")
           then match ToString (field fields "content") with
                | Ok text => Some text
                | Throw _ => None
                end
           else None
  | _ => None
  end.

(** A record with a truthy [error]. *)
Definition carries_error (l : VoiceStream.line) : bool :=
  match l with
  | VoiceStream.Data (Some (JObj fields)) => truthy (field fields "error")
  | _ => false
  end.

End ChatStream.

(** * Properties *)

(** ** Sequence reassembly buffer *)

Module SequenceBufferFacts.
Import SequenceBuffer.
Section Facts.
Context {A : Type}.
Implicit Types (sb : t A) (m : gmap Z (list A)).

(** *** The drain loop *)

(** What [store] leaves under each key. *)
Lemma lookup_store seq data (m : gmap Z (list A)) k :
  store seq data m !! k =
    if decide (k = seq) then Some (default [] (m !! seq) ++ [data])
    else m !! k.
Proof.
  unfold store. destruct (decide (k = seq)) as [->|Hne].
  - rewrite lookup_alter_eq. destruct (decide (is_Some (m !! seq))) as [[l Hl]|Hn].
    + by rewrite Hl.
    + rewrite lookup_insert_eq. apply eq_None_not_Some in Hn. by rewrite Hn.
  - rewrite lookup_alter_ne by done.
    destruct (decide (is_Some (m !! seq))); [done|].
    by rewrite lookup_insert_ne.
Qed.

Lemma drained_eq (m m' : gmap Z (list A)) ns ns' (r r' : list A) :
  m = m' → ns = ns' → r = r' → Some (mk m ns, r) = Some (mk m' ns', r').
Proof. by intros -> -> ->. Qed.

(** The loop, given at least as much fuel as there are keys, stops at
    the first absent key at or after [ns], having removed exactly the
    keys it walked over and collected their chunks in key order. *)
Lemma drain_spec fuel (m : gmap Z (list A)) ns ready :
  (size m ≤ fuel)%nat →
  ∃ n : nat,
    drain fuel m ns ready =
      Some (mk (filter (λ kv, ¬ (ns ≤ kv.1 < ns + Z.of_nat n)) m)
               (ns + Z.of_nat n),
            ready ++ chunks_from m ns n)
    ∧ (∀ k, ns ≤ k < ns + Z.of_nat n → is_Some (m !! k))
    ∧ m !! (ns + Z.of_nat n) = None.
Proof.
  revert m ns ready. induction fuel as [|fuel IH]; intros m ns ready Hsz.
  - exists 0%nat. assert (m = ∅) as -> by (apply map_size_empty_inv; lia).
    cbn [drain]. rewrite lookup_empty. split_and!.
    + apply drained_eq.
      * apply map_eq. intros k. by rewrite map_lookup_filter, lookup_empty.
      * lia.
      * unfold chunks_from. simpl. by rewrite app_nil_r.
    + intros k Hk. lia.
    + by rewrite lookup_empty.
  - cbn [drain]. destruct (m !! ns) as [chunks|] eqn:Hns.
    + destruct (IH (delete ns m) (ns + 1) (ready ++ chunks)) as (n & Hd & Hin & Hout).
      { rewrite map_size_delete, Hns. lia. }
      exists (S n). rewrite Hd. split_and!.
      * apply drained_eq.
        -- apply map_eq. intros k. rewrite !map_lookup_filter.
           destruct (decide (k = ns)) as [->|Hne].
           ++ rewrite lookup_delete_eq, Hns. simpl.
              rewrite option_guard_False by (simpl; lia). done.
           ++ rewrite lookup_delete_ne by done.
              destruct (m !! k) as [c|]; [|done]. simpl.
              destruct (decide (ns + 1 ≤ k < ns + 1 + Z.of_nat n)).
              ** rewrite !option_guard_False by (simpl; lia). done.
              ** rewrite !option_guard_True by (simpl; lia). done.
        -- lia.
        -- unfold chunks_from.
           replace (Z.of_nat (S n)) with (Z.succ (Z.of_nat n)) by lia.
           rewrite (seqZ_cons ns) by lia. simpl. rewrite Hns. simpl.
           rewrite <- app_assoc. f_equal. f_equal.
           replace (Z.pred (Z.succ (Z.of_nat n))) with (Z.of_nat n) by lia.
           replace (Z.succ ns) with (ns + 1) by lia.
           rewrite !flat_map_concat_map. f_equal.
           apply map_ext_in. intros k Hk%list_elem_of_In%elem_of_seqZ.
           rewrite lookup_delete_ne by lia. done.
      * intros k Hk. destruct (decide (k = ns)) as [->|Hne]; [by eexists|].
        specialize (Hin k). rewrite lookup_delete_ne in Hin by done.
        apply Hin. lia.
      * rewrite lookup_delete_ne in Hout by lia.
        replace (ns + Z.of_nat (S n)) with (ns + 1 + Z.of_nat n) by lia. done.
    + exists 0%nat. split_and!.
      * apply drained_eq.
        -- apply map_eq. intros k. rewrite map_lookup_filter.
           destruct (m !! k); [|done]. simpl.
           rewrite option_guard_True by (simpl; lia). done.
        -- lia.
        -- unfold chunks_from. simpl. by rewrite app_nil_r.
      * intros k Hk. lia.
      * by rewrite Z.add_0_r.
Qed.


Lemma lookup_drained m (lo hi k : Z) :
  filter (λ kv : Z * list A, ¬ (lo ≤ kv.1 < hi)) m !! k =
    if decide (lo ≤ k < hi) then None else m !! k.
Proof.
  rewrite map_lookup_filter. destruct (m !! k) as [c|]; simpl.
  - destruct (decide (lo ≤ k < hi)).
    + rewrite option_guard_False by (simpl; tauto). done.
    + rewrite option_guard_True by (simpl; tauto). done.
  - by destruct (decide (lo ≤ k < hi)).
Qed.

(** [push] always returns: it stores the payload, then releases the chunks
    of the keys [nextSeq, ..., nextSeq + n - 1] for some [n] and stops at
    the absent key [nextSeq + n]. *)
Lemma seq_push_spec sb seq data :
  ∃ n : nat,
    push sb seq data =
      Some (mk (filter (λ kv, ¬ (nextSeq sb ≤ kv.1 < nextSeq sb + Z.of_nat n))
                  (store seq data (pending sb)))
               (nextSeq sb + Z.of_nat n),
            chunks_from (store seq data (pending sb)) (nextSeq sb) n)
    ∧ (∀ k, nextSeq sb ≤ k < nextSeq sb + Z.of_nat n →
            is_Some (store seq data (pending sb) !! k))
    ∧ store seq data (pending sb) !! (nextSeq sb + Z.of_nat n) = None.
Proof.
  unfold push.
  destruct (drain_spec (size (store seq data (pending sb)))
              (store seq data (pending sb)) (nextSeq sb) []) as (n & Hd & Hin & Hout);
    [done|].
  exists n. by rewrite Hd.
Qed.

Lemma seq_push_total sb seq data : is_Some (push sb seq data).
Proof. destruct (seq_push_spec sb seq data) as (n & -> & _). by eexists. Qed.

Lemma run_total sb (ops : list (op A)) : is_Some (run sb ops).
Proof.
  revert sb. induction ops as [|o ops IH]; intros sb; simpl; [by eexists|].
  assert (is_Some (step sb o)) as [[sb1 out] ->].
  { destruct o; simpl; [apply seq_push_total | by eexists]. }
  destruct (IH sb1) as [[sb2 outs] ->]. by eexists.
Qed.

(** A payload whose sequence number is below [nextSeq] is stored and
    nothing is released. *)
Lemma push_late sb seq data :
  pending sb !! nextSeq sb = None → seq < nextSeq sb →
  push sb seq data = Some (mk (store seq data (pending sb)) (nextSeq sb), []).
Proof.
  intros Hex Hlt. unfold push.
  destruct (size (store seq data (pending sb))); simpl;
    rewrite lookup_store, decide_False by lia; by rewrite Hex.
Qed.

(** *** In-order release *)

(** The chunks of a run of keys that each hold their own payload. *)
Lemma chunks_from_payloads (payloads : list A) m ns (n : nat) :
  0 ≤ ns →
  (∀ k, ns ≤ k < ns + Z.of_nat n →
        ∃ d, m !! k = Some [d] ∧ payloads !! Z.to_nat k = Some d) →
  take (Z.to_nat ns) payloads ++ chunks_from m ns n
    = take (Z.to_nat (ns + Z.of_nat n)) payloads.
Proof.
  intros Hns. induction n as [|n IH]; intros Hk.
  - unfold chunks_from. simpl. rewrite app_nil_r. f_equal. lia.
  - unfold chunks_from in *. rewrite seqZ_S, flat_map_app, app_assoc, IH.
    + destruct (Hk (ns + Z.of_nat n)) as (d & Hm & Hd); [lia|].
      simpl. rewrite Hm. simpl.
      replace (Z.to_nat (ns + Z.of_nat (S n))) with (S (Z.to_nat (ns + Z.of_nat n))) by lia.
      by rewrite (take_S_r _ _ d).
    + intros k Hk'. apply Hk. lia.
Qed.

(** Pushing a fragment not seen before keeps the buffer [awaiting] and
    releases the payloads from the old [nextSeq] up to the new one. *)
Lemma push_awaiting (payloads : list A) seen sb k d :
  awaiting payloads seen sb →
  k ∉ seen → 0 ≤ k → payloads !! Z.to_nat k = Some d →
  (∀ j, j ∈ seen → 0 ≤ j ∧ is_Some (payloads !! Z.to_nat j)) →
  ∃ sb' out,
    push sb k d = Some (sb', out)
    ∧ awaiting payloads (seen ++ [k]) sb'
    ∧ take (Z.to_nat (nextSeq sb)) payloads ++ out
        = take (Z.to_nat (nextSeq sb')) payloads.
Proof.
  intros (Hns & Hpend & Hbelow & Hnext) Hk Hk0 Hd Hseen.
  destruct (seq_push_spec sb k d) as (n & Hpush & Hin & Hout).
  set (m' := store k d (pending sb)) in *.
  assert (nextSeq sb ≤ k) as Hle.
  { destruct (decide (nextSeq sb ≤ k)); [done|]. exfalso. apply Hk, Hbelow. lia. }
  assert (∀ j, m' !! j =
               if decide (j ∈ seen ++ [k] ∧ nextSeq sb ≤ j)
               then (λ d, [d]) <$> payloads !! Z.to_nat j else None) as Hm'.
  { intros j. unfold m'. rewrite lookup_store.
    destruct (decide (j = k)) as [->|Hne].
    - rewrite Hpend, decide_False by tauto. simpl.
      rewrite decide_True by (split; [apply elem_of_app; right; left|done]).
      by rewrite Hd.
    - rewrite Hpend.
      destruct (decide (j ∈ seen ∧ nextSeq sb ≤ j)) as [[? ?]|Hn].
      + rewrite decide_True by (split; [apply elem_of_app; by left|done]). done.
      + rewrite decide_False; [done|].
        intros [[Hj|Hj%list_elem_of_singleton]%elem_of_app ?]; [|done].
        apply Hn. done. }
  assert (∀ j, j ∈ seen ++ [k] → 0 ≤ j ∧ is_Some (payloads !! Z.to_nat j)) as Hseen'.
  { intros j [Hj| ->%list_elem_of_singleton]%elem_of_app; [by apply Hseen|].
    split; [done|by eexists]. }
  eexists _, _. split; [exact Hpush|]. split.
  - split_and!; simpl.
    + lia.
    + intros j. rewrite lookup_drained, Hm'.
      destruct (decide (nextSeq sb ≤ j < nextSeq sb + Z.of_nat n)).
      * rewrite decide_False by lia. done.
      * destruct (decide (j ∈ seen ++ [k] ∧ nextSeq sb ≤ j)) as [[? ?]|Hn].
        -- rewrite decide_True by (split; [done|lia]). done.
        -- rewrite decide_False; [done|]. intros [? ?]. apply Hn. split; [done|lia].
    + intros j Hj. destruct (decide (j < nextSeq sb)).
      * apply elem_of_app. left. apply Hbelow. lia.
      * destruct (Hin j) as [c Hc]; [lia|]. rewrite Hm' in Hc.
        destruct (decide (j ∈ seen ++ [k] ∧ nextSeq sb ≤ j)) as [[? ?]|]; done.
    + intros Hmem. rewrite Hm' in Hout.
      rewrite decide_True in Hout by (split; [done|lia]).
      destruct (Hseen' _ Hmem) as [_ [x Hx]]. by rewrite Hx in Hout.
  - simpl. apply chunks_from_payloads; [done|].
    intros j Hj. destruct (Hin j Hj) as [c Hc]. rewrite Hm' in Hc.
    destruct (decide (j ∈ seen ++ [k] ∧ nextSeq sb ≤ j)) as [[Hmem ?]|]; [|done].
    destruct (Hseen' _ Hmem) as [_ [x Hx]]. exists x.
    rewrite Hm', decide_True by done. by rewrite Hx.
Qed.

(** The same over a list of fragments with distinct sequence numbers. *)
Lemma push_all_awaiting (payloads : list A) (frags : list (Z * A)) seen sb :
  awaiting payloads seen sb →
  NoDup (seen ++ frags.*1) →
  (∀ j, j ∈ seen → 0 ≤ j ∧ is_Some (payloads !! Z.to_nat j)) →
  (∀ k d, (k, d) ∈ frags → 0 ≤ k ∧ payloads !! Z.to_nat k = Some d) →
  ∃ sb' outs,
    push_all sb frags = Some (sb', outs)
    ∧ awaiting payloads (seen ++ frags.*1) sb'
    ∧ take (Z.to_nat (nextSeq sb)) payloads ++ concat outs
        = take (Z.to_nat (nextSeq sb')) payloads.
Proof.
  revert seen sb. induction frags as [|[k d] frags IH]; intros seen sb Haw Hnd Hseen Hfr.
  - exists sb, []. simpl. rewrite !app_nil_r. done.
  - destruct (Hfr k d) as [Hk0 Hd]; [left|].
    destruct (push_awaiting payloads seen sb k d) as (sb1 & out & Hp & Haw1 & Hrel);
      [done| |done|done|done|].
    { apply NoDup_app in Hnd as (_ & Hdisj & _). intros Hin.
      apply (Hdisj _ Hin). simpl. left. }
    destruct (IH (seen ++ [k]) sb1) as (sb2 & outs & Hrun & Haw2 & Hrel2).
    + done.
    + rewrite <- app_assoc. done.
    + intros j [Hj| ->%list_elem_of_singleton]%elem_of_app; [by apply Hseen|].
      split; [done|by eexists].
    + intros k' d' Hin. apply Hfr. by right.
    + exists sb2, (out :: outs). unfold push_all in *. simpl. rewrite Hp, Hrun.
      split; [done|]. split.
      * rewrite <- app_assoc in Haw2. done.
      * simpl. rewrite app_assoc, Hrel. done.
Qed.

(** C1.  Reordering correctness: the fragments of [payloads], tagged with
    their positions [0 .. n-1] and pushed into a fresh buffer in any
    order, each once, come out of the successive [push] calls, taken
    together, as [payloads] itself; every call returns, and the buffer
    ends at [nextSeq = n]. *)
Theorem reordering_correct (payloads : list A) (frags : list (Z * A)) :
  frags ≡ₚ imap (λ i d, (Z.of_nat i, d)) payloads →
  ∃ sb outs,
    push_all new frags = Some (sb, outs)
    ∧ concat outs = payloads
    ∧ nextSeq sb = Z.of_nat (length payloads).
Proof.
  intros Hperm.
  assert (∀ k d, (k, d) ∈ frags ↔ 0 ≤ k ∧ payloads !! Z.to_nat k = Some d) as Hmem.
  { intros k d. rewrite Hperm, elem_of_lookup_imap. split.
    - intros (i & x & [= -> ->] & Hi). rewrite Nat2Z.id. split; [lia|done].
    - intros [Hk Hd]. exists (Z.to_nat k), d. split; [|done]. f_equal. lia. }
  assert (NoDup frags.*1) as Hnd.
  { rewrite Hperm, fmap_imap.
    apply NoDup_alt. intros i j k. rewrite !list_lookup_imap.
    destruct (payloads !! i), (payloads !! j); simpl; intros [= <-] [= Hij]; lia. }
  destruct (push_all_awaiting payloads frags [] new) as (sb & outs & Hrun & Haw & Hrel).
  - split_and!; simpl; [done| |intros k; lia|apply not_elem_of_nil].
    intros k. apply lookup_empty.
  - done.
  - intros j []%not_elem_of_nil.
  - intros k d. apply Hmem.
  - simpl in *. destruct Haw as (Hns & _ & Hbelow & Hnext).
    assert (nextSeq sb = Z.of_nat (length payloads)) as Hlen.
    { destruct (Z.lt_total (nextSeq sb) (Z.of_nat (length payloads))) as [Hlt|[Heq|Hgt]].
      - exfalso. apply Hnext.
        destruct (lookup_lt_is_Some_2 payloads (Z.to_nat (nextSeq sb))) as [d Hd]; [lia|].
        apply list_elem_of_fmap. exists (nextSeq sb, d). split; [done|].
        apply Hmem. done.
      - done.
      - exfalso.
        assert (Z.of_nat (length payloads) ∈ frags.*1) as Hin by (apply Hbelow; lia).
        apply list_elem_of_fmap in Hin as ([k d] & Hk & Hin). simpl in Hk. subst k.
        apply Hmem in Hin as [_ Hd]. apply lookup_lt_Some in Hd. lia. }
    exists sb, outs. split; [done|]. split; [|done].
    rewrite Hlen, Nat2Z.id, take_ge in Hrel by done. exact Hrel.
Qed.

(** *** Monotone release *)

Section Tagged.
Context (tag : A → Z).


Lemma chunks_from_sorted m ns (n : nat) (released : list A) :
  (∀ k chunks x, m !! k = Some chunks → x ∈ chunks → tag x = k) →
  StronglySorted (by_tag tag) released →
  Forall (λ x, tag x < ns) released →
  StronglySorted (by_tag tag) (released ++ chunks_from m ns n)
  ∧ Forall (λ x, tag x < ns + Z.of_nat n) (released ++ chunks_from m ns n)
  ∧ Forall (λ x, ∃ k chunks, m !! k = Some chunks ∧ x ∈ chunks) (chunks_from m ns n).
Proof.
  intros Hfiled Hsorted Hbelow. induction n as [|n (IHs & IHb & IHm)].
  - unfold chunks_from. simpl. rewrite app_nil_r, Z.add_0_r. done.
  - unfold chunks_from in *. rewrite seqZ_S, flat_map_app. simpl.
    rewrite app_nil_r, app_assoc.
    destruct (m !! (ns + Z.of_nat n)) as [c|] eqn:Hc; simpl.
    + assert (∀ x, x ∈ c → tag x = ns + Z.of_nat n) as Htag by eauto.
      split_and!.
      * apply StronglySorted_app_2; [|done|].
        -- intros x y Hx Hy. unfold by_tag. rewrite (Htag y Hy).
           rewrite Forall_forall in IHb. specialize (IHb x Hx). simpl in IHb. lia.
        -- clear Hc. induction c as [|y c IHc]; constructor.
           ++ apply IHc. intros x Hx. apply Htag. by right.
           ++ apply Forall_forall. intros x Hx. unfold by_tag.
              rewrite (Htag y), (Htag x); [lia|by right|by left].
      * apply Forall_app. split.
        -- eapply Forall_impl; [exact IHb|]. simpl. intros; lia.
        -- apply Forall_forall. intros x Hx. rewrite (Htag x Hx). lia.
      * apply Forall_app. split; [done|].
        apply Forall_forall. intros x Hx. eauto.
    + rewrite !app_nil_r. split_and!; [done| |done].
      eapply Forall_impl; [exact IHb|]. simpl. intros; lia.
Qed.

(** One push of a payload under the sequence number it carries: the
    buffer stays filed by tag, what was released stays sorted and below
    [nextSeq], and nothing comes out or stays pending that was not
    pending before or just pushed. *)
Lemma push_tagged_step (x : A) sb (released : list A) :
  filed_by tag sb →
  StronglySorted (by_tag tag) released →
  Forall (λ y, tag y < nextSeq sb) released →
  ∃ sb' out,
    push sb (tag x) x = Some (sb', out)
    ∧ filed_by tag sb'
    ∧ StronglySorted (by_tag tag) (released ++ out)
    ∧ Forall (λ y, tag y < nextSeq sb') (released ++ out)
    ∧ (∀ y, y ∈ out → (∃ k c, pending sb !! k = Some c ∧ y ∈ c) ∨ y = x)
    ∧ (∀ k c y, pending sb' !! k = Some c → y ∈ c →
                (∃ k c, pending sb !! k = Some c ∧ y ∈ c) ∨ y = x).
Proof.
  intros Hf Hs Hb.
  destruct (seq_push_spec sb (tag x) x) as (n & Hpush & _ & _).
  set (m' := store (tag x) x (pending sb)) in *.
  assert (∀ k chunks y, m' !! k = Some chunks → y ∈ chunks
            → tag y = k ∧ ((∃ k c, pending sb !! k = Some c ∧ y ∈ c) ∨ y = x)) as Hm'.
  { intros k c y. unfold m'. rewrite lookup_store.
    destruct (decide (k = tag x)) as [->|Hne].
    - intros [= <-] [Hy| ->%list_elem_of_singleton]%elem_of_app; [|by auto].
      destruct (pending sb !! tag x) as [c0|] eqn:Hc0; simpl in Hy.
      + split; [by eapply Hf|]. left. eauto.
      + by apply not_elem_of_nil in Hy.
    - intros Hc Hy. split; [by eapply Hf|]. left. eauto. }
  destruct (chunks_from_sorted m' (nextSeq sb) n released) as (Hs1 & Hb1 & Hmem1);
    [intros k c y Hc Hy; by apply (Hm' k c y)|done|done|].
  eexists _, _. split; [exact Hpush|]. simpl. split_and!; [|done|done| |].
  - intros k c y. simpl. rewrite lookup_drained.
    destruct (decide _); [done|]. intros Hc Hy. by apply (Hm' k c y).
  - intros y Hy. rewrite Forall_forall in Hmem1.
    destruct (Hmem1 y Hy) as (k & c & Hc & Hyc). by apply (Hm' k c y).
  - intros k c y. rewrite lookup_drained.
    destruct (decide _); [done|]. intros Hc Hy. by apply (Hm' k c y).
Qed.

Lemma push_tagged_sorted (xs : list A) sb (released : list A) :
  filed_by tag sb →
  StronglySorted (by_tag tag) released →
  Forall (λ x, tag x < nextSeq sb) released →
  ∃ sb' outs,
    push_tagged tag sb xs = Some (sb', outs)
    ∧ filed_by tag sb'
    ∧ StronglySorted (by_tag tag) (released ++ concat outs)
    ∧ Forall (λ x, tag x < nextSeq sb') (released ++ concat outs)
    ∧ Forall (λ x, (∃ k chunks, pending sb !! k = Some chunks ∧ x ∈ chunks) ∨ x ∈ xs)
        (concat outs).
Proof.
  revert sb released. induction xs as [|x xs IH]; intros sb released Hf Hs Hb.
  - exists sb, []. unfold push_tagged. simpl. rewrite app_nil_r. split_and!; by try constructor.
  - destruct (push_tagged_step x sb released Hf Hs Hb)
      as (sb1 & out & Hpush & Hf1 & Hs1 & Hb1 & Hout & Hpend).
    destruct (IH sb1 (released ++ out) Hf1 Hs1 Hb1)
      as (sb2 & outs & Hrun & Hf2 & Hs2 & Hb2 & Hmem2).
    exists sb2, (out :: outs).
    unfold push_tagged in *. simpl. rewrite Hpush, Hrun. simpl.
    rewrite !app_assoc. split_and!; [done..|].
    apply Forall_app. split.
    + apply Forall_forall. intros y Hy.
      destruct (Hout y Hy) as [?| ->]; [by left|]. right. left.
    + eapply Forall_impl; [exact Hmem2|]. simpl.
      intros y [(k & c & Hc & Hy)|Hy]; [|right; by right].
      destruct (Hpend k c y Hc Hy) as [?| ->]; [by left|]. right. left.
Qed.

(** Fragments pushed into a fresh buffer under the sequence numbers they
    carry are released, over all the calls, in non-decreasing order of
    sequence number, and only pushed fragments are released. *)
Lemma released_in_sequence_order (xs : list A) :
  ∃ sb outs,
    push_tagged tag new xs = Some (sb, outs)
    ∧ StronglySorted (by_tag tag) (concat outs)
    ∧ Forall (λ x, x ∈ xs) (concat outs).
Proof.
  destruct (push_tagged_sorted xs new []) as (sb & outs & Hrun & _ & Hs & _ & Hmem).
  - intros k c x. simpl. by rewrite lookup_empty.
  - constructor.
  - constructor.
  - exists sb, outs. split_and!; [done|done|].
    eapply Forall_impl; [exact Hmem|]. simpl.
    intros x [(k & c & Hc & _)|Hx]; [|done]. by rewrite lookup_empty in Hc.
Qed.

End Tagged.

(** *** The counter and the pending keys *)

(** Chunks waiting under a key below [nextSeq] stay there over any
    further pushes, later arrivals for the key queueing behind them. *)
Lemma below_nextSeq_kept sb (frags : list (Z * A)) k chunks :
  k < nextSeq sb → pending sb !! k = Some chunks →
  ∃ sb' outs later,
    push_all sb frags = Some (sb', outs)
    ∧ pending sb' !! k = Some (chunks ++ later)
    ∧ nextSeq sb ≤ nextSeq sb'.
Proof.
  revert sb chunks. induction frags as [|[s d] frags IH]; intros sb chunks Hk Hc.
  - exists sb, [], []. simpl. rewrite app_nil_r. done.
  - destruct (seq_push_spec sb s d) as (n & Hpush & _ & _).
    set (sb1 := mk (filter (λ kv, ¬ (nextSeq sb ≤ kv.1 < nextSeq sb + Z.of_nat n))
                      (store s d (pending sb))) (nextSeq sb + Z.of_nat n)) in *.
    assert (∃ c1, pending sb1 !! k = Some (chunks ++ c1)) as [c1 Hc1].
    { simpl. rewrite lookup_drained, decide_False by lia.
      rewrite lookup_store, Hc.
      destruct (decide (k = s)) as [->|Hne].
      - rewrite Hc. simpl. by eexists.
      - exists []. by rewrite app_nil_r. }
    destruct (IH sb1 (chunks ++ c1)) as (sb2 & outs & later & Hrun & Hc2 & Hle);
      [simpl; lia|done|].
    exists sb2, (chunks_from (store s d (pending sb)) (nextSeq sb) n :: outs), (c1 ++ later).
    unfold push_all in *. simpl. rewrite Hpush. fold sb1. rewrite Hrun.
    split_and!; [done| |simpl in Hle; lia].
    by rewrite app_assoc.
Qed.

(** C7 (as amended).  Every operation returns.  A [push] never lowers
    [nextSeq] and a [reset] sets it to 0 and empties [pending].  After
    every operation [nextSeq] itself is not a key of [pending].  A push
    whose sequence number is not below [nextSeq] keeps every key at or
    above [nextSeq]; a push whose sequence number is below [nextSeq]
    files the payload under that lower key and releases nothing, and no
    later push releases it: whatever is pushed afterwards, the payload
    is still waiting under its key, below [nextSeq]. *)
Theorem nextSeq_and_pending_keys (sb : t A) (o : op A) :
  ∃ sb' out,
    step sb o = Some (sb', out)
    ∧ pending sb' !! nextSeq sb' = None
    ∧ match o with
      | Push seq data =>
          nextSeq sb ≤ nextSeq sb'
          ∧ (keys_ge sb → nextSeq sb ≤ seq → keys_ge sb')
          ∧ (pending sb !! nextSeq sb = None → seq < nextSeq sb →
             nextSeq sb' = nextSeq sb ∧ out = []
             ∧ pending sb' !! seq = Some (default [] (pending sb !! seq) ++ [data])
             ∧ ∀ frags : list (Z * A),
                 ∃ sb'' outs later,
                   push_all sb' frags = Some (sb'', outs)
                   ∧ pending sb'' !! seq
                     = Some ((default [] (pending sb !! seq) ++ [data]) ++ later)
                   ∧ seq < nextSeq sb'')
      | Reset => nextSeq sb' = 0 ∧ pending sb' = ∅
      end.
Proof.
  destruct o as [seq data|]; simpl.
  - destruct (seq_push_spec sb seq data) as (n & Hpush & Hin & Hout).
    eexists _, _. split; [exact Hpush|]. simpl. split_and!.
    + rewrite lookup_drained. destruct (decide _); [done|]. exact Hout.
    + lia.
    + intros Hge Hseq k c. simpl. rewrite lookup_drained, lookup_store.
      destruct (decide (nextSeq sb ≤ k < nextSeq sb + Z.of_nat n)); [done|].
      destruct (decide (k = seq)) as [->|Hne]; intros Hk.
      * lia.
      * specialize (Hge k c Hk). lia.
    + intros Hex Hlt. rewrite (push_late sb seq data Hex Hlt) in Hpush.
      injection Hpush as Hm Hns Hc. rewrite <- Hc, <- Hm.
      assert (store seq data (pending sb) !! seq
              = Some (default [] (pending sb !! seq) ++ [data])) as Hfiled.
      { rewrite lookup_store, decide_True by done. done. }
      split_and!; [lia|done|done|].
      intros frags.
      destruct (below_nextSeq_kept
                  (mk (store seq data (pending sb)) (nextSeq sb + Z.of_nat n))
                  frags seq (default [] (pending sb !! seq) ++ [data]))
        as (sb'' & outs & later & Hrun & Hkept & Hle).
      * simpl. lia.
      * exact Hfiled.
      * exists sb'', outs, later. simpl in Hle. split_and!; [done|done|lia].
  - eexists _, _. split; [done|]. simpl. by rewrite lookup_empty.
Qed.

End Facts.

(** *** Payloads seen through a function *)

Section Naturality.
Context {A B : Type} (f : A → B).




End Naturality.

(** The example of the hook's documentation: chunks arriving as
    seq 2, seq 0, seq 1. *)
Example push_2_0_1 :
  push_all new [(2, "c"); (0, "a"); (1, "b")]
  = Some (mk ∅ 3, [[]; ["a"]; ["b"; "c"]]).
Proof. vm_compute. reflexivity. Qed.

(** The draining example of the specification: 0, then 2, then 1. *)
Example push_0_2_1 :
  push_all new [(0, "p0"); (2, "p2"); (1, "p1")]
  = Some (mk ∅ 3, [["p0"]; []; ["p1"; "p2"]]).
Proof. vm_compute. reflexivity. Qed.

Lemma reordering_correct_witness :
  [(2, "c"); (0, "a"); (1, "b")] ≡ₚ imap (λ i d, (Z.of_nat i, d)) ["a"; "b"; "c"]
  ∧ ∃ sb outs,
      push_all new [(2, "c"); (0, "a"); (1, "b")] = Some (sb, outs)
      ∧ concat outs = ["a"; "b"; "c"]
      ∧ nextSeq sb = Z.of_nat (length ["a"; "b"; "c"]).
Proof.
  assert ([(2, "c"); (0, "a"); (1, "b")]
          ≡ₚ imap (λ i d, (Z.of_nat i, d)) ["a"; "b"; "c"]) as Hperm.
  { exact (Permutation_cons_append [(0, "a"); (1, "b")] (2, "c")). }
  split; [exact Hperm|].
  apply (reordering_correct ["a"; "b"; "c"] [(2, "c"); (0, "a"); (1, "b")] Hperm).
Defined.

(** C7, counterexample.  A second payload for sequence number 0, pushed
    after slot 0 was drained, stays in [pending] under the key 0 while
    [nextSeq] is 1: a key below [nextSeq]. *)
Lemma late_key_below_nextSeq :
  ∃ sb outs,
    run new [Push 0 "a"; Push 0 "b"] = Some (sb, outs)
    ∧ nextSeq sb = 1
    ∧ pending sb !! 0 = Some ["b"]
    ∧ ¬ keys_ge sb.
Proof.
  exists (mk {[0 := ["b"]]} 1), [["a"]; []].
  split; [vm_compute; reflexivity|]. split; [done|]. split; [done|].
  intros Hge. specialize (Hge 0 ["b"] eq_refl). simpl in Hge. lia.
Qed.

End SequenceBufferFacts.

(** ** Ring buffer *)

Module RingBufferFacts.
Import RingBuffer.
Section Facts.
Context {sample : Type} (zero nan : sample).
Implicit Types (rb : t sample) (data out : list sample).

Local Open Scope nat_scope.

(** *** Arithmetic and loops *)

Lemma mod_wrap (x c : nat) :
  0 < c → x < 2 * c → x `mod` c = if decide (x < c) then x else x - c.
Proof.
  intros Hc Hx. destruct (decide (x < c)).
  - by apply Nat.mod_small.
  - replace x with ((x - c) + 1 * c) at 1 by lia.
    rewrite Nat.Div0.mod_add. apply Nat.mod_small. lia.
Qed.

(** A loop that stores [f i] at index [i] for [i = 0 .. n-1]. *)
Lemma fold_store_seq {B} (f : nat → B) (n : nat) (l : list B) :
  n ≤ length l →
  fold_left (λ acc i, <[i := f i]> acc) (seq 0 n) l = map f (seq 0 n) ++ drop n l.
Proof.
  induction n as [|n IH]; intros Hn; [done|].
  rewrite seq_S, fold_left_app, IH by lia. simpl.
  rewrite map_app, <- app_assoc. simpl.
  destruct (lookup_lt_is_Some_2 l n) as [y Hy]; [lia|].
  rewrite (drop_S l y n Hy).
  rewrite insert_app_r_alt by (rewrite length_map, length_seq; lia).
  rewrite length_map, length_seq, Nat.sub_diag. done.
Qed.

Lemma lookup_map_seq {B} (f : nat → B) (n i : nat) :
  i < n → map f (seq 0 n) !! i = Some (f i).
Proof.
  intros Hi. change (map f (seq 0 n)) with (f <$> seq 0 n).
  rewrite list_lookup_fmap, lookup_seq_lt by done. done.
Qed.

(** *** [grow] *)

Lemma buffer_grow rb :
  availableData rb ≤ capacity rb →
  buffer (grow zero nan rb)
  = contents nan rb ++ replicate (capacity rb * 2 - availableData rb) zero.
Proof.
  intros Hle. unfold grow, contents. simpl.
  rewrite fold_store_seq by (rewrite length_replicate; lia).
  by rewrite drop_replicate.
Qed.

Lemma contents_grow rb :
  availableData rb ≤ capacity rb → contents nan (grow zero nan rb) = contents nan rb.
Proof.
  intros Hle. unfold contents at 1. rewrite buffer_grow by done.
  change (availableData (grow zero nan rb)) with (availableData rb).
  change (readIndex (grow zero nan rb)) with 0.
  change (capacity (grow zero nan rb)) with (capacity rb * 2).
  unfold contents.
  apply (list_eq_same_length _ _ (availableData rb));
    [by rewrite length_map, length_seq..|].
  intros i x y Hi. rewrite !lookup_map_seq by done. intros [= <-] [= <-].
  simpl. rewrite Nat.mod_small by lia. unfold read at 1.
  rewrite lookup_app_l by (rewrite length_map, length_seq; lia).
  by rewrite lookup_map_seq.
Qed.

Lemma invariant_grow rb :
  invariant rb →
  invariant (grow zero nan rb)
  ∧ readIndex (grow zero nan rb) = 0
  ∧ availableData (grow zero nan rb) = availableData rb
  ∧ capacity (grow zero nan rb) = capacity rb * 2.
Proof.
  intros [[_ Hle] Hw]. unfold invariant, grow. simpl. split_and!; [lia|lia| |done..].
  destruct (decide (capacity rb = 0)) as [Hc|Hc].
  - rewrite Hc in *. simpl. lia.
  - rewrite Nat.mod_small; lia.
Qed.

Lemma well_formed_grow rb : well_formed rb → well_formed (grow zero nan rb).
Proof.
  intros (Hc & Hlen & Hr & Hinv). pose proof Hinv as [[_ Hle] _].
  split_and!.
  - simpl. lia.
  - rewrite buffer_grow by done. unfold contents.
    rewrite length_app, length_map, length_seq, length_replicate. simpl. lia.
  - simpl. lia.
  - by apply invariant_grow.
Qed.

(** *** The writing loop *)

Lemma invariant_write rb x :
  invariant rb → availableData rb < capacity rb → invariant (write rb x).
Proof.
  intros [_ Hw] Hlt. unfold invariant, write. simpl. split; [lia|].
  rewrite Hw, Nat.Div0.add_mod_idemp_l. f_equal. lia.
Qed.

Lemma contents_write rb x :
  well_formed rb → availableData rb < capacity rb →
  contents nan (write rb x) = contents nan rb ++ [x].
Proof.
  intros (Hc & Hlen & Hr & [_ Hw]) Hlt. unfold contents, write. simpl.
  rewrite Nat.add_1_r, seq_S, map_app. simpl. f_equal.
  - apply map_ext_in. intros i Hi%in_seq. unfold read.
    rewrite list_lookup_insert_ne; [done|].
    rewrite Hw, !mod_wrap by lia. repeat case_decide; lia.
  - unfold read. rewrite <- Hw, list_lookup_insert_eq; [done|].
    rewrite Hlen, Hw. by apply Nat.mod_upper_bound, Nat.neq_0_lt_0.
Qed.

Lemma well_formed_write rb x :
  well_formed rb → availableData rb < capacity rb → well_formed (write rb x).
Proof.
  intros (Hc & Hlen & Hr & Hinv) Hlt. split_and!; simpl.
  - done.
  - by rewrite length_insert.
  - done.
  - by apply invariant_write.
Qed.

Lemma invariant_write_all data rb :
  invariant rb → availableData rb + length data ≤ capacity rb →
  invariant (fold_left write data rb)
  ∧ capacity (fold_left write data rb) = capacity rb.
Proof.
  revert rb. induction data as [|x data IH]; intros rb Hinv Hle; simpl in *; [done|].
  destruct (IH (write rb x)) as [? ?].
  - apply invariant_write; [done|lia].
  - simpl. lia.
  - done.
Qed.

Lemma write_all data rb :
  well_formed rb → availableData rb + length data ≤ capacity rb →
  well_formed (fold_left write data rb)
  ∧ contents nan (fold_left write data rb) = contents nan rb ++ data
  ∧ availableData (fold_left write data rb) = availableData rb + length data
  ∧ capacity (fold_left write data rb) = capacity rb.
Proof.
  revert rb. induction data as [|x data IH]; intros rb Hwf Hle; simpl in *.
  - rewrite app_nil_r. split_and!; [done|done|lia|done].
  - destruct (IH (write rb x)) as (Hwf' & Hc & Ha & Hcap).
    + apply well_formed_write; [done|lia].
    + simpl. lia.
    + split_and!; [done| | |done].
      * rewrite Hc, contents_write by (done || lia). by rewrite <- app_assoc.
      * rewrite Ha. simpl. lia.
Qed.

(** *** The growth loop *)

(** Whatever the fuel, the loop only returns states it reached by [grow],
    each time [availableData + len] exceeded the capacity. *)
Lemma invariant_grow_until fuel rb len rb1 :
  invariant rb → grow_until zero nan fuel rb len = Some rb1 →
  invariant rb1 ∧ availableData rb1 = availableData rb
  ∧ availableData rb1 + len ≤ capacity rb1.
Proof.
  revert rb. induction fuel as [|fuel IH]; intros rb Hinv; simpl;
    destruct (decide (capacity rb < availableData rb + len)); try done.
  - intros [= <-]. split_and!; [done|done|lia].
  - intros Hg. destruct (IH _ (proj1 (invariant_grow rb Hinv)) Hg) as (? & ? & ?). done.
  - intros [= <-]. split_and!; [done|done|lia].
Qed.

(** With a positive capacity, [fuel] doublings reach any [len] below
    [capacity * 2 ^ fuel]. *)
Lemma grow_until_spec fuel rb len :
  well_formed rb →
  availableData rb + len < capacity rb * 2 ^ fuel →
  ∃ rb1,
    grow_until zero nan fuel rb len = Some rb1
    ∧ well_formed rb1
    ∧ contents nan rb1 = contents nan rb
    ∧ availableData rb1 = availableData rb
    ∧ availableData rb1 + len ≤ capacity rb1
    ∧ capacity rb ≤ capacity rb1.
Proof.
  revert rb. induction fuel as [|fuel IH]; intros rb Hwf Hfuel; simpl in *.
  - rewrite decide_False by lia. exists rb. split_and!; [done..|lia|lia].
  - destruct (decide (capacity rb < availableData rb + len)).
    + destruct (IH (grow zero nan rb)) as (rb1 & Hg & Hwf1 & Hc & Ha & Hle & Hcap).
      * by apply well_formed_grow.
      * simpl. lia.
      * exists rb1. pose proof Hwf as (_ & _ & _ & [[_ ?] _]).
        rewrite contents_grow in Hc by done. simpl in *.
        split_and!; [done..|lia].
    + exists rb. split_and!; [done..|lia|lia].
Qed.

(** With capacity 0 the loop never ends on a non-empty block. *)
Lemma grow_until_capacity_0 fuel rb len :
  capacity rb = 0 → 0 < availableData rb + len →
  grow_until zero nan fuel rb len = None.
Proof.
  revert rb. induction fuel as [|fuel IH]; intros rb Hc Hpos; simpl;
    rewrite decide_True by lia; [done|].
  apply IH; simpl; lia.
Qed.

(** *** [push] *)

Lemma ring_push_spec rb data :
  well_formed rb →
  ∃ rb',
    push zero nan rb data = Some rb'
    ∧ well_formed rb'
    ∧ contents nan rb' = contents nan rb ++ data
    ∧ availableData rb' = availableData rb + length data
    ∧ capacity rb ≤ capacity rb'.
Proof.
  intros Hwf. unfold push.
  destruct (grow_until_spec (availableData rb + length data) rb (length data))
    as (rb1 & Hg & Hwf1 & Hc & Ha & Hle & Hcap); [done| |].
  { pose proof Hwf as (Hpos & _).
    pose proof (Nat.pow_gt_lin_r 2 (availableData rb + length data)). nia. }
  rewrite Hg. simpl.
  destruct (write_all data rb1) as (Hwf' & Hc' & Ha' & Hcap'); [done..|].
  eexists. split; [done|]. split_and!; [done| | |].
  - by rewrite Hc', Hc.
  - by rewrite Ha', Ha.
  - rewrite Hcap'. done.
Qed.

Lemma invariant_push rb data rb' :
  invariant rb → push zero nan rb data = Some rb' → invariant rb'.
Proof.
  intros Hinv. unfold push.
  destruct (grow_until zero nan _ rb (length data)) as [rb1|] eqn:Hg; [|done].
  simpl. intros [= <-].
  destruct (invariant_grow_until _ _ _ _ Hinv Hg) as (Hinv1 & _ & Hle).
  by apply invariant_write_all.
Qed.

(** *** [pull] *)

(** The copying loop: the read index after [k] iterations. *)
Lemma pull_loop_index (buf : list sample) (c k a r : nat) out :
  (fold_left
     (λ '(out, ri) i, (<[i := read nan buf ri]> out, (ri + 1) `mod` c))
     (seq a k) (out, r)).2
  = if decide (k = 0) then r else (r + k) `mod` c.
Proof.
  induction k as [|k IH]; [done|].
  rewrite seq_S, fold_left_app. simpl.
  destruct (fold_left _ (seq a k) (out, r)) as [out' r'] eqn:Hf. simpl in *.
  rewrite IH. destruct (decide (k = 0)) as [->|Hk].
  - done.
  - rewrite Nat.Div0.add_mod_idemp_l. f_equal. lia.
Qed.

(** The copying loop: what it leaves in the output region. *)
Lemma pull_loop_output (buf : list sample) (c k r : nat) out :
  r < c → k ≤ length out →
  (fold_left
     (λ '(out, ri) i, (<[i := read nan buf ri]> out, (ri + 1) `mod` c))
     (seq 0 k) (out, r)).1
  = map (λ i, read nan buf ((r + i) `mod` c)) (seq 0 k) ++ drop k out.
Proof.
  intros Hr. induction k as [|k IH]; intros Hk; [done|].
  rewrite seq_S, fold_left_app. simpl.
  pose proof (pull_loop_index buf c k 0 r out) as Hidx.
  destruct (fold_left _ (seq 0 k) (out, r)) as [out' r'] eqn:Hf. simpl in *.
  rewrite IH by lia. subst r'.
  rewrite map_app, <- app_assoc. simpl.
  destruct (lookup_lt_is_Some_2 out k) as [y Hy]; [lia|].
  rewrite (drop_S out y k Hy).
  rewrite insert_app_r_alt by (rewrite length_map, length_seq; lia).
  rewrite length_map, length_seq, Nat.sub_diag. simpl.
  do 3 f_equal. destruct (decide (k = 0)) as [->|_]; [|done].
  rewrite Nat.add_0_r, Nat.mod_small; done.
Qed.

(** The padding loop stores [zero] at the indices [a .. a+n-1]. *)
Lemma pad_loop (a n : nat) out :
  a + n ≤ length out →
  fold_left (λ out i, <[i := zero]> out) (seq a n) out
  = take a out ++ replicate n zero ++ drop (a + n) out.
Proof.
  revert out. induction n as [|n IH]; intros out Hle.
  - simpl. by rewrite Nat.add_0_r, take_drop.
  - rewrite seq_S, fold_left_app, IH by lia. simpl.
    rewrite insert_app_r_alt by (rewrite length_take; lia).
    rewrite length_take, Nat.min_l by lia.
    rewrite insert_app_r_alt by (rewrite length_replicate; lia).
    rewrite length_replicate.
    replace (a + n - a - n) with 0 by lia.
    destruct (lookup_lt_is_Some_2 out (a + n)) as [y Hy]; [lia|].
    rewrite (drop_S out y (a + n) Hy). simpl.
    replace (a + S n) with (S (a + n)) by lia.
    change (zero :: replicate n zero ++ ?l) with ((zero :: replicate n zero) ++ l).
    rewrite replicate_cons_app, <- app_assoc. done.
Qed.

Lemma pull_spec rb out :
  well_formed rb →
  ∃ rb',
    pull zero nan rb out
    = (rb',
       take (length out) (contents nan rb)
         ++ replicate (length out - availableData rb) zero,
       bool_decide (0 < length out `min` availableData rb))
    ∧ well_formed rb'
    ∧ contents nan rb' = drop (length out) (contents nan rb)
    ∧ availableData rb' = availableData rb - length out `min` availableData rb
    ∧ capacity rb' = capacity rb.
Proof.
  intros (Hc & Hlen & Hr & [[_ Hle] Hw]). unfold pull.
  set (k := length out `min` availableData rb).
  pose proof (pull_loop_index (buffer rb) (capacity rb) k 0 (readIndex rb) out) as Hidx.
  pose proof (pull_loop_output (buffer rb) (capacity rb) k (readIndex rb) out Hr) as Hout.
  destruct (fold_left _ (seq 0 k) (out, readIndex rb)) as [out1 r1] eqn:Hf.
  simpl in Hidx, Hout. rewrite Hout by lia. clear Hout Hf out1.
  eexists. split; [|split_and!].
  - f_equal. f_equal.
    rewrite pad_loop by (rewrite length_app, length_map, length_seq, length_drop; lia).
    rewrite take_app_length' by (by rewrite length_map, length_seq).
    rewrite drop_ge by (rewrite length_app, length_map, length_seq, length_drop; lia).
    rewrite app_nil_r. f_equal.
    + unfold contents.
      change (map ?f ?l) with (f <$> l). rewrite <- fmap_take, take_seq. done.
    + f_equal. lia.
  - assert (r1 < capacity rb) as Hr1.
    { subst r1. case_decide; [done|]. by apply Nat.mod_upper_bound, Nat.neq_0_lt_0. }
    unfold well_formed, invariant. simpl. split_and!; [done|done|done|lia|lia|].
    subst r1. case_decide as Hk.
    + rewrite Hk, Nat.sub_0_r. done.
    + rewrite Nat.Div0.add_mod_idemp_l, Hw. f_equal. lia.
  - unfold contents. simpl. subst r1.
    change (map ?f ?l) with (f <$> l). rewrite <- fmap_drop, drop_seq. simpl.
    destruct (decide (length out ≤ availableData rb)) as [Hlo|Hlo].
    + replace k with (length out) by lia.
      apply (list_eq_same_length _ _ (availableData rb - length out));
        [by rewrite length_fmap, length_seq..|].
      intros i x y Hi. rewrite !list_lookup_fmap, !lookup_seq_lt by done.
      simpl. intros [= <-] [= <-]. f_equal.
      case_decide as Hk.
      * by rewrite Hk.
      * rewrite Nat.Div0.add_mod_idemp_l. f_equal. lia.
    + replace (availableData rb - k) with 0 by lia.
      replace (availableData rb - length out) with 0 by lia. done.
  - simpl. done.
  - simpl. done.
Qed.

Lemma invariant_pull rb out : invariant rb → invariant (pull zero nan rb out).1.1.
Proof.
  intros [[_ Hle] Hw]. unfold pull.
  set (k := length out `min` availableData rb).
  pose proof (pull_loop_index (buffer rb) (capacity rb) k 0 (readIndex rb) out) as Hidx.
  destruct (fold_left _ (seq 0 k) (out, readIndex rb)) as [out1 r1] eqn:Hf.
  simpl in *. subst r1. split; simpl; [lia|].
  case_decide as Hk.
  - rewrite Hk, Nat.sub_0_r. done.
  - rewrite Nat.Div0.add_mod_idemp_l, Hw. f_equal. lia.
Qed.

Lemma ring_push_total rb data :
  0 < capacity rb → is_Some (push zero nan rb data).
Proof.
  intros Hc. unfold push.
  assert (∀ fuel rb len,
            0 < capacity rb → availableData rb + len < capacity rb * 2 ^ fuel →
            is_Some (grow_until zero nan fuel rb len)) as Htotal.
  { clear. induction fuel as [|fuel IH]; intros rb len Hc Hfuel; simpl in *.
    - rewrite decide_False by lia. by eexists.
    - destruct (decide _); [|by eexists]. apply IH; simpl; lia. }
  destruct (Htotal (availableData rb + length data) rb (length data)) as [rb1 ->].
  - done.
  - pose proof (Nat.pow_gt_lin_r 2 (availableData rb + length data)). nia.
  - by eexists.
Qed.

Lemma well_formed_new (c : nat) : 0 < c → well_formed (new zero c).
Proof.
  intros Hc. unfold well_formed, invariant, new. simpl.
  rewrite length_replicate, Nat.Div0.mod_0_l. split_and!; (done || lia).
Qed.

Lemma length_contents rb : length (contents nan rb) = availableData rb.
Proof. unfold contents. by rewrite length_map, length_seq. Qed.

(** *** Interleavings *)

Lemma run_app rb (ops1 ops2 : list (op sample)) :
  run zero nan rb (ops1 ++ ops2)
  = '(rb1, outs1) ← run zero nan rb ops1;
    '(rb2, outs2) ← run zero nan rb1 ops2;
    Some (rb2, outs1 ++ outs2).
Proof.
  revert rb. induction ops1 as [|[data|out] ops1 IH]; intros rb; simpl.
  - destruct (run zero nan rb ops2) as [[rb2 outs2]|]; done.
  - destruct (push zero nan rb data) as [rb1|]; simpl; [apply IH|done].
  - destruct (pull zero nan rb out) as [[rb1 out'] flag]. rewrite IH.
    destruct (run zero nan rb1 ops1) as [[rb2 outs1]|]; simpl; [|done].
    destruct (run zero nan rb2 ops2) as [[rb3 outs2]|]; done.
Qed.

(** Every interleaving returns, and what was in the buffer followed by
    what was pushed is what the pulls took followed by what is left. *)
Lemma run_spec rb (ops : list (op sample)) :
  well_formed rb →
  ∃ rb' outs,
    run zero nan rb ops = Some (rb', outs)
    ∧ well_formed rb'
    ∧ contents nan rb ++ pushed ops = real_samples outs ++ contents nan rb'
    ∧ capacity rb ≤ capacity rb'.
Proof.
  revert rb. induction ops as [|[data|out] ops IH]; intros rb Hwf; simpl.
  - exists rb, []. simpl. rewrite app_nil_r. done.
  - destruct (ring_push_spec rb data Hwf) as (rb1 & -> & Hwf1 & Hc & _ & Hcap). simpl.
    destruct (IH rb1 Hwf1) as (rb' & outs & -> & Hwf' & Hrel & Hcap').
    exists rb', outs. split_and!; [done|done| |lia].
    by rewrite app_assoc, <- Hc.
  - destruct (pull_spec rb out Hwf) as (rb1 & -> & Hwf1 & Hc & _ & Hcap).
    destruct (IH rb1 Hwf1) as (rb' & outs & -> & Hwf' & Hrel & Hcap'). simpl.
    eexists _, _. split_and!; [done|done| |lia].
    simpl. rewrite <- app_assoc, <- Hrel, Hc, app_assoc. f_equal. symmetry.
    rewrite take_app_length' by (rewrite length_take, length_contents; lia).
    by rewrite take_drop.
Qed.

Lemma run_pushes rb (blocks : list (list sample)) :
  well_formed rb →
  ∃ rb1,
    run zero nan rb (map Push blocks) = Some (rb1, [])
    ∧ well_formed rb1
    ∧ contents nan rb1 = contents nan rb ++ concat blocks
    ∧ capacity rb ≤ capacity rb1.
Proof.
  revert rb. induction blocks as [|data blocks IH]; intros rb Hwf; simpl.
  - exists rb. by rewrite app_nil_r.
  - destruct (ring_push_spec rb data Hwf) as (rb1 & -> & Hwf1 & Hc & _ & Hcap). simpl.
    destruct (IH rb1 Hwf1) as (rb2 & -> & Hwf2 & Hc2 & Hcap2).
    exists rb2. split_and!; [done|done| |lia].
    by rewrite Hc2, Hc, app_assoc.
Qed.

(** C5.  Ring buffer FIFO: on a buffer constructed with a positive
    capacity, every interleaving of [push] and [pull] calls returns, and
    the samples the pulls took from the buffer (the zero padding of a
    starved pull left out), followed by what is still unread, are the
    pushed samples in the order they were pushed; so the pulled samples
    are a prefix of the pushed ones, whether or not a pull starved.
    Growth preserves order: pushing any blocks, also more than the initial
    capacity holds, and then pulling as many samples as were pushed gives
    back their concatenation and empties the buffer, whose capacity has
    grown to hold them. *)
Theorem ring_buffer_fifo (initialCapacity : nat) :
  0 < initialCapacity →
  (∀ ops : list (op sample),
     ∃ rb outs,
       run zero nan (new zero initialCapacity) ops = Some (rb, outs)
       ∧ real_samples outs ++ contents nan rb = pushed ops)
  ∧ (∀ (blocks : list (list sample)) out,
       length out = length (concat blocks) →
       ∃ rb,
         run zero nan (new zero initialCapacity) (map Push blocks ++ [Pull out])
         = Some (rb, [(concat blocks, length out)])
         ∧ available rb = 0
         ∧ length (concat blocks) ≤ capacity rb).
Proof.
  intros Hc. pose proof (well_formed_new initialCapacity Hc) as Hwf. split.
  - intros ops. destruct (run_spec _ ops Hwf) as (rb & outs & Hrun & _ & Hrel & _).
    exists rb, outs. split; [done|]. by rewrite <- Hrel.
  - intros blocks out Hlen.
    destruct (run_pushes _ blocks Hwf) as (rb1 & Hrun & Hwf1 & Hc1 & Hcap).
    change (contents nan (new zero initialCapacity)) with (@nil sample) in Hc1.
    simpl in Hc1.
    destruct (pull_spec rb1 out Hwf1) as (rb2 & Hpull & Hwf2 & Hc2 & Ha2 & Hcap2).
    pose proof (length_contents rb1) as Hav. rewrite Hc1 in Hav.
    exists rb2. rewrite run_app, Hrun. simpl. rewrite Hpull. simpl.
    split_and!.
    + rewrite Hc1, Hlen, <- Hav, Nat.sub_diag, take_ge, Nat.min_id by done.
      simpl. by rewrite app_nil_r.
    + unfold available. lia.
    + rewrite Hcap2. destruct Hwf1 as (_ & _ & _ & [[_ ?] _]). lia.
Qed.

(** C6.  The ring buffer invariant [0 <= availableData <= capacity] and
    [writeIndex = (readIndex + availableData) mod capacity] holds of a
    newly constructed buffer and is kept by [push] (which returns whenever
    the capacity is positive), by the [grow] inside it, by [pull] and by
    [clear]; [available] only reads the state.  [grow] doubles the
    capacity, resets [readIndex] to 0 and keeps [availableData]. *)
Theorem invariant_preserved :
  (∀ initialCapacity, invariant (new zero initialCapacity))
  ∧ (∀ rb data rb',
       invariant rb → push zero nan rb data = Some rb' → invariant rb')
  ∧ (∀ rb data, 0 < capacity rb → is_Some (push zero nan rb data))
  ∧ (∀ rb out, invariant rb → invariant (pull zero nan rb out).1.1)
  ∧ (∀ rb, available rb = availableData rb)
  ∧ (∀ rb, invariant rb → invariant (clear rb))
  ∧ (∀ rb,
       invariant rb →
       invariant (grow zero nan rb)
       ∧ readIndex (grow zero nan rb) = 0
       ∧ availableData (grow zero nan rb) = availableData rb
       ∧ capacity (grow zero nan rb) = capacity rb * 2).
Proof.
  split_and!.
  - intros c. unfold invariant, new. simpl. rewrite Nat.Div0.mod_0_l. lia.
  - apply invariant_push.
  - apply ring_push_total.
  - apply invariant_pull.
  - done.
  - intros rb _. unfold invariant, clear. simpl. rewrite Nat.Div0.mod_0_l. lia.
  - apply invariant_grow.
Qed.

(** C9.  Starvation yields silence: [pull] on a buffer with nothing
    available stores [zero] at every position of the output region,
    whatever its length, returns [false], and leaves the buffer as it
    was.  [pull] is a total function: it always returns. *)
Theorem pull_starved rb out :
  available rb = 0 →
  pull zero nan rb out = (rb, replicate (length out) zero, false).
Proof.
  unfold available, pull. intros Hav. rewrite Hav.
  rewrite Nat.min_0_r, !Nat.sub_0_r. simpl.
  rewrite pad_loop by (simpl; lia). simpl.
  rewrite drop_all, app_nil_r. destruct rb; simpl in *. by subst.
Qed.

End Facts.

Lemma ring_buffer_fifo_witness :
  (0 < 2)%nat
  ∧ (∀ ops : list (op nat),
       ∃ rb outs,
         run 0%nat 0%nat (new 0%nat 2) ops = Some (rb, outs)
         ∧ real_samples outs ++ contents 0%nat rb = pushed ops)
  ∧ (∀ (blocks : list (list nat)) out,
       length out = length (concat blocks) →
       ∃ rb,
         run 0%nat 0%nat (new 0%nat 2) (map Push blocks ++ [Pull out])
         = Some (rb, [(concat blocks, length out)])
         ∧ available rb = 0%nat
         ∧ (length (concat blocks) ≤ capacity rb)%nat).
Proof.
  assert (0 < 2)%nat as H by lia.
  split; [exact H|]. exact (ring_buffer_fifo 0%nat 0%nat 2 H).
Defined.

(** Five samples through a buffer of capacity 2, with a starved pull in
    the middle. *)
Example fifo_through_growth :
  run 0%nat 9%nat (new 0%nat 2)
    [Push [1; 2; 3]%nat; Pull [7; 7]%nat; Pull [7; 7]%nat; Push [4; 5]%nat; Pull [7; 7; 7]%nat]
  = Some (mk 4 [5; 2; 3; 4]%nat 1 1 0,
          [([1; 2], 2); ([3; 0], 1); ([4; 5; 0], 2)]%nat).
Proof. vm_compute. reflexivity. Qed.

Lemma pull_starved_witness :
  available (new 0%nat 4) = 0%nat
  ∧ pull 0%nat 0%nat (new 0%nat 4) [7; 8; 9]%nat
    = (new 0%nat 4, replicate (length [7; 8; 9]%nat) 0%nat, false).
Proof.
  split; [reflexivity|].
  apply (pull_starved 0%nat 0%nat (new 0%nat 4) [7; 8; 9]%nat). reflexivity.
Defined.

End RingBufferFacts.

(** ** Playback processor *)

Module ProcessorFacts.
Import AudioPlaybackProcessor.
Section Facts.
Context {sample : Type} (zero nan : sample).
Implicit Types (p : t sample) (m : message sample) (e : event sample).

Local Open Scope nat_scope.

Lemma initialCapacity_pos : 0 < initialCapacity.
Proof. unfold initialCapacity. lia. Qed.

(** A control message posts nothing; it can only set the completion flag
    when it is a "streamComplete" message. *)
Lemma onmessage_spec p m :
  RingBuffer.well_formed (ringBuffer p) →
  ∃ p',
    onmessage zero nan p m = Some p'
    ∧ RingBuffer.well_formed (ringBuffer p')
    ∧ pending_completion p'
      ≤ pending_completion p + (if is_streamComplete (Receive m) then 1 else 0).
Proof.
  intros Hwf. unfold onmessage, pending_completion. simpl.
  destruct (decide (type m = "audio")) as [Ha|Ha].
  - destruct (RingBufferFacts.ring_push_spec zero nan (ringBuffer p) (samples m) Hwf)
      as (rb & -> & Hwf' & _). simpl.
    eexists. split; [done|]. split; [done|]. simpl. lia.
  - destruct (decide (type m = "clear")) as [Hc|Hc].
    { eexists. split; [done|]. simpl. split; [|lia].
      destruct Hwf as (? & ? & ? & _).
      unfold RingBuffer.well_formed, RingBuffer.invariant, RingBuffer.clear. simpl.
      rewrite Nat.Div0.mod_0_l. split_and!; (done || lia). }
    destruct (decide (type m = "streamComplete")) as [Hs|Hs].
    { eexists. split; [done|]. simpl. split; [done|].
      rewrite bool_decide_eq_true_2 by done. destruct (streamComplete p); lia. }
    destruct (decide (type m = "stop")) as [Ht|Ht].
    { eexists. split; [done|]. simpl. split; [done|]. lia. }
    eexists. split; [done|]. split; [done|]. lia.
Qed.

(** A render step posts "ended" only from the playing state, with the
    completion flag set and nothing left in the ring buffer after its
    pull; it then leaves both flags cleared. *)
Lemma process_spec p outputs p' outputs' posted :
  process zero nan p outputs = (p', outputs', posted) →
  (posted = [] ∧ streamComplete p' = streamComplete p)
  ∨ (posted = [Ended]
     ∧ isPlaying p = true ∧ streamComplete p = true
     ∧ RingBuffer.available (ringBuffer p') = 0
     ∧ (∃ channel channels rest,
          outputs = (channel :: channels) :: rest
          ∧ ringBuffer p' = (RingBuffer.pull zero nan (ringBuffer p) channel).1.1)
     ∧ isPlaying p' = false ∧ streamComplete p' = false).
Proof.
  unfold process. destruct outputs as [|[|channel channels] rest].
  - intros [= <- <- <-]. by left.
  - intros [= <- <- <-]. by left.
  - destruct (isPlaying p) eqn:Hplay.
    + destruct (RingBuffer.pull zero nan (ringBuffer p) channel) as [[rb ch] flag] eqn:Hpull.
      destruct (streamComplete p) eqn:Hsc; simpl.
      * destruct (bool_decide (RingBuffer.available rb = 0)) eqn:Hav.
        -- intros [= <- <- <-]. right. simpl.
           apply bool_decide_eq_true_1 in Hav.
           split_and!; try done. exists channel, channels, rest. by rewrite Hpull.
        -- intros [= <- <- <-]. by left.
      * intros [= <- <- <-]. by left.
    + intros [= <- <- <-]. by left.
Qed.

Lemma process_well_formed p outputs :
  RingBuffer.well_formed (ringBuffer p) →
  RingBuffer.well_formed (ringBuffer (process zero nan p outputs).1.1).
Proof.
  intros Hwf. unfold process. destruct outputs as [|[|channel channels] rest]; try done.
  destruct (isPlaying p); [|done].
  destruct (RingBufferFacts.pull_spec zero nan (ringBuffer p) channel Hwf)
    as (rb & -> & Hwf' & _).
  by destruct (_ && _).
Qed.

(** Executions return, and the "ended" messages posted so far, plus one
    for a completion still pending, never outnumber the "streamComplete"
    messages received. *)
Lemma exec_spec p (es : list (event sample)) :
  RingBuffer.well_formed (ringBuffer p) →
  ∃ p' outs,
    exec zero nan p es = Some (p', outs)
    ∧ length (concat outs) + pending_completion p'
      ≤ completions es + pending_completion p.
Proof.
  revert p. induction es as [|e es IH]; intros p Hwf.
  - exists p, []. simpl. split; [done|]. unfold completions. simpl. lia.
  - destruct e as [m|outputs]; simpl.
    + destruct (onmessage_spec p m Hwf) as (p1 & -> & Hwf1 & Hle). simpl.
      destruct (IH p1 Hwf1) as (p2 & outs & -> & Hcount). simpl.
      eexists _, _. split; [done|]. simpl in *. unfold completions in *. simpl.
      destruct (bool_decide (type m = "streamComplete")); simpl; lia.
    + pose proof (process_well_formed p outputs Hwf) as Hwf1.
      destruct (process zero nan p outputs) as [[p1 outputs'] posted] eqn:Hproc.
      simpl in Hwf1. simpl.
      destruct (IH p1 Hwf1) as (p2 & outs & -> & Hcount). simpl.
      eexists _, _. split; [done|]. simpl. rewrite length_app.
      unfold completions in *. simpl.
      destruct (process_spec _ _ _ _ _ Hproc)
        as [[-> Hsame]|(-> & _ & Hsc & _ & _ & _ & Hsc')];
        unfold pending_completion in *; simpl.
      * rewrite <- Hsame. lia.
      * rewrite Hsc. rewrite Hsc' in Hcount. lia.
Qed.

(** C4.  Completion ordering.  A control message never posts "ended", so
    marking the stream complete while samples are still buffered posts
    nothing in that step.  A render step posts at most one "ended", and
    only when the processor was playing with the completion flag set and
    the ring buffer reports nothing available after that step's pull;
    both flags are then cleared.  In every execution from the constructed
    processor each step returns, and the "ended" messages posted, plus one
    for a completion still pending, never outnumber the "streamComplete"
    messages received: at most one "ended" per completion. *)
Theorem ended_only_after_drain :
  (∀ p m p' posted,
     step zero nan p (Receive m) = Some (p', posted) → posted = [])
  ∧ (∀ p outputs p' posted,
       step zero nan p (Render outputs) = Some (p', posted) →
       posted = []
       ∨ (posted = [Ended]
          ∧ isPlaying p = true ∧ streamComplete p = true
          ∧ RingBuffer.available (ringBuffer p') = 0
          ∧ (∃ channel channels rest,
               outputs = (channel :: channels) :: rest
               ∧ ringBuffer p' = (RingBuffer.pull zero nan (ringBuffer p) channel).1.1)
          ∧ isPlaying p' = false ∧ streamComplete p' = false))
  ∧ (∀ es : list (event sample),
       ∃ p outs,
         exec zero nan (new zero) es = Some (p, outs)
         ∧ length (concat outs) + pending_completion p ≤ completions es).
Proof.
  split_and!.
  - intros p m p' posted. simpl.
    destruct (onmessage zero nan p m); simpl; [|done]. by intros [= _ <-].
  - intros p outputs p' posted. simpl.
    destruct (process zero nan p outputs) as [[p1 outputs'] posted1] eqn:Hproc.
    intros [= <- <-].
    destruct (process_spec _ _ _ _ _ Hproc) as [[-> _]|H]; [by left|by right].
  - intros es. destruct (exec_spec (new zero) es) as (p & outs & Hexec & Hcount).
    + apply RingBufferFacts.well_formed_new, initialCapacity_pos.
    + exists p, outs. split; [done|]. unfold pending_completion in Hcount at 2.
      simpl in Hcount. lia.
Qed.

End Facts.

(** Three samples, then "streamComplete", then render quanta of two
    frames: the first render leaves one sample and posts nothing, the
    second drains the buffer and posts "ended", the third is idle. *)
Example completion_waits_for_drain :
  exec 0%nat 0%nat (mk (RingBuffer.new 0%nat 4) false false)
    [Receive (Message "audio" [1; 2; 3]%nat); Receive (Message "streamComplete" []);
     Render [[[9; 9]%nat]]; Render [[[9; 9]%nat]]; Render [[[9; 9]%nat]]]
  = Some (mk (RingBuffer.mk 4 [1; 2; 3; 0]%nat 3 3 0) false false,
          [[]; []; []; [Ended]; []]).
Proof. vm_compute. reflexivity. Qed.

End ProcessorFacts.

(** ** PCM decoder *)

Module DecoderFacts.

Lemma Int16Array_view_spec (n : nat) (bytes : list Z) :
  length bytes = (2 * n)%nat →
  length (Int16Array_view bytes) = n
  ∧ ∀ i, (i < n)%nat →
      ∃ lo hi,
        bytes !! (2 * i)%nat = Some lo
        ∧ bytes !! (2 * i + 1)%nat = Some hi
        ∧ Int16Array_view bytes !! i = Some (int16 (lo + 256 * hi)).
Proof.
  revert bytes. induction n as [|n IH]; intros bytes Hlen.
  - destruct bytes; [|done]. split; [done|]. intros i Hi. lia.
  - destruct bytes as [|lo [|hi rest]]; simpl in Hlen; try lia.
    destruct (IH rest) as [Hl Hi]; [lia|]. simpl. split; [by rewrite Hl|].
    intros [|i] Hlt.
    + exists lo, hi. done.
    + destruct (Hi i) as (lo' & hi' & H1 & H2 & H3); [lia|].
      exists lo', hi'. split_and!.
      * replace (S i + (S i + 0))%nat with (S (S (2 * i))) by lia. exact H1.
      * replace (S i + (S i + 0) + 1)%nat with (S (S (2 * i + 1))) by lia. exact H2.
      * exact H3.
Qed.

(** [int16] reads a 16-bit pattern as the signed integer congruent to it. *)
Lemma int16_spec (u : Z) :
  0 ≤ u < 65536 → -32768 ≤ int16 u < 32768 ∧ int16 u `mod` 65536 = u.
Proof.
  intros Hu. unfold int16. case_decide.
  - split; [lia|]. apply Z.mod_small. lia.
  - split; [lia|]. replace (u - 65536) with (u + (-1) * 65536) by lia.
    rewrite Z.mod_add by done. apply Z.mod_small. lia.
Qed.

Lemma byte_range (c : ascii) : 0 ≤ Z.of_N (N_of_ascii c) < 256.
Proof. pose proof (N_ascii_bounded c). lia. Qed.

(** The sample is the quotient by 32768, as a rational. *)
Lemma float32_div_32768_spec (v : Z) :
  Qeq (float32_div_32768 v) (inject_Z v / inject_Z 32768).
Proof. unfold float32_div_32768, Qeq, Qdiv, Qmult, Qinv, inject_Z. simpl. lia. Qed.

(** C8 (as amended).  [decodePCM16ToFloat32] throws exactly when [atob]
    rejects the input as malformed base64 ([InvalidCharacterError]) or the
    decoded byte count is odd ([RangeError] from the [Int16Array] view).
    On every other input, that is on well-formed base64 of an even number
    of bytes, it returns an array with one element per byte pair, each
    the little-endian signed 16-bit value of its pair divided by 32768. *)
Theorem decodePCM16ToFloat32_spec (base64Audio : string) :
  match Base64.atob base64Audio with
  | None => decodePCM16ToFloat32 base64Audio = Throw InvalidCharacterError
  | Some raw =>
      let bytes := map (λ c, Z.of_N (N_of_ascii c)) (list_ascii_of_string raw) in
      if Nat.even (length bytes) then
        ∃ out,
          decodePCM16ToFloat32 base64Audio = Ok out
          ∧ length bytes = (2 * length out)%nat
          ∧ ∀ i, (i < length out)%nat →
              ∃ lo hi v q,
                bytes !! (2 * i)%nat = Some lo
                ∧ bytes !! (2 * i + 1)%nat = Some hi
                ∧ -32768 ≤ v < 32768
                ∧ v `mod` 65536 = lo + 256 * hi
                ∧ out !! i = Some q
                ∧ Qeq q (inject_Z v / inject_Z 32768)
      else decodePCM16ToFloat32 base64Audio = Throw RangeError
  end.
Proof.
  unfold decodePCM16ToFloat32.
  destruct (Base64.atob base64Audio) as [raw|]; [|done].
  cbv zeta. set (bytes := map _ (list_ascii_of_string raw)).
  destruct (Nat.even (length bytes)) eqn:Hev.
  - apply Nat.even_spec in Hev as [n Hn].
    assert (length bytes `mod` 2 = 0)%nat as Hmod0.
    { rewrite Hn, Nat.mul_comm. apply Nat.Div0.mod_mul. }
    rewrite decide_True by exact Hmod0.
    destruct (Int16Array_view_spec n bytes Hn) as [Hlen Hview].
    eexists. split; [done|]. rewrite length_map, Hlen. split; [done|].
    intros i Hi. destruct (Hview i Hi) as (lo & hi & Hlo & Hhi & Hv).
    assert (0 ≤ lo < 256 ∧ 0 ≤ hi < 256) as [Hlo' Hhi'].
    { unfold bytes in Hlo, Hhi.
      change (map ?f ?l) with (f <$> l) in Hlo, Hhi.
      rewrite list_lookup_fmap in Hlo, Hhi.
      destruct (list_ascii_of_string raw !! (2 * i)%nat) as [c1|]; [|done].
      destruct (list_ascii_of_string raw !! (2 * i + 1)%nat) as [c2|]; [|done].
      injection Hlo as <-. injection Hhi as <-. split; apply byte_range. }
    destruct (int16_spec (lo + 256 * hi)) as [Hrange Hmod]; [lia|].
    exists lo, hi, (int16 (lo + 256 * hi)), (float32_div_32768 (int16 (lo + 256 * hi))).
    split; [exact Hlo|]. split; [exact Hhi|]. split; [exact Hrange|].
    split; [exact Hmod|]. split; [|apply float32_div_32768_spec].
    change (map ?f ?l) with (f <$> l). by rewrite list_lookup_fmap, Hv.
  - rewrite decide_False; [done|].
    intros Hmod. apply Nat.Div0.mod_divides in Hmod as [k Hk].
    rewrite Hk, Nat.even_mul in Hev. done.
Qed.

(** The three 16-bit patterns [ffff 007f 8000]. *)
Example decode_extremes :
  decodePCM16ToFloat32 "//9/AACA" = Ok [(-1 # 32768); (127 # 32768); (-32768 # 32768)]%Q.
Proof. vm_compute. reflexivity. Qed.

(** C8, counterexample.  ["AA=="] is the base64 encoding of the single
    byte 0: [atob] accepts it, and the decoder throws [RangeError]. *)
Lemma odd_length_rejected :
  Base64.atob "AA==" = Some (String "000"%char EmptyString)
  ∧ decodePCM16ToFloat32 "AA==" = Throw RangeError.
Proof. split; vm_compute; reflexivity. Qed.

(** What the decoder throws is never a [SyntaxError]. *)
Lemma decode_throws (base64Audio : string) (e : exn) :
  decodePCM16ToFloat32 base64Audio = Throw e →
  (e = InvalidCharacterError ∨ e = RangeError) ∧ instanceof_SyntaxError e = false.
Proof.
  unfold decodePCM16ToFloat32. destruct (Base64.atob base64Audio); [|intros [= <-]; auto].
  case_decide; [done|]. intros [= <-]. auto.
Qed.

End DecoderFacts.

(** ** Playback hook *)

Module AudioPlaybackFacts.
Import AudioPlayback.






Lemma post_chunks_all (posted : list message) (ready : list string)
    (blocks : list (list Q)) :
  Forall2 (λ chunk block, decodePCM16ToFloat32 chunk = Ok block) ready blocks →
  post_chunks posted ready = (posted ++ (Message "audio" <$> blocks), None).
Proof.
  intros Hfa. revert posted.
  induction Hfa as [|chunk block ready blocks Hdec _ IH]; intros posted; simpl.
  - by rewrite app_nil_r.
  - rewrite Hdec, IH, <- app_assoc. done.
Qed.




(** The end-to-end scenario of the specification: the fragment with
    [seq = 1] is held back until [seq = 0] has arrived. *)
Example sequenced_1_then_0 :
  sequenced_calls (init new) [(1, "AAA="); (0, "BBB=")]
  = Some (mk playing true (SequenceBuffer.mk ∅ 2)
            [Message "audio" [(4100 # 32768)%Q]; Message "audio" [(0 # 32768)%Q]],
          [None; None]).
Proof. vm_compute. reflexivity. Qed.

End AudioPlaybackFacts.

(** ** Stream orchestrator *)

Module VoiceStreamFacts.
Import VoiceStream.

(** The conversion to a string throws nothing but [TypeError]. *)
Lemma json_ToString_throws : ∀ (j : json) (e : exn),
  json_ToString j = Throw e → e = TypeError.
Proof.
  fix IH 1. intros [| [|] |n|s|items|fields] e; simpl; try discriminate.
  - assert (∀ e',
      (fix elements (items : list json) : result (list string) :=
         match items with
         | [] => Ok []
         | x :: rest =>
             match match x with JNull => Ok "" | _ => json_ToString x end with
             | Throw e => Throw e
             | Ok part =>
                 match elements rest with
                 | Throw e => Throw e
                 | Ok parts => Ok (part :: parts)
                 end
             end
         end) items = Throw e' → e' = TypeError) as Hel.
    { induction items as [|x rest IHrest]; intros e'; [discriminate|].
      pose proof (IH x) as Hx.
      destruct x; simpl in *;
        repeat match goal with
               | |- context [match ?t with Ok _ => _ | Throw _ => _ end] =>
                   destruct t eqn:?
               end;
        intros; simplify_eq; eauto. }
    destruct ((fix elements (items : list json) : result (list string) := _) items)
      eqn:E; [discriminate|]. intros [= <-]. by apply Hel.
  - destruct (field fields "toString"); [by intros [= <-]|discriminate].
Qed.

Lemma ToString_throws (v : jsval) (e : exn) : ToString v = Throw e → e = TypeError.
Proof. destruct v; [apply json_ToString_throws|discriminate]. Qed.

Lemma new_Error_not_SyntaxError (v : jsval) :
  instanceof_SyntaxError (new_Error v) = false.
Proof.
  destruct v as [j|]; [|done]. simpl.
  destruct (json_ToString j) as [message|e] eqn:E; [done|].
  by rewrite (json_ToString_throws _ _ E).
Qed.

(** What makes [decodePCM16ToFloat32] throw on a value: the conversion
    of the value, the alphabet or the byte count. *)
Lemma decode_value_throws (v : jsval) (e : exn) :
  decode_value v = Throw e →
  (e = TypeError ∨ e = InvalidCharacterError ∨ e = RangeError)
  ∧ instanceof_SyntaxError e = false.
Proof.
  unfold decode_value. destruct (ToString v) as [text|e'] eqn:E.
  - intros Hdec. destruct (DecoderFacts.decode_throws _ _ Hdec) as [He Hs].
    split; [|done]. destruct He; auto.
  - intros [= <-]. rewrite (ToString_throws _ _ E). auto.
Qed.

Lemma process_lines_app callbacks st (pre post : list line) :
  process_lines callbacks st (pre ++ post)
  = let '(st1, calls1) := process_lines callbacks st pre in
    let '(st2, calls2) := process_lines callbacks st1 post in
    (st2, calls1 ++ calls2).
Proof.
  revert st. induction pre as [|l pre IH]; intros st; simpl.
  - by destruct (process_lines callbacks st post).
  - destruct (handle_line callbacks st l) as [st1 calls1]. rewrite IH.
    destruct (process_lines callbacks st1 pre) as [st2 calls2].
    destruct (process_lines callbacks st2 post) as [st3 calls3].
    by rewrite app_assoc.
Qed.

(** A record of a given type is an object with that [type] property. *)
Lemma has_type_inv ty event :
  has_type ty event →
  ∃ fields, event = JObj fields ∧ field fields "type" = Some (JStr ty).
Proof.
  unfold has_type, get. destruct event; try done. intros [= H]. eauto.
Qed.

(** An [error] record: the callback is invoked with the record's error,
    nothing else changes, and the loop goes on to the next line. *)
Lemma handle_error_record callbacks st fields :
  field fields "type" = Some (JStr "error") →
  handle_line callbacks st (Data (Some (JObj fields)))
  = (st, optional_call (onError callbacks) (OnError (new_Error (field fields "error")))).
Proof.
  intros Hty. unfold handle_line, dispatch, prop, get. rewrite Hty.
  repeat (rewrite decide_False by done). rewrite decide_True by done.
  by rewrite new_Error_not_SyntaxError.
Qed.

(** An [audio] record whose payload does not decode, with the worklet
    set up: the exception reaches the callback and nothing else changes. *)
Lemma pushAudio_value_spec (h : AudioPlayback.t) (data : jsval) :
  pushAudio_value h data
  = if AudioPlayback.worklet h then
      match decode_value data with
      | Ok samples =>
          (AudioPlayback.mk AudioPlayback.playing true (AudioPlayback.seqBuffer h)
             (AudioPlayback.posted h ++ [AudioPlaybackProcessor.Message "audio" samples]),
           None)
      | Throw e => (h, Some e)
      end
    else (h, None).
Proof.
  unfold pushAudio_value, decode_value, AudioPlayback.pushAudio.
  destruct (AudioPlayback.worklet h) eqn:Hw; simpl; [|done].
  destruct (ToString data) as [text|e]; [|done].
  by destruct (decodePCM16ToFloat32 text).
Qed.

Lemma handle_undecodable_audio callbacks st fields e :
  field fields "type" = Some (JStr "audio") →
  AudioPlayback.worklet (playback st) = true →
  decode_value (field fields "data") = Throw e →
  handle_line callbacks st (Data (Some (JObj fields)))
  = (st, optional_call (onError callbacks) (OnError e)).
Proof.
  intros Hty Hw Hdec. unfold handle_line, dispatch, prop, get. rewrite Hty.
  repeat (rewrite decide_False by done). rewrite decide_True by done.
  rewrite pushAudio_value_spec, Hw, Hdec.
  destruct (decode_value_throws _ _ Hdec) as [_ ->]. by destruct st.
Qed.

Lemma if_nil {B} (b : bool) : (if b then @nil B else []) = [].
Proof. by destruct b. Qed.

Local Ltac unchanged := simpl; rewrite ?if_nil, ?app_nil_r; done.

(** Nothing in the loop unsets the worklet or touches the sequence buffer;
    only a decodable [audio] record adds a sample block. *)
Lemma handle_line_playback callbacks st l :
  let st' := (handle_line callbacks st l).1 in
  AudioPlayback.worklet (playback st') = AudioPlayback.worklet (playback st)
  ∧ AudioPlayback.seqBuffer (playback st') = AudioPlayback.seqBuffer (playback st)
  ∧ AudioPlayback.audio_blocks (AudioPlayback.posted (playback st'))
    = AudioPlayback.audio_blocks (AudioPlayback.posted (playback st))
      ++ (if AudioPlayback.worklet (playback st)
          then option_list (arrival_block l) else []).
Proof.
  destruct l as [|[event|]]; [unchanged| |unchanged].
  unfold arrival_block, fragment, handle_line, dispatch, prop, get.
  destruct event as [| | | | |fields]; [unchanged..|].
  destruct (field fields "type") as [[| | |type| |]|]; [unchanged..| |unchanged|unchanged|unchanged].
  destruct (decide (type = "user_transcript")) as [->|?]; [unchanged|].
  destruct (decide (type = "transcript")) as [->|?].
  { destruct (ToString (field fields "data")) as [text|e] eqn:Hconv; [unchanged|].
    rewrite (ToString_throws _ _ Hconv). unchanged. }
  destruct (decide (type = "audio")) as [->|?].
  { rewrite pushAudio_value_spec.
    destruct (AudioPlayback.worklet (playback st)) eqn:Hw; simpl.
    - destruct (decode_value (field fields "data")) as [samples|e] eqn:Hdec;
        simpl.
      + split_and!; [done..|].
        unfold AudioPlayback.audio_blocks. rewrite omap_app. simpl. done.
      + destruct (instanceof_SyntaxError e); simpl; by rewrite ?Hw, app_nil_r.
    - by rewrite ?Hw, app_nil_r. }
  destruct (decide (type = "done")) as [->|?].
  { unfold AudioPlayback.signalComplete.
    destruct (AudioPlayback.worklet (playback st)) eqn:Hw; simpl.
    - split_and!; [done..|].
      unfold AudioPlayback.audio_blocks. rewrite omap_app. simpl.
      by rewrite !app_nil_r.
    - by rewrite ?Hw, app_nil_r. }
  destruct (decide (type = "error")) as [->|?].
  { rewrite new_Error_not_SyntaxError. unchanged. }
  unchanged.
Qed.

Lemma process_lines_playback callbacks st (lines : list line) :
  let st' := (process_lines callbacks st lines).1 in
  AudioPlayback.worklet (playback st') = AudioPlayback.worklet (playback st)
  ∧ AudioPlayback.seqBuffer (playback st') = AudioPlayback.seqBuffer (playback st)
  ∧ AudioPlayback.audio_blocks (AudioPlayback.posted (playback st'))
    = AudioPlayback.audio_blocks (AudioPlayback.posted (playback st))
      ++ (if AudioPlayback.worklet (playback st)
          then omap arrival_block lines else []).
Proof.
  revert st. induction lines as [|l lines IH]; intros st; simpl.
  - split_and!; [done..|]. by destruct (AudioPlayback.worklet _); rewrite app_nil_r.
  - pose proof (handle_line_playback callbacks st l) as (Hw1 & Hs1 & Hb1).
    destruct (handle_line callbacks st l) as [st1 calls1]. simpl in *.
    pose proof (IH st1) as (Hw2 & Hs2 & Hb2).
    destruct (process_lines callbacks st1 lines) as [st2 calls2]. simpl in *.
    rewrite Hw2, Hw1, Hs2, Hs1, Hb2, Hb1, Hw1. split_and!; [done..|].
    rewrite <- app_assoc. f_equal.
    destruct (AudioPlayback.worklet (playback st)); [|done].
    by destruct (arrival_block l).
Qed.

(** C2 (as amended).  When the orchestrator parses a record whose type
    is [error], it invokes the caller's error callback, if one was
    supplied, with what [new Error(event.error)] throws: an [Error]
    carrying the string form of the record's [error] field, or the
    [TypeError] of converting that field where the conversion throws.  It
    changes nothing else and goes on: the records after it are parsed and
    dispatched exactly as they would be from the state the earlier
    records left. *)
Theorem error_record_reports_and_continues
    callbacks st (pre post : list line) (event : json) :
  has_type "error" event →
  process_lines callbacks st (pre ++ Data (Some event) :: post)
  = let '(st1, calls1) := process_lines callbacks st pre in
    let '(st2, calls2) := process_lines callbacks st1 post in
    (st2,
     calls1
       ++ optional_call (onError callbacks) (OnError (new_Error (prop event "error")))
       ++ calls2).
Proof.
  intros (fields & -> & Hty)%has_type_inv.
  rewrite process_lines_app.
  destruct (process_lines callbacks st pre) as [st1 calls1]. cbn [process_lines].
  rewrite (handle_error_record callbacks st1 fields Hty).
  by destruct (process_lines callbacks st1 post) as [st2 calls2].
Qed.

(** C10.  When an [audio] record carries a payload on which the decoder
    throws, be it in converting the payload to a string, in the base64
    alphabet or in the byte count, the exception is not a [SyntaxError],
    the orchestrator invokes the caller's error callback, if one was
    supplied, with that exception, and it goes on: the records after it
    are processed from the state the earlier records left, which the
    failed record did not change. *)
Theorem undecodable_audio_reports_and_continues
    callbacks pb (pre post : list line) (event : json) (e : exn) :
  has_type "audio" event →
  decode_value (prop event "data") = Throw e →
  instanceof_SyntaxError e = false
  ∧ streamVoiceResponse callbacks pb (pre ++ Data (Some event) :: post)
    = let '(st1, calls1) := streamVoiceResponse callbacks pb pre in
      let '(st2, calls2) := process_lines callbacks st1 post in
      (st2, calls1 ++ optional_call (onError callbacks) (OnError e) ++ calls2).
Proof.
  intros (fields & -> & Hty)%has_type_inv Hdec.
  split; [by apply (decode_value_throws _ _ Hdec)|].
  unfold streamVoiceResponse. rewrite process_lines_app.
  set (st0 := mk "" (AudioPlayback.clear (AudioPlayback.init pb))).
  pose proof (process_lines_playback callbacks st0 pre) as (Hw & _).
  destruct (process_lines callbacks st0 pre) as [st1 calls1]. simpl in Hw.
  cbn [process_lines].
  rewrite (handle_undecodable_audio callbacks st1 fields e Hty); [| |done].
  - by destruct (process_lines callbacks st1 post) as [st2 calls2].
  - rewrite Hw. unfold AudioPlayback.init. by destruct (AudioPlayback.worklet pb) eqn:Hpb.
Qed.


(** C2, counterexample.  A [transcript] record that follows an [error]
    record is still dispatched: its callback fires after the error
    callback, and the running transcript is updated. *)
Lemma record_after_error_is_dispatched :
  streamVoiceResponse all_callbacks AudioPlayback.new
    [error_record; transcript_record "hi"]
  = (mk "hi" (AudioPlayback.mk AudioPlayback.idle true SequenceBuffer.new
                [AudioPlaybackProcessor.Message "clear" []]),
     [OnError (Error "boom"); OnTranscript (Some (JStr "hi")) "hi"])
  ∧ (streamVoiceResponse all_callbacks AudioPlayback.new
       [error_record; transcript_record "hi"]).2
    ≠ (streamVoiceResponse all_callbacks AudioPlayback.new [error_record]).2.
Proof. split; [vm_compute; reflexivity|vm_compute; discriminate]. Qed.

Lemma error_record_reports_and_continues_witness :
  has_type "error" (JObj [("type", JStr "error"); ("error", JStr "boom")])
  ∧ process_lines all_callbacks (mk "" AudioPlayback.new)
      ([transcript_record "a"] ++ error_record :: [transcript_record "b"])
    = (mk "ab" AudioPlayback.new,
       [OnTranscript (Some (JStr "a")) "a"; OnError (Error "boom");
        OnTranscript (Some (JStr "b")) "ab"]).
Proof.
  assert (has_type "error" (JObj [("type", JStr "error"); ("error", JStr "boom")]))
    as H by reflexivity.
  split; [exact H|].
  exact (error_record_reports_and_continues all_callbacks (mk "" AudioPlayback.new)
           [transcript_record "a"] [transcript_record "b"] _ H).
Defined.

Lemma undecodable_audio_reports_and_continues_witness :
  has_type "audio"
    (JObj [("type", JStr "audio"); ("seq", JNum (SafeInteger 0 I)); ("data", JStr "AA==")])
  ∧ decode_value (Some (JStr "AA==")) = Throw RangeError
  ∧ instanceof_SyntaxError RangeError = false
  ∧ (streamVoiceResponse all_callbacks AudioPlayback.new
       ([transcript_record "a"] ++ audio_record (SafeInteger 0 I) "AA=="
          :: [transcript_record "b"])).2
    = [OnTranscript (Some (JStr "a")) "a"; OnError RangeError;
       OnTranscript (Some (JStr "b")) "ab"].
Proof.
  assert (has_type "audio"
            (JObj [("type", JStr "audio"); ("seq", JNum (SafeInteger 0 I));
                   ("data", JStr "AA==")]))
    as H by reflexivity.
  assert (decode_value (Some (JStr "AA==")) = Throw RangeError) as Hdec
    by (vm_compute; reflexivity).
  split; [exact H|]. split; [exact Hdec|].
  destruct (undecodable_audio_reports_and_continues all_callbacks AudioPlayback.new
              [transcript_record "a"] [transcript_record "b"] _ RangeError H Hdec)
    as [Hsyn Hrun].
  split; [exact Hsyn|]. unfold audio_record. rewrite Hrun. reflexivity.
Defined.


(** Records whose field does not convert to a string: an object with an
    own [toString] as the [data] of a [transcript] or [audio] record or
    as the [error] of an [error] record.  Each conversion throws
    [TypeError], which goes to the error callback; the transcript stays
    empty and nothing but "clear" is posted. *)
Example unconvertible_fields_report_TypeError :
  let odd := JObj [("toString", JNum (SafeInteger 1 I))] in
  streamVoiceResponse all_callbacks AudioPlayback.new
    [Data (Some (JObj [("type", JStr "transcript"); ("data", odd)]));
     Data (Some (JObj [("type", JStr "audio"); ("data", odd)]));
     Data (Some (JObj [("type", JStr "error"); ("error", odd)]))]
  = (mk "" (AudioPlayback.mk AudioPlayback.idle true SequenceBuffer.new
              [AudioPlaybackProcessor.Message "clear" []]),
     [OnError TypeError; OnError TypeError; OnError TypeError]).
Proof. vm_compute. reflexivity. Qed.

End VoiceStreamFacts.

(** * Further properties *)

(** ** Ring buffer: pull, growth, clear *)

Module RingBufferMore.
Import RingBuffer.
Section More.
Context {sample : Type} (zero nan : sample).
Implicit Types (rb : t sample) (data out : list sample).

Local Open Scope nat_scope.

(** X1.  [pull] copies the oldest [min(length, availableData)] samples
    into the front of the output region, in order, stores [zero] in the
    rest of it, leaves the later samples in the buffer and returns
    whether it copied any sample. *)
Theorem pull_copies_oldest rb out :
  well_formed rb →
  ∃ rb',
    pull zero nan rb out
    = (rb',
       take (length out) (contents nan rb)
         ++ replicate (length out - available rb) zero,
       bool_decide (0 < length out `min` available rb))
    ∧ contents nan rb' = drop (length out) (contents nan rb)
    ∧ available rb' = available rb - length out
    ∧ capacity rb' = capacity rb
    ∧ well_formed rb'.
Proof.
  intros Hwf.
  destruct (RingBufferFacts.pull_spec zero nan rb out Hwf)
    as (rb' & Hpull & Hwf' & Hc & Ha & Hcap).
  exists rb'. unfold available. split_and!; [done|done| |done|done].
  rewrite Ha. lia.
Qed.

Lemma capacity_write_all data rb :
  capacity (fold_left write data rb) = capacity rb.
Proof. revert rb. induction data as [|x data IH]; intros rb; simpl; [done|]. by rewrite IH. Qed.

Lemma grow_until_doubles fuel rb len rb1 :
  grow_until zero nan fuel rb len = Some rb1 →
  ∃ k,
    capacity rb1 = capacity rb * 2 ^ k
    ∧ availableData rb1 = availableData rb
    ∧ availableData rb + len ≤ capacity rb1
    ∧ (k ≠ 0 → capacity rb * 2 ^ (k - 1) < availableData rb + len).
Proof.
  revert rb. induction fuel as [|fuel IH]; intros rb; simpl;
    destruct (decide (capacity rb < availableData rb + len)) as [Hlt|Hge]; try done.
  - intros [= <-]. exists 0. simpl. split_and!; [lia|done|lia|done].
  - intros Hg. destruct (IH _ Hg) as (k & Hcap & Hav & Hfit & Hmin). simpl in *.
    exists (S k). split_and!; [|done|done|].
    + rewrite Hcap. simpl. lia.
    + intros _. simpl. rewrite Nat.sub_0_r. destruct k as [|k].
      * simpl. lia.
      * specialize (Hmin ltac:(done)). simpl in Hmin. rewrite Nat.sub_0_r in Hmin.
        simpl. lia.
  - intros [= <-]. exists 0. simpl. split_and!; [lia|done|lia|done].
Qed.

(** X2.  [push] on a buffer of positive capacity returns, and the capacity
    afterwards is the old one doubled [k] times for the least [k] that
    makes room for the unread samples and the new block: no doubling when
    the block fits, and never a smaller capacity. *)
Theorem push_grows_by_doubling rb data :
  0 < capacity rb →
  ∃ rb' k,
    push zero nan rb data = Some rb'
    ∧ capacity rb' = capacity rb * 2 ^ k
    ∧ availableData rb + length data ≤ capacity rb'
    ∧ (k ≠ 0 → capacity rb * 2 ^ (k - 1) < availableData rb + length data)
    ∧ (availableData rb + length data ≤ capacity rb → capacity rb' = capacity rb).
Proof.
  intros Hc. destruct (RingBufferFacts.ring_push_total zero nan rb data Hc) as [rb' Hpush].
  exists rb'. unfold push in Hpush.
  destruct (grow_until zero nan _ rb (length data)) as [rb1|] eqn:Hg; [|done].
  simpl in Hpush. injection Hpush as <-.
  destruct (grow_until_doubles _ _ _ _ Hg) as (k & Hcap & Hav & Hfit & Hmin).
  exists k. rewrite capacity_write_all. split_and!; [|done..|].
  - unfold push. by rewrite Hg.
  - intros Hle. destruct k as [|k]; [simpl in Hcap; lia|].
    specialize (Hmin ltac:(done)). simpl in Hmin. rewrite Nat.sub_0_r in Hmin.
    assert (1 ≤ 2 ^ k) by (apply Nat.neq_0_lt_0, Nat.pow_nonzero; lia). nia.
Qed.

(** X3.  [clear] discards what is unread without touching the storage or
    the capacity, and from then on the buffer hands out only what is
    pushed afterwards: over any later interleaving of [push] and [pull],
    the samples pulled followed by those left unread are the samples
    pushed after the [clear]. *)
Theorem clear_discards_unread rb (ops : list (op sample)) :
  well_formed rb →
  contents nan (clear rb) = []
  ∧ available (clear rb) = 0
  ∧ capacity (clear rb) = capacity rb
  ∧ buffer (clear rb) = buffer rb
  ∧ ∃ rb' outs,
      run zero nan (clear rb) ops = Some (rb', outs)
      ∧ real_samples outs ++ contents nan rb' = pushed ops.
Proof.
  intros (Hc & Hlen & Hr & Hinv).
  assert (well_formed (clear rb)) as Hwf.
  { unfold well_formed, invariant, clear. simpl.
    rewrite Nat.Div0.mod_0_l. split_and!; (done || lia). }
  split_and!; [done..|].
  destruct (RingBufferFacts.run_spec zero nan (clear rb) ops Hwf)
    as (rb' & outs & Hrun & _ & Hrel & _).
  exists rb', outs. split; [done|]. by rewrite <- Hrel.
Qed.

(** X4.  On a buffer of capacity 0 the growth loop of [push] never
    ends for a non-empty block: doubling 0 gives 0, so whatever the number
    of iterations allowed, the loop condition still holds. *)
Theorem push_never_returns_at_capacity_0 rb data (fuel : nat) :
  capacity rb = 0 → data ≠ [] →
  grow_until zero nan fuel rb (length data) = None
  ∧ push zero nan rb data = None.
Proof.
  intros Hc Hd.
  assert (0 < availableData rb + length data) as Hpos.
  { destruct data; [done|]. simpl. lia. }
  split; [by apply RingBufferFacts.grow_until_capacity_0|].
  unfold push. by rewrite RingBufferFacts.grow_until_capacity_0.
Qed.

End More.

Lemma pull_copies_oldest_witness :
  let rb := mk 4 [1; 2; 3; 0]%nat 1 3 2 in
  let out := [9; 9; 9]%nat in
  well_formed rb
  ∧ ∃ rb',
      pull 0%nat 0%nat rb out
      = (rb',
         take (length out) (contents 0%nat rb)
           ++ replicate (length out - available rb) 0%nat,
         bool_decide (0 < length out `min` available rb)%nat)
      ∧ contents 0%nat rb' = drop (length out) (contents 0%nat rb)
      ∧ available rb' = (available rb - length out)%nat
      ∧ capacity rb' = capacity rb
      ∧ well_formed rb'.
Proof.
  intros rb out.
  assert (well_formed rb) as H.
  { unfold well_formed, invariant, rb. simpl. lia. }
  split; [exact H|]. exact (pull_copies_oldest 0%nat 0%nat rb out H).
Defined.

(** A pull of three frames with two samples unread. *)
Example pull_two_of_three :
  pull 0%nat 0%nat (mk 4 [1; 2; 3; 0]%nat 1 3 2) [9; 9; 9]%nat
  = (mk 4 [1; 2; 3; 0]%nat 3 3 0, [2; 3; 0]%nat, true).
Proof. vm_compute. reflexivity. Qed.

Lemma push_grows_by_doubling_witness :
  let rb := new 0%nat 2 in
  let data := [1; 2; 3; 4; 5]%nat in
  (0 < capacity rb)%nat
  ∧ ∃ rb' k,
      push 0%nat 0%nat rb data = Some rb'
      ∧ capacity rb' = (capacity rb * 2 ^ k)%nat
      ∧ (availableData rb + length data ≤ capacity rb')%nat
      ∧ (k ≠ 0%nat → (capacity rb * 2 ^ (k - 1) < availableData rb + length data)%nat)
      ∧ ((availableData rb + length data ≤ capacity rb)%nat → capacity rb' = capacity rb).
Proof.
  intros rb data. assert (0 < capacity rb)%nat as H by (simpl; lia).
  split; [exact H|]. exact (push_grows_by_doubling 0%nat 0%nat rb data H).
Defined.

Example push_five_into_two :
  capacity <$> push 0%nat 0%nat (new 0%nat 2) [1; 2; 3; 4; 5]%nat = Some 8%nat.
Proof. vm_compute. reflexivity. Qed.

Lemma clear_discards_unread_witness :
  let rb := mk 4 [1; 2; 3; 0]%nat 1 3 2 in
  let ops := [Push [7; 8]%nat; Pull [0; 0; 0]%nat] in
  well_formed rb
  ∧ contents 0%nat (clear rb) = []
  ∧ available (clear rb) = 0%nat
  ∧ capacity (clear rb) = capacity rb
  ∧ buffer (clear rb) = buffer rb
  ∧ ∃ rb' outs,
      run 0%nat 0%nat (clear rb) ops = Some (rb', outs)
      ∧ real_samples outs ++ contents 0%nat rb' = pushed ops.
Proof.
  intros rb ops.
  assert (well_formed rb) as H.
  { unfold well_formed, invariant, rb. simpl. lia. }
  split; [exact H|]. exact (clear_discards_unread 0%nat 0%nat rb ops H).
Defined.

Lemma push_never_returns_at_capacity_0_witness :
  let rb := new 0%nat 0 in
  capacity rb = 0%nat
  ∧ [1%nat] ≠ []
  ∧ grow_until 0%nat 0%nat 1000 rb (length [1%nat]) = None
  ∧ push 0%nat 0%nat rb [1%nat] = None.
Proof.
  intros rb. assert (capacity rb = 0%nat) as H by reflexivity.
  assert ([1%nat] ≠ []) as Hd by discriminate.
  split; [exact H|]. split; [exact Hd|].
  exact (push_never_returns_at_capacity_0 0%nat 0%nat rb [1%nat] 1000 H Hd).
Defined.

End RingBufferMore.

(** ** Playback processor: render steps and control messages *)

Module ProcessorMore.
Import AudioPlaybackProcessor ProcessorEvents.
Section More.
Context {sample : Type} (zero nan : sample).
Implicit Types (p : t sample) (m : message sample) (e : event sample).

Local Open Scope nat_scope.

(** X5.  A render step.  While playing, channel 0 of output 0 receives the
    oldest buffered samples in order and silence after them, and "ended"
    is posted, with both flags cleared, exactly when the completion flag
    is set and the quantum took all that was buffered.  While idle,
    channel 0 is filled with silence and the processor, with whatever it
    has buffered, stays as it is.  The other channels and outputs are
    never written. *)
Theorem render_step p (channel : list sample) channels rest :
  RingBuffer.well_formed (ringBuffer p) →
  let unread := RingBuffer.contents nan (ringBuffer p) in
  let ended :=
    streamComplete p && bool_decide (length unread ≤ length channel) in
  if isPlaying p then
    ∃ rb',
      process zero nan p ((channel :: channels) :: rest)
      = (mk rb' (negb ended) (streamComplete p && negb ended),
         ((take (length channel) unread
             ++ replicate (length channel - length unread) zero) :: channels) :: rest,
         if ended then [Ended] else [])
      ∧ RingBuffer.contents nan rb' = drop (length channel) unread
      ∧ RingBuffer.well_formed rb'
  else
    process zero nan p ((channel :: channels) :: rest)
    = (p, (replicate (length channel) zero :: channels) :: rest, []).
Proof.
  intros Hwf unread ended. unfold process.
  destruct (isPlaying p) eqn:Hplay; [|done].
  destruct (RingBufferFacts.pull_spec zero nan (ringBuffer p) channel Hwf)
    as (rb' & Hpull & Hwf' & Hc & Ha & Hcap).
  exists rb'. rewrite Hpull. split; [|done].
  assert (length unread = RingBuffer.availableData (ringBuffer p)) as Hlen
    by apply RingBufferFacts.length_contents.
  assert (bool_decide (RingBuffer.available rb' = 0)
          = bool_decide (length unread ≤ length channel)) as Hdec.
  { apply bool_decide_ext. unfold RingBuffer.available. rewrite Ha, Hlen. lia. }
  rewrite Hdec, <- Hlen. subst ended. fold unread.
  destruct (streamComplete p) eqn:Hsc; simpl; [|done].
  by destruct (bool_decide (length unread ≤ length channel)).
Qed.

(** X6.  "stop" halts playback but keeps what is buffered, so an "audio"
    message after it plays the samples left from before the stop ahead of
    the new ones; "clear" empties the buffer, so after it only the new
    samples play.  Both clear the completion flag. *)
Theorem stop_keeps_clear_discards p (samples : list sample) :
  RingBuffer.well_formed (ringBuffer p) →
  (∃ p1 p2,
     onmessage zero nan p (Message "stop" []) = Some p1
     ∧ isPlaying p1 = false ∧ streamComplete p1 = false
     ∧ onmessage zero nan p1 (Message "audio" samples) = Some p2
     ∧ isPlaying p2 = true
     ∧ RingBuffer.contents nan (ringBuffer p2)
       = RingBuffer.contents nan (ringBuffer p) ++ samples)
  ∧ (∃ p1 p2,
       onmessage zero nan p (Message "clear" []) = Some p1
       ∧ isPlaying p1 = false ∧ streamComplete p1 = false
       ∧ onmessage zero nan p1 (Message "audio" samples) = Some p2
       ∧ isPlaying p2 = true
       ∧ RingBuffer.contents nan (ringBuffer p2) = samples).
Proof.
  intros Hwf. split.
  - destruct (RingBufferFacts.ring_push_spec zero nan (ringBuffer p) samples Hwf)
      as (rb & Hpush & _ & Hc & _).
    exists (mk (ringBuffer p) false false), (mk rb true false).
    split_and!; [done|done|done| |done|exact Hc].
    unfold onmessage. simpl. by rewrite Hpush.
  - assert (RingBuffer.well_formed (RingBuffer.clear (ringBuffer p))) as Hwf'.
    { destruct Hwf as (? & ? & ? & _).
      unfold RingBuffer.well_formed, RingBuffer.invariant, RingBuffer.clear. simpl.
      rewrite Nat.Div0.mod_0_l. split_and!; (done || lia). }
    destruct (RingBufferFacts.ring_push_spec zero nan _ samples Hwf')
      as (rb & Hpush & _ & Hc & _).
    exists (mk (RingBuffer.clear (ringBuffer p)) false false), (mk rb true false).
    split_and!; [done|done|done| |done|exact Hc].
    unfold onmessage. simpl. by rewrite Hpush.
Qed.

(** X7.  An execution from the constructed processor that receives no "audio"
    message posts nothing, whatever else it receives and however often it
    renders: without audio the processor never starts playing, so a
    "streamComplete" alone is never answered by "ended". *)
Theorem no_audio_no_ended (es : list (event sample)) :
  Forall (λ e, is_audio e = false) es →
  ∃ p outs,
    exec zero nan (new zero) es = Some (p, outs)
    ∧ concat outs = []
    ∧ isPlaying p = false.
Proof.
  assert (∀ es p, Forall (λ e, is_audio e = false) es → isPlaying p = false →
            ∃ p' outs, exec zero nan p es = Some (p', outs)
                       ∧ concat outs = [] ∧ isPlaying p' = false) as Hgen.
  { clear. induction es as [|e es IH]; intros p Hes Hidle.
    - exists p, []. done.
    - apply Forall_cons in Hes as [He Hes]. destruct e as [m|outputs]; simpl in *.
      + apply bool_decide_eq_false_1 in He.
        assert (∃ p1, onmessage zero nan p m = Some p1 ∧ isPlaying p1 = false)
          as (p1 & -> & Hidle1).
        { unfold onmessage. rewrite decide_False by done.
          repeat case_decide; eexists; (split; [reflexivity|]); done. }
        destruct (IH p1 Hes Hidle1) as (p' & outs & Hrun & Hposted & Hplay).
        exists p', ([] :: outs). simpl. rewrite Hrun. simpl. by rewrite Hposted.
      + assert (process zero nan p outputs = (p, (process zero nan p outputs).1.2, []))
          as ->.
        { unfold process. destruct outputs as [|[|channel channels] rest]; try done.
          by rewrite Hidle. }
        destruct (IH p Hes Hidle) as (p' & outs & Hrun & Hposted & Hplay).
        exists p', ([] :: outs). simpl. rewrite Hrun. simpl. by rewrite Hposted. }
  intros Hes. by apply Hgen.
Qed.

End More.

Lemma render_step_witness :
  let p := mk (RingBuffer.mk 4 [1; 2; 3; 0]%nat 1 3 2) true true in
  let channel := [9; 9; 9]%nat in
  let unread := RingBuffer.contents 0%nat (ringBuffer p) in
  let ended := streamComplete p && bool_decide (length unread ≤ length channel)%nat in
  RingBuffer.well_formed (ringBuffer p)
  ∧ ∃ rb',
      process 0%nat 0%nat p [[channel]]
      = (mk rb' (negb ended) (streamComplete p && negb ended),
         [[take (length channel) unread
             ++ replicate (length channel - length unread) 0%nat]],
         if ended then [Ended] else [])
      ∧ RingBuffer.contents 0%nat rb' = drop (length channel) unread
      ∧ RingBuffer.well_formed rb'.
Proof.
  intros p channel unread ended.
  assert (RingBuffer.well_formed (ringBuffer p)) as H.
  { unfold RingBuffer.well_formed, RingBuffer.invariant, p. simpl. lia. }
  split; [exact H|]. exact (render_step 0%nat 0%nat p channel [] [] H).
Defined.

(** The last quantum of a completed stream: two samples left, three
    frames asked for. *)
Example render_last_quantum :
  process 0%nat 0%nat (mk (RingBuffer.mk 4 [1; 2; 3; 0]%nat 1 3 2) true true) [[[9; 9; 9]%nat]]
  = (mk (RingBuffer.mk 4 [1; 2; 3; 0]%nat 3 3 0) false false, [[[2; 3; 0]%nat]], [Ended]).
Proof. vm_compute. reflexivity. Qed.

Lemma stop_keeps_clear_discards_witness :
  let p := mk (RingBuffer.mk 4 [1; 2; 3; 0]%nat 1 3 2) true true in
  RingBuffer.well_formed (ringBuffer p)
  ∧ (RingBuffer.contents 0%nat <$>
       (ringBuffer <$>
          (onmessage 0%nat 0%nat p (Message "stop" [])
             ≫= λ p1, onmessage 0%nat 0%nat p1 (Message "audio" [7; 8]%nat)))
     = Some [2; 3; 7; 8]%nat)
  ∧ (RingBuffer.contents 0%nat <$>
       (ringBuffer <$>
          (onmessage 0%nat 0%nat p (Message "clear" [])
             ≫= λ p1, onmessage 0%nat 0%nat p1 (Message "audio" [7; 8]%nat)))
     = Some [7; 8]%nat).
Proof.
  intros p.
  assert (RingBuffer.well_formed (ringBuffer p)) as H.
  { unfold RingBuffer.well_formed, RingBuffer.invariant, p. simpl. lia. }
  split; [exact H|].
  destruct (stop_keeps_clear_discards 0%nat 0%nat p [7; 8]%nat H)
    as [(s1 & s2 & Hs1 & _ & _ & Hs2 & _ & Hsc) (c1 & c2 & Hc1 & _ & _ & Hc2 & _ & Hcc)].
  rewrite Hs1, Hc1. simpl. rewrite Hs2, Hc2. simpl. rewrite Hsc, Hcc.
  split; reflexivity.
Defined.

Lemma no_audio_no_ended_witness :
  Forall (λ e : event nat, is_audio e = false)
    [Receive (Message "streamComplete" []); Render [[[9; 9]%nat]]]
  ∧ ∃ p outs,
      exec 0%nat 0%nat (new 0%nat)
        [Receive (Message "streamComplete" []); Render [[[9; 9]%nat]]]
      = Some (p, outs)
      ∧ concat outs = []
      ∧ isPlaying p = false.
Proof.
  assert (Forall (λ e : event nat, is_audio e = false)
            [Receive (Message "streamComplete" []); Render [[[9; 9]%nat]]]) as H.
  { repeat constructor. }
  split; [exact H|]. exact (no_audio_no_ended 0%nat 0%nat _ H).
Defined.

End ProcessorMore.

(** ** Sequence buffer: what is stored, held back and released *)

Module SequenceBufferMore.
Import SequenceBuffer SequenceBufferHeld.
Section More.
Context {A : Type}.
Implicit Types (sb : t A) (m : gmap Z (list A)).

Lemma flat_map_perm {B C} (f : B → list C) (l1 l2 : list B) :
  l1 ≡ₚ l2 → flat_map f l1 ≡ₚ flat_map f l2.
Proof.
  induction 1 as [|x l1 l2 _ IH|x y l|l1 l2 l3 _ IH1 _ IH2]; simpl.
  - done.
  - by rewrite IH.
  - rewrite !app_assoc. f_equiv. apply Permutation_app_comm.
  - by rewrite IH1.
Qed.

Lemma held_delete m k c :
  m !! k = Some c →
  flat_map snd (map_to_list m) ≡ₚ c ++ flat_map snd (map_to_list (delete k m)).
Proof.
  intros Hk. rewrite <- (flat_map_perm snd _ _ (map_to_list_delete m k c Hk)). done.
Qed.

Lemma store_insert seq (data : A) m :
  store seq data m = <[seq := default [] (m !! seq) ++ [data]]> m.
Proof.
  apply map_eq. intros k. rewrite SequenceBufferFacts.lookup_store.
  destruct (decide (k = seq)) as [->|Hne].
  - by rewrite lookup_insert_eq.
  - by rewrite lookup_insert_ne.
Qed.

Lemma held_store seq (data : A) m :
  flat_map snd (map_to_list (store seq data m))
  ≡ₚ flat_map snd (map_to_list m) ++ [data].
Proof.
  rewrite store_insert, <- insert_delete_eq.
  rewrite (flat_map_perm snd _ _ (map_to_list_insert (delete seq m) seq _
                                    (lookup_delete_eq m seq))).
  simpl. destruct (m !! seq) as [c|] eqn:Hc; simpl.
  - rewrite (held_delete m seq c Hc). rewrite <- !app_assoc. f_equiv.
    apply Permutation_app_comm.
  - rewrite delete_id by done. apply Permutation_cons_append.
Qed.

Lemma drain_conserves fuel m ns (ready : list A) sb' out :
  drain fuel m ns ready = Some (sb', out) →
  out ++ held sb' ≡ₚ ready ++ flat_map snd (map_to_list m).
Proof.
  revert m ns ready. induction fuel as [|fuel IH]; intros m ns ready; cbn [drain];
    destruct (m !! ns) as [c|] eqn:Hc; try done.
  - intros [= <- <-]. done.
  - intros Hd. rewrite (IH _ _ _ Hd), (held_delete m ns c Hc), app_assoc. done.
  - intros [= <- <-]. done.
Qed.

(** [push] neither loses nor duplicates a payload: what it releases,
    together with what it leaves waiting, is what was waiting before plus
    the payload pushed. *)
Lemma push_conserves sb seq (data : A) sb' out :
  push sb seq data = Some (sb', out) →
  out ++ held sb' ≡ₚ held sb ++ [data].
Proof.
  unfold push. intros Hd%drain_conserves. simpl in Hd. rewrite Hd.
  apply held_store.
Qed.

(** X8.  Over any list of pushes, each payload pushed ends up exactly once
    either among the payloads released or among those still waiting in
    [pending]: none is lost and none is released twice. *)
Theorem pushes_conserve_payloads sb (frags : list (Z * A)) :
  ∃ sb' outs,
    push_all sb frags = Some (sb', outs)
    ∧ concat outs ++ held sb' ≡ₚ held sb ++ frags.*2.
Proof.
  revert sb. induction frags as [|[k d] frags IH]; intros sb.
  - exists sb, []. simpl. by rewrite app_nil_r.
  - destruct (SequenceBufferFacts.seq_push_total sb k d) as [[sb1 out] Hpush].
    destruct (IH sb1) as (sb2 & outs & Hrun & Hperm).
    exists sb2, (out :: outs). unfold push_all in *. simpl. rewrite Hpush, Hrun.
    split; [done|]. simpl. rewrite <- app_assoc, Hperm, app_assoc.
    rewrite (push_conserves _ _ _ _ _ Hpush), <- app_assoc. done.
Qed.

(** X9.  A push for any sequence number other than the expected one releases
    nothing and leaves [nextSeq] alone; the payload is appended to those
    already waiting under its number, so payloads pushed under one number
    queue up in push order instead of overwriting each other. *)
Theorem push_off_sequence sb seq (data : A) :
  pending sb !! nextSeq sb = None → seq ≠ nextSeq sb →
  push sb seq data = Some (mk (store seq data (pending sb)) (nextSeq sb), [])
  ∧ store seq data (pending sb) !! seq
    = Some (default [] (pending sb !! seq) ++ [data])
  ∧ store seq data (pending sb) !! nextSeq sb = None.
Proof.
  intros Hex Hne.
  assert (store seq data (pending sb) !! nextSeq sb = None) as Hns.
  { by rewrite SequenceBufferFacts.lookup_store, decide_False. }
  split_and!; [|by rewrite SequenceBufferFacts.lookup_store, decide_True|done].
  unfold push. destruct (size (store seq data (pending sb))); simpl; by rewrite Hns.
Qed.

(** X10.  Head-of-line blocking: as long as no payload arrives for the expected
    sequence number, nothing at all is released, however many payloads
    are pushed for other numbers; they all stay in [pending]. *)
Theorem gap_blocks_release sb (frags : list (Z * A)) :
  pending sb !! nextSeq sb = None →
  Forall (λ f, f.1 ≠ nextSeq sb) frags →
  ∃ sb' outs,
    push_all sb frags = Some (sb', outs)
    ∧ concat outs = []
    ∧ nextSeq sb' = nextSeq sb
    ∧ held sb' ≡ₚ held sb ++ frags.*2.
Proof.
  revert sb. induction frags as [|[k d] frags IH]; intros sb Hex Hfr.
  - exists sb, []. simpl. by rewrite app_nil_r.
  - apply Forall_cons in Hfr as [Hk Hfr]. simpl in Hk.
    destruct (push_off_sequence sb k d Hex Hk) as (Hpush & _ & Hns).
    destruct (IH (mk (store k d (pending sb)) (nextSeq sb))) as (sb2 & outs & Hrun & Ho & Hn & Hh);
      [done|done|].
    exists sb2, ([] :: outs). unfold push_all in *. simpl. rewrite Hpush, Hrun.
    split_and!; [done|done|done|].
    rewrite Hh. unfold held at 1. simpl. rewrite held_store, <- app_assoc. done.
Qed.

(** X11.  A payload filed under a sequence number below [nextSeq] is never
    released: whatever is pushed afterwards, it is still waiting under
    its key, with any later arrivals for that key behind it. *)
Theorem below_nextSeq_never_released sb (frags : list (Z * A)) k chunks :
  k < nextSeq sb → pending sb !! k = Some chunks →
  ∃ sb' outs later,
    push_all sb frags = Some (sb', outs)
    ∧ pending sb' !! k = Some (chunks ++ later)
    ∧ nextSeq sb ≤ nextSeq sb'.
Proof. apply SequenceBufferFacts.below_nextSeq_kept. Qed.

(** X12.  Whatever is pushed into a fresh buffer, each payload under the
    sequence number it carries, with numbers repeated, skipped, negative
    or late, the payloads come out over all the calls in non-decreasing
    order of sequence number, and only pushed payloads come out. *)
Theorem release_order_any_pushes (tag : A → Z) (xs : list A) :
  ∃ sb outs,
    push_tagged tag new xs = Some (sb, outs)
    ∧ StronglySorted (by_tag tag) (concat outs)
    ∧ Forall (λ x, x ∈ xs) (concat outs).
Proof. apply SequenceBufferFacts.released_in_sequence_order. Qed.

End More.

Lemma push_off_sequence_witness :
  pending (mk ({[2 := ["c"]]} : gmap Z (list string)) 0) !! 0 = None
  ∧ 2 ≠ 0
  ∧ push (mk {[2 := ["c"]]} 0) 2 "d"
    = Some (mk (store 2 "d" {[2 := ["c"]]}) 0, [])
  ∧ store 2 "d" ({[2 := ["c"]]} : gmap Z (list string)) !! 2
    = Some (default [] (({[2 := ["c"]]} : gmap Z (list string)) !! 2) ++ ["d"])
  ∧ store 2 "d" ({[2 := ["c"]]} : gmap Z (list string)) !! 0 = None.
Proof.
  assert (pending (mk ({[2 := ["c"]]} : gmap Z (list string)) 0) !! 0 = None) as H
    by reflexivity.
  assert (2 ≠ 0) as Hne by lia.
  split; [exact H|]. split; [exact Hne|].
  exact (push_off_sequence (mk {[2 := ["c"]]} 0) 2 "d" H Hne).
Defined.

(** Two payloads under the number 1 while 0 is awaited, then 0. *)
Example duplicates_queue_in_push_order :
  push_all new [(1, "b1"); (1, "b2"); (0, "a")]
  = Some (mk ∅ 2, [[]; []; ["a"; "b1"; "b2"]]).
Proof. vm_compute. reflexivity. Qed.

Lemma gap_blocks_release_witness :
  pending (@new string) !! nextSeq (@new string) = None
  ∧ Forall (λ f : Z * string, f.1 ≠ nextSeq (@new string)) [(2, "c"); (1, "b")]
  ∧ ∃ sb' outs,
      push_all new [(2, "c"); (1, "b")] = Some (sb', outs)
      ∧ concat outs = []
      ∧ nextSeq sb' = nextSeq (@new string)
      ∧ held sb' ≡ₚ held new ++ [(2, "c"); (1, "b")].*2.
Proof.
  assert (pending (@new string) !! nextSeq (@new string) = None) as H by reflexivity.
  assert (Forall (λ f : Z * string, f.1 ≠ nextSeq (@new string)) [(2, "c"); (1, "b")])
    as Hfr by (repeat constructor; simpl; lia).
  split; [exact H|]. split; [exact Hfr|].
  exact (gap_blocks_release new [(2, "c"); (1, "b")] H Hfr).
Defined.

Lemma below_nextSeq_never_released_witness :
  0 < nextSeq (mk ({[0 := ["late"]]} : gmap Z (list string)) 1)
  ∧ pending (mk ({[0 := ["late"]]} : gmap Z (list string)) 1) !! 0 = Some ["late"]
  ∧ ∃ sb' outs later,
      push_all (mk {[0 := ["late"]]} 1) [(1, "b"); (0, "again"); (2, "c")]
      = Some (sb', outs)
      ∧ pending sb' !! 0 = Some (["late"] ++ later)
      ∧ nextSeq (mk ({[0 := ["late"]]} : gmap Z (list string)) 1) ≤ nextSeq sb'.
Proof.
  assert (0 < nextSeq (mk ({[0 := ["late"]]} : gmap Z (list string)) 1)) as H
    by (simpl; lia).
  assert (pending (mk ({[0 := ["late"]]} : gmap Z (list string)) 1) !! 0 = Some ["late"])
    as Hc by reflexivity.
  split; [exact H|]. split; [exact Hc|].
  exact (below_nextSeq_never_released (mk {[0 := ["late"]]} 1)
           [(1, "b"); (0, "again"); (2, "c")] 0 ["late"] H Hc).
Defined.

End SequenceBufferMore.

(** ** PCM decoder: range of the samples *)

Module DecoderMore.

Lemma Int16Array_view_range (n : nat) (bytes : list Z) :
  (length bytes ≤ n)%nat →
  Forall (λ b, 0 ≤ b < 256) bytes →
  Forall (λ v, -32768 ≤ v < 32768) (Int16Array_view bytes).
Proof.
  revert bytes. induction n as [|n IH]; intros bytes Hlen Hb.
  - destruct bytes; [constructor|simpl in Hlen; lia].
  - destruct bytes as [|lo [|hi rest]]; simpl; try constructor.
    + apply Forall_cons in Hb as [Hlo Hb]. apply Forall_cons in Hb as [Hhi Hb].
      apply (DecoderFacts.int16_spec (lo + 256 * hi)). lia.
    + apply Forall_cons in Hb as [_ Hb]. apply Forall_cons in Hb as [_ Hb].
      apply IH; [simpl in Hlen; lia|done].
Qed.

(** X13.  Every sample the decoder returns lies in the half-open interval from
    -1 to 1: the most negative 16-bit value gives exactly -1 and no value
    gives 1. *)
Theorem decoded_samples_in_range (base64Audio : string) (out : list Q) :
  decodePCM16ToFloat32 base64Audio = Ok out →
  Forall (λ q, (-1 <= q)%Q ∧ (q < 1)%Q) out.
Proof.
  unfold decodePCM16ToFloat32.
  destruct (Base64.atob base64Audio) as [raw|]; [|done].
  case_decide; [|done]. intros [= <-].
  set (bytes := map _ (list_ascii_of_string raw)).
  assert (Forall (λ b, 0 ≤ b < 256) bytes) as Hb.
  { unfold bytes. apply Forall_forall. intros b Hin.
    apply list_elem_of_In, in_map_iff in Hin as (c & <- & _).
    apply DecoderFacts.byte_range. }
  pose proof (Int16Array_view_range (length bytes) bytes (le_n _) Hb) as Hv.
  apply Forall_forall. intros q Hq.
  apply list_elem_of_In, in_map_iff in Hq as (v & <- & Hin).
  rewrite Forall_forall in Hv. specialize (Hv v (proj2 (list_elem_of_In _ _) Hin)).
  unfold float32_div_32768, Qle, Qlt. simpl. lia.
Qed.

Lemma decoded_samples_in_range_witness :
  decodePCM16ToFloat32 "//9/AACA"
  = Ok [(-1 # 32768); (127 # 32768); (-32768 # 32768)]%Q
  ∧ Forall (λ q, (-1 <= q)%Q ∧ (q < 1)%Q)
      [(-1 # 32768); (127 # 32768); (-32768 # 32768)]%Q.
Proof.
  assert (decodePCM16ToFloat32 "//9/AACA"
          = Ok [(-1 # 32768); (127 # 32768); (-32768 # 32768)]%Q) as H
    by (vm_compute; reflexivity).
  split; [exact H|]. exact (decoded_samples_in_range _ _ H).
Defined.

End DecoderMore.

(** ** Playback hook: before [init], and a chunk that does not decode *)

Module AudioPlaybackMore.
Import AudioPlayback.

(** X14.  While the worklet is not set up, the hook ignores every fragment:
    [pushAudio] and any series of [pushSequencedAudio] calls, and
    [signalComplete], leave the hook exactly as it was.  Nothing is
    decoded, posted, thrown or kept in the sequence buffer, so those
    fragments are lost. *)
Theorem not_ready_drops_fragments (h : t) (base64Audio : string)
    (calls : list (Z * string)) :
  worklet h = false →
  pushAudio h base64Audio = (h, None)
  ∧ sequenced_calls h calls = Some (h, (λ _, None) <$> calls)
  ∧ signalComplete h = h.
Proof.
  intros Hw. unfold pushAudio, signalComplete. rewrite Hw. simpl.
  split_and!; [done| |done].
  induction calls as [|[seq d] calls IH]; [done|].
  simpl. unfold pushSequencedAudio. rewrite Hw. simpl. by rewrite IH.
Qed.

Lemma post_chunks_throw (posted : list message) (pre post : list string)
    (bad : string) (e : exn) (blocks : list (list Q)) :
  Forall2 (λ chunk block, decodePCM16ToFloat32 chunk = Ok block) pre blocks →
  decodePCM16ToFloat32 bad = Throw e →
  post_chunks posted (pre ++ bad :: post)
  = (posted ++ (Message "audio" <$> blocks), Some e).
Proof.
  intros Hfa Hbad. revert posted.
  induction Hfa as [|chunk block pre blocks Hdec _ IH]; intros posted; simpl.
  - by rewrite Hbad, app_nil_r.
  - rewrite Hdec, IH, <- app_assoc. done.
Qed.

(** X15.  When everything the sequence buffer releases decodes,
    [pushSequencedAudio] posts one "audio" message per released chunk, in
    release order, and sets the state to playing if anything was
    released; if nothing was released the state is not touched. *)
Theorem sequenced_push_posts_released (h : t) (seq : Z) (base64Audio : string)
    sb (ready : list string) (blocks : list (list Q)) :
  worklet h = true →
  SequenceBuffer.push (seqBuffer h) seq base64Audio = Some (sb, ready) →
  Forall2 (λ chunk block, decodePCM16ToFloat32 chunk = Ok block) ready blocks →
  pushSequencedAudio h seq base64Audio
  = Some (mk (if decide (ready = []) then state h else playing) true sb
             (posted h ++ (Message "audio" <$> blocks)),
          None).
Proof.
  intros Hw Hpush Hfa. unfold pushSequencedAudio. rewrite Hw, Hpush. simpl.
  rewrite (AudioPlaybackFacts.post_chunks_all _ _ _ Hfa).
  destruct ready as [|chunk ready]; [done|].
  rewrite decide_True by (simpl; lia). by rewrite decide_False.
Qed.

(** X16.  When a released chunk does not decode, [pushSequencedAudio] throws
    that exception after posting the chunks released ahead of it.  The
    chunks released behind it are neither posted nor left in the sequence
    buffer, which has already moved past them, and the state is not set
    to playing even if chunks were posted. *)
Theorem sequenced_push_failure_drops_rest (h : t) (seq : Z) (base64Audio : string)
    sb (pre post : list string) (bad : string) (e : exn) (blocks : list (list Q)) :
  worklet h = true →
  SequenceBuffer.push (seqBuffer h) seq base64Audio = Some (sb, pre ++ bad :: post) →
  Forall2 (λ chunk block, decodePCM16ToFloat32 chunk = Ok block) pre blocks →
  decodePCM16ToFloat32 bad = Throw e →
  pushSequencedAudio h seq base64Audio
  = Some (mk (state h) true sb (posted h ++ (Message "audio" <$> blocks)), Some e).
Proof.
  intros Hw Hpush Hfa Hbad. unfold pushSequencedAudio. rewrite Hw, Hpush. simpl.
  by rewrite (post_chunks_throw _ _ _ _ _ _ Hfa Hbad).
Qed.

Lemma not_ready_drops_fragments_witness :
  worklet new = false
  ∧ pushAudio new "AAA=" = (new, None)
  ∧ sequenced_calls new [(0, "AAA="); (1, "!!")]
    = Some (new, (λ _, None) <$> [(0, "AAA="); (1, "!!")])
  ∧ signalComplete new = new.
Proof.
  assert (worklet new = false) as H by reflexivity.
  split; [exact H|].
  exact (not_ready_drops_fragments new "AAA=" [(0, "AAA="); (1, "!!")] H).
Defined.

Lemma sequenced_push_posts_released_witness :
  let h := mk idle true (SequenceBuffer.mk {[1 := ["AAA="]]} 0) [] in
  worklet h = true
  ∧ SequenceBuffer.push (seqBuffer h) 0 "BBB="
    = Some (SequenceBuffer.mk ∅ 2, ["BBB="; "AAA="])
  ∧ Forall2 (λ chunk block, decodePCM16ToFloat32 chunk = Ok block)
      ["BBB="; "AAA="] [[(4100 # 32768)%Q]; [(0 # 32768)%Q]]
  ∧ pushSequencedAudio h 0 "BBB="
    = Some (mk (if decide (["BBB="; "AAA="] = []) then state h else playing) true
               (SequenceBuffer.mk ∅ 2)
               (posted h ++ (Message "audio" <$> [[(4100 # 32768)%Q]; [(0 # 32768)%Q]])),
            None).
Proof.
  intros h.
  assert (worklet h = true) as Hw by reflexivity.
  assert (SequenceBuffer.push (seqBuffer h) 0 "BBB="
          = Some (SequenceBuffer.mk ∅ 2, ["BBB="; "AAA="])) as Hp
    by (vm_compute; reflexivity).
  assert (Forall2 (λ chunk block, decodePCM16ToFloat32 chunk = Ok block)
            ["BBB="; "AAA="] [[(4100 # 32768)%Q]; [(0 # 32768)%Q]]) as Hfa
    by (repeat constructor; vm_compute; reflexivity).
  split; [exact Hw|]. split; [exact Hp|]. split; [exact Hfa|].
  exact (sequenced_push_posts_released h 0 "BBB=" _ _ _ Hw Hp Hfa).
Defined.

Lemma sequenced_push_failure_drops_rest_witness :
  let h := mk idle true (SequenceBuffer.mk {[1 := ["AA=="]; 2 := ["AAA="]]} 0) [] in
  worklet h = true
  ∧ SequenceBuffer.push (seqBuffer h) 0 "BBB="
    = Some (SequenceBuffer.mk ∅ 3, ["BBB="] ++ "AA==" :: ["AAA="])
  ∧ Forall2 (λ chunk block, decodePCM16ToFloat32 chunk = Ok block)
      ["BBB="] [[(4100 # 32768)%Q]]
  ∧ decodePCM16ToFloat32 "AA==" = Throw RangeError
  ∧ pushSequencedAudio h 0 "BBB="
    = Some (mk (state h) true (SequenceBuffer.mk ∅ 3)
               (posted h ++ (Message "audio" <$> [[(4100 # 32768)%Q]])),
            Some RangeError).
Proof.
  intros h.
  assert (worklet h = true) as Hw by reflexivity.
  assert (SequenceBuffer.push (seqBuffer h) 0 "BBB="
          = Some (SequenceBuffer.mk ∅ 3, ["BBB="] ++ "AA==" :: ["AAA="])) as Hp
    by (vm_compute; reflexivity).
  assert (Forall2 (λ chunk block, decodePCM16ToFloat32 chunk = Ok block)
            ["BBB="] [[(4100 # 32768)%Q]]) as Hfa
    by (repeat constructor; vm_compute; reflexivity).
  assert (decodePCM16ToFloat32 "AA==" = Throw RangeError) as Hbad
    by (vm_compute; reflexivity).
  split; [exact Hw|]. split; [exact Hp|]. split; [exact Hfa|]. split; [exact Hbad|].
  exact (sequenced_push_failure_drops_rest h 0 "BBB=" _ _ _ _ _ _ Hw Hp Hfa Hbad).
Defined.

End AudioPlaybackMore.

(** ** Stream orchestrator: what the loop passes on and passes over *)

Module VoiceStreamMore.
Import VoiceStream VoiceStreamViews.

Lemma string_app_assoc (s1 s2 s3 : string) :
  (s1 +:+ s2) +:+ s3 = s1 +:+ (s2 +:+ s3).
Proof.
  induction s1 as [|c s1 IH]; [done|].
  change (String c ((s1 +:+ s2) +:+ s3) = String c (s1 +:+ s2 +:+ s3)).
  by rewrite IH.
Qed.

Lemma string_app_nil_r (s : string) : s +:+ "" = s.
Proof.
  induction s as [|c s IH]; [done|].
  change (String c (s +:+ "") = String c s). by rewrite IH.
Qed.

Local Ltac same := simpl; rewrite ?VoiceStreamFacts.if_nil, ?app_nil_r, ?string_app_nil_r; done.

(** One line: what it posts to the worklet and adds to the transcript. *)
Lemma handle_line_effects callbacks st l :
  let st' := (handle_line callbacks st l).1 in
  AudioPlayback.posted (playback st')
  = AudioPlayback.posted (playback st)
      ++ (if AudioPlayback.worklet (playback st)
          then option_list (worklet_message l) else [])
  ∧ fullTranscript st' = fullTranscript st +:+ default "" (transcript_delta l)
  ∧ AudioPlayback.worklet (playback st') = AudioPlayback.worklet (playback st).
Proof.
  destruct l as [|[event|]]; [same| |same].
  unfold worklet_message, transcript_delta, handle_line, dispatch, prop, get.
  destruct event as [| | | | |fields]; [same..|].
  destruct (field fields "type") as [[| | |type| |]|]; [same..| |same|same|same].
  destruct (decide (type = "user_transcript")) as [->|?]; [same|].
  destruct (decide (type = "transcript")) as [->|?].
  { destruct (ToString (field fields "data")) as [text|e] eqn:Hconv; [same|].
    rewrite (VoiceStreamFacts.ToString_throws _ _ Hconv). same. }
  destruct (decide (type = "audio")) as [->|?].
  { rewrite VoiceStreamFacts.pushAudio_value_spec.
    destruct (AudioPlayback.worklet (playback st)) eqn:Hw; simpl.
    - destruct (decode_value (field fields "data")) as [samples|e] eqn:Hdec;
        simpl.
      + by rewrite string_app_nil_r.
      + destruct (instanceof_SyntaxError e); simpl; by rewrite ?Hw, app_nil_r, string_app_nil_r.
    - by rewrite ?Hw, app_nil_r, string_app_nil_r. }
  destruct (decide (type = "done")) as [->|?].
  { unfold AudioPlayback.signalComplete.
    destruct (AudioPlayback.worklet (playback st)) eqn:Hw; simpl.
    - by rewrite string_app_nil_r.
    - by rewrite ?Hw, app_nil_r, string_app_nil_r. }
  destruct (decide (type = "error")) as [->|?].
  { rewrite VoiceStreamFacts.new_Error_not_SyntaxError. same. }
  same.
Qed.

Lemma process_lines_effects callbacks st (lines : list line) :
  let st' := (process_lines callbacks st lines).1 in
  AudioPlayback.posted (playback st')
  = AudioPlayback.posted (playback st)
      ++ (if AudioPlayback.worklet (playback st)
          then omap worklet_message lines else [])
  ∧ fullTranscript st'
    = fullTranscript st +:+ concat_strings (omap transcript_delta lines).
Proof.
  revert st. induction lines as [|l lines IH]; intros st; simpl.
  - rewrite string_app_nil_r. split; [|done].
    by destruct (AudioPlayback.worklet _); rewrite app_nil_r.
  - pose proof (handle_line_effects callbacks st l) as (Hp1 & Ht1 & Hw1).
    destruct (handle_line callbacks st l) as [st1 calls1]. simpl in *.
    pose proof (IH st1) as (Hp2 & Ht2).
    destruct (process_lines callbacks st1 lines) as [st2 calls2]. simpl in *.
    rewrite Hp2, Hp1, Ht2, Ht1, Hw1. split.
    + rewrite <- app_assoc. f_equal.
      destruct (AudioPlayback.worklet (playback st)); [|done].
      by destruct (worklet_message l).
    + rewrite string_app_assoc. f_equal.
      destruct (transcript_delta l); simpl; [done|].
      by destruct (concat_strings _).
Qed.

(** X17.  The messages the orchestrator posts to the worklet over a whole
    response are "clear" first and then, in arrival order, one "audio"
    message for each audio record whose payload decodes and one
    "streamComplete" for each [done] record; no other record posts
    anything. *)
Theorem worklet_message_stream callbacks pb (lines : list line) :
  AudioPlayback.posted (playback (streamVoiceResponse callbacks pb lines).1)
  = AudioPlayback.posted pb
      ++ AudioPlaybackProcessor.Message "clear" [] :: omap worklet_message lines.
Proof.
  unfold streamVoiceResponse.
  set (st0 := mk "" (AudioPlayback.clear (AudioPlayback.init pb))).
  pose proof (process_lines_effects callbacks st0 lines) as (Hp & _).
  simpl in Hp. rewrite Hp. unfold AudioPlayback.init.
  destruct (AudioPlayback.worklet pb) eqn:Hpb; simpl; rewrite ?Hpb; simpl;
    by rewrite <- app_assoc.
Qed.

(** X18.  The running transcript after a response is the concatenation, in
    arrival order, of the [data] of its [transcript] records; no other
    record changes it. *)
Theorem transcript_accumulates callbacks pb (lines : list line) :
  fullTranscript (streamVoiceResponse callbacks pb lines).1
  = concat_strings (omap transcript_delta lines).
Proof.
  unfold streamVoiceResponse.
  set (st0 := mk "" (AudioPlayback.clear (AudioPlayback.init pb))).
  pose proof (process_lines_effects callbacks st0 lines) as (_ & Ht).
  simpl in Ht. by rewrite Ht.
Qed.

(** X19.  A [done] record does not end the loop.  The completion callback is
    invoked with the transcript accumulated from the [transcript] records
    so far, whatever the record's own [transcript] field says, a
    "streamComplete" is signalled, and the records after it are
    dispatched as usual. *)
Theorem done_record_completes_and_continues
    callbacks st (pre post : list line) (event : json) :
  has_type "done" event →
  process_lines callbacks st (pre ++ Data (Some event) :: post)
  = let '(st1, calls1) := process_lines callbacks st pre in
    let '(st2, calls2) :=
      process_lines callbacks
        (mk (fullTranscript st1) (AudioPlayback.signalComplete (playback st1))) post in
    (st2,
     calls1
       ++ optional_call (onComplete callbacks) (OnComplete (fullTranscript st1))
       ++ calls2).
Proof.
  intros (fields & -> & Hty)%VoiceStreamFacts.has_type_inv.
  rewrite VoiceStreamFacts.process_lines_app.
  destruct (process_lines callbacks st pre) as [st1 calls1]. cbn [process_lines].
  assert (handle_line callbacks st1 (Data (Some (JObj fields)))
          = (mk (fullTranscript st1) (AudioPlayback.signalComplete (playback st1)),
             optional_call (onComplete callbacks) (OnComplete (fullTranscript st1))))
    as ->.
  { unfold handle_line, dispatch, prop, get. rewrite Hty.
    repeat (rewrite decide_False by done). by rewrite decide_True. }
  by destruct (process_lines _ _ post) as [st2 calls2].
Qed.

(** X20.  Lines the loop passes over have no effect at all: dropping them from
    the response changes neither the callbacks invoked nor the final
    state.  A record that is the JSON value [null] is not one of them:
    reading its [type] throws, and the [TypeError] goes to the error
    callback. *)
Theorem inert_lines_have_no_effect callbacks st (lines : list line) :
  process_lines callbacks st (filter (λ l, inert l = false) lines)
  = process_lines callbacks st lines
  ∧ handle_line callbacks st (Data (Some JNull))
    = (st, optional_call (onError callbacks) (OnError TypeError)).
Proof.
  split; [|done].
  assert (∀ st l, inert l = true → handle_line callbacks st l = (st, [])) as Hinert.
  { clear. intros st l. destruct l as [|[event|]]; [done| |done].
    unfold inert, handle_line, dispatch, get.
    destruct event as [| | | | |fields]; try done.
    destruct (field fields "type") as [[| | |type| |]|]; try done.
    intros Hin%negb_true_iff%bool_decide_eq_false_1.
    repeat (rewrite decide_False; [|intros ->; apply Hin; set_solver]). done. }
  revert st. induction lines as [|l lines IH]; intros st; [done|].
  destruct (inert l) eqn:Hl.
  - rewrite filter_cons_False by (by rewrite Hl). simpl.
    rewrite (Hinert st l Hl), IH.
    by destruct (process_lines callbacks st lines).
  - rewrite filter_cons_True by done. simpl.
    destruct (handle_line callbacks st l) as [st1 calls1]. by rewrite IH.
Qed.

Lemma done_record_completes_and_continues_witness :
  has_type "done" (JObj [("type", JStr "done"); ("transcript", JStr "ignored")])
  ∧ process_lines all_callbacks (mk "" (AudioPlayback.init AudioPlayback.new))
      ([transcript_record "a"]
         ++ Data (Some (JObj [("type", JStr "done"); ("transcript", JStr "ignored")]))
         :: [transcript_record "b"])
    = (mk "ab" (AudioPlayback.mk AudioPlayback.idle true SequenceBuffer.new
                  [AudioPlaybackProcessor.Message "streamComplete" []]),
       [OnTranscript (Some (JStr "a")) "a"; OnComplete "a";
        OnTranscript (Some (JStr "b")) "ab"]).
Proof.
  assert (has_type "done" (JObj [("type", JStr "done"); ("transcript", JStr "ignored")]))
    as H by reflexivity.
  split; [exact H|].
  exact (done_record_completes_and_continues all_callbacks
           (mk "" (AudioPlayback.init AudioPlayback.new))
           [transcript_record "a"] [transcript_record "b"] _ H).
Defined.

End VoiceStreamMore.

(** ** The completion callback *)

Module VoiceStreamCompletion.
Import VoiceStream VoiceStreamViews.

Lemma handle_line_complete callbacks st l t :
  OnComplete t ∈ (handle_line callbacks st l).2 →
  ∃ event, l = Data (Some event) ∧ has_type "done" event ∧ t = fullTranscript st.
Proof.
  destruct l as [|[event|]]; simpl; [by intros ?%elem_of_nil| |by intros ?%elem_of_nil].
  unfold dispatch, prop, has_type, get.
  destruct event as [| | | | |fields]; simpl;
    try (by intros ?%elem_of_nil).
  { unfold optional_call. destruct (onError callbacks); simpl; [|by intros ?%elem_of_nil].
    by intros [=]%list_elem_of_singleton. }
  destruct (field fields "type") as [[| | |type| |]|] eqn:Hty; simpl;
    try (by intros ?%elem_of_nil).
  unfold optional_call.
  destruct (decide (type = "user_transcript")) as [->|?].
  { destruct (onUserTranscript callbacks); simpl; [|by intros ?%elem_of_nil].
    by intros [=]%list_elem_of_singleton. }
  destruct (decide (type = "transcript")) as [->|?].
  { destruct (ToString (field fields "data")) as [text|e]; simpl.
    - destruct (onTranscript callbacks); simpl; [|by intros ?%elem_of_nil].
      by intros [=]%list_elem_of_singleton.
    - destruct (instanceof_SyntaxError e); simpl; [by intros ?%elem_of_nil|].
      destruct (onError callbacks); simpl; [|by intros ?%elem_of_nil].
      by intros [=]%list_elem_of_singleton. }
  destruct (decide (type = "audio")) as [->|?].
  { destruct (pushAudio_value _ _) as [pb [e|]]; simpl;
      [|by intros ?%elem_of_nil].
    destruct (instanceof_SyntaxError e); simpl; [by intros ?%elem_of_nil|].
    destruct (onError callbacks); simpl; [|by intros ?%elem_of_nil].
    by intros [=]%list_elem_of_singleton. }
  destruct (decide (type = "done")) as [->|?].
  { destruct (onComplete callbacks); simpl; [|by intros ?%elem_of_nil].
    intros [= ->]%list_elem_of_singleton.
    exists (JObj fields). by rewrite Hty. }
  destruct (decide (type = "error")) as [->|?]; simpl; [|by intros ?%elem_of_nil].
  rewrite VoiceStreamFacts.new_Error_not_SyntaxError. simpl.
  destruct (onError callbacks); simpl; [|by intros ?%elem_of_nil].
  by intros [=]%list_elem_of_singleton.
Qed.

(** X21.  The completion callback is invoked only for a [done] record, and
    what it is given is the transcript accumulated from the records
    before that one. *)
Theorem completion_needs_done_record callbacks st (lines : list line) t :
  OnComplete t ∈ (process_lines callbacks st lines).2 →
  ∃ pre event post,
    lines = pre ++ Data (Some event) :: post
    ∧ has_type "done" event
    ∧ t = fullTranscript (process_lines callbacks st pre).1.
Proof.
  revert st. induction lines as [|l lines IH]; intros st; simpl.
  { by intros ?%elem_of_nil. }
  pose proof (handle_line_complete callbacks st l t) as Hl.
  destruct (handle_line callbacks st l) as [st1 calls1] eqn:Hh.
  pose proof (IH st1) as IH1.
  destruct (process_lines callbacks st1 lines) as [st2 calls2] eqn:Hp.
  simpl in *. intros [Hin|Hin]%elem_of_app.
  - destruct (Hl Hin) as (event & -> & Hty & ->).
    by exists [], event, lines.
  - destruct (IH1 Hin) as (pre & event & post & -> & Hty & ->).
    exists (l :: pre), event, post. split_and!; [done..|].
    simpl. rewrite Hh. by destruct (process_lines callbacks st1 pre).
Qed.

Lemma completion_needs_done_record_witness :
  OnComplete "a"
    ∈ (process_lines all_callbacks (mk "" (AudioPlayback.init AudioPlayback.new))
         [transcript_record "a"; Data (Some (JObj [("type", JStr "done")]));
          transcript_record "b"]).2
  ∧ ∃ pre event post,
      [transcript_record "a"; Data (Some (JObj [("type", JStr "done")]));
       transcript_record "b"] = pre ++ Data (Some event) :: post
      ∧ has_type "done" event
      ∧ "a" = fullTranscript
                (process_lines all_callbacks
                   (mk "" (AudioPlayback.init AudioPlayback.new)) pre).1.
Proof.
  assert (OnComplete "a"
    ∈ (process_lines all_callbacks (mk "" (AudioPlayback.init AudioPlayback.new))
         [transcript_record "a"; Data (Some (JObj [("type", JStr "done")]));
          transcript_record "b"]).2) as H.
  { vm_compute. set_solver. }
  split; [exact H|].
  exact (completion_needs_done_record _ _ _ _ H).
Defined.

End VoiceStreamCompletion.

(** ** Format detection *)

Module AudioFormatMore.
Import AudioFormatDetection.

Local Ltac use_tests :=
  repeat match goal with
         | H : _ = false |- _ => vm_compute in H; first [discriminate H | clear H]
         end.

Local Ltac to_eqs :=
  repeat match goal with
         | H : _ && _ = true |- _ => apply andb_true_iff in H as [? ?]
         | H : _ || _ = true |- _ => apply orb_true_iff in H as [?|?]
         | H : bool_decide _ = true |- _ => apply bool_decide_eq_true in H
         | H : Some _ = Some _ |- _ => injection H as H
         end.

Local Ltac settle :=
  first
    [ done
    | by (intros; destruct_and?; destruct_or?; simplify_eq; use_tests)
    | by (intros; split_and?; try done; intros ?; destruct_or?; simplify_eq; use_tests)
    | by (intros; destruct_and?; exfalso; eauto 6) ].

(** X22.  What [detectAudioFormat] answers, by magic number.  Fewer than twelve
    bytes are never recognised.  The four leading signatures exclude one
    another, so the order of the tests only matters for [mp4] and [ogg]:
    [ftyp] at offset 4 counts only when the buffer does not begin with
    the RIFF, EBML or MP3 signatures, and [OggS] only when no [ftyp]
    follows it.  A RIFF buffer is [wav] whatever its form type at offset
    8 is. *)
Theorem detectAudioFormat_spec (buffer : list Z) :
  let long := (12 ≤ length buffer)%nat in
  let riff := starts_with [0x52; 0x49; 0x46; 0x46] buffer in
  let ebml := starts_with [0x1a; 0x45; 0xdf; 0xa3] buffer in
  let mpeg := starts_with [0xff; 0xfb] buffer ∨ starts_with [0xff; 0xfa] buffer
              ∨ starts_with [0xff; 0xf3] buffer ∨ starts_with [0x49; 0x44; 0x33] buffer in
  let ftyp := starts_with [0x66; 0x74; 0x79; 0x70] (drop 4 buffer) in
  let oggs := starts_with [0x4f; 0x67; 0x67; 0x53] buffer in
  (detectAudioFormat buffer = wav ↔ long ∧ riff)
  ∧ (detectAudioFormat buffer = webm ↔ long ∧ ebml)
  ∧ (detectAudioFormat buffer = mp3 ↔ long ∧ mpeg)
  ∧ (detectAudioFormat buffer = mp4 ↔ long ∧ ftyp ∧ ¬ riff ∧ ¬ ebml ∧ ¬ mpeg)
  ∧ (detectAudioFormat buffer = ogg ↔ long ∧ oggs ∧ ¬ ftyp).
Proof.
  cbv zeta. unfold starts_with.
  remember (detectAudioFormat buffer) as fmt eqn:Hfmt.
  unfold detectAudioFormat in Hfmt.
  destruct (decide (length buffer < 12)%nat) as [Hshort|Hlong].
  { subst fmt. split_and!; split; try done; intros [? _]; lia. }
  destruct buffer as [|b0 [|b1 [|b2 [|b3 [|b4 [|b5 [|b6 [|b7 rest]]]]]]]];
    simpl in Hlong; try lia.
  assert (12 ≤ length (b0 :: b1 :: b2 :: b3 :: b4 :: b5 :: b6 :: b7 :: rest))%nat
    as Hlen by (simpl in *; lia).
  clear Hlong. revert Hlen.
  generalize (length (b0 :: b1 :: b2 :: b3 :: b4 :: b5 :: b6 :: b7 :: rest)).
  intros len Hlen.
  unfold byte_is in Hfmt. cbn [lookup list_lookup] in Hfmt.
  simpl.
  match type of Hfmt with context [if ?b then wav else _] =>
    destruct b eqn:H1 end.
  { to_eqs. subst. split_and!; split; settle. }
  match type of Hfmt with context [if ?b then webm else _] =>
    destruct b eqn:H2 end.
  { to_eqs. subst. split_and!; split; settle. }
  match type of Hfmt with context [if ?b then mp3 else _] =>
    destruct b eqn:H3 end.
  { assert ([b0; b1] = [255; 251] ∨ [b0; b1] = [255; 250] ∨ [b0; b1] = [255; 243]
            ∨ [b0; b1; b2] = [73; 68; 51]) as Hmpeg.
    { apply orb_true_iff in H3 as [H3|H3]; to_eqs; subst; eauto. }
    clear H3. subst fmt. split_and!; split; settle. }
  match type of Hfmt with context [if ?b then mp4 else _] =>
    destruct b eqn:H4 end.
  { to_eqs. subst. split_and!; split; settle. }
  match type of Hfmt with context [if ?b then ogg else _] =>
    destruct b eqn:H5 end.
  { to_eqs. subst. split_and!; split; settle. }
  subst fmt. split_and!; split; settle.
Qed.

(** X23.  [ensureCompatibleFormat] hands the caller's buffer back untouched,
    labelled with the detected format, exactly when the buffer has at
    least twelve bytes and begins with the RIFF signature or one of the
    MP3 signatures.  Every other buffer goes through the conversion and
    comes back labelled [wav]; what the conversion throws propagates. *)
Theorem passes_through_iff_wav_or_mp3_signature
    (convertToWav : list Z → result (list Z)) (buffer : list Z) :
  let riff := starts_with [0x52; 0x49; 0x46; 0x46] buffer in
  let mpeg := starts_with [0xff; 0xfb] buffer ∨ starts_with [0xff; 0xfa] buffer
              ∨ starts_with [0xff; 0xf3] buffer ∨ starts_with [0x49; 0x44; 0x33] buffer in
  let recognised := (12 ≤ length buffer)%nat ∧ (riff ∨ mpeg) in
  (recognised →
   ensureCompatibleFormat convertToWav buffer = Ok (buffer, detectAudioFormat buffer)
   ∧ (detectAudioFormat buffer = wav ∨ detectAudioFormat buffer = mp3))
  ∧ (¬ recognised →
     ensureCompatibleFormat convertToWav buffer
     = match convertToWav buffer with
       | Ok wavBuffer => Ok (wavBuffer, wav)
       | Throw e => Throw e
       end).
Proof.
  cbv zeta. unfold ensureCompatibleFormat, starts_with.
  remember (detectAudioFormat buffer) as fmt eqn:Hfmt.
  unfold detectAudioFormat in Hfmt.
  destruct (decide (length buffer < 12)%nat) as [Hshort|Hlong].
  { subst fmt. split; [intros [? _]; lia|done]. }
  destruct buffer as [|b0 [|b1 [|b2 [|b3 [|b4 [|b5 [|b6 [|b7 rest]]]]]]]];
    simpl in Hlong; try lia.
  assert (12 ≤ length (b0 :: b1 :: b2 :: b3 :: b4 :: b5 :: b6 :: b7 :: rest))%nat
    as Hlen by (simpl in *; lia).
  clear Hlong.
  unfold byte_is in Hfmt. cbn [lookup list_lookup] in Hfmt.
  cbn [take length].
  match type of Hfmt with context [if ?b then wav else _] =>
    destruct b eqn:H1 end.
  { subst fmt. split; [intros _; split; [done|by left]|].
    intros Hn. exfalso. apply Hn. to_eqs. subst. split; [done|by left]. }
  match type of Hfmt with context [if ?b then webm else _] =>
    destruct b eqn:H2 end.
  { to_eqs. subst. split; [|done].
    intros [_ ?]. destruct_or?; simplify_eq. }
  match type of Hfmt with context [if ?b then mp3 else _] =>
    destruct b eqn:H3 end.
  { subst fmt. split; [intros _; split; [done|by right]|].
    intros Hn. exfalso. apply Hn. split; [done|]. right.
    apply orb_true_iff in H3 as [H3|H3]; to_eqs; subst; eauto. }
  assert (fmt = mp4 ∨ fmt = ogg ∨ fmt = unknown) as Hother.
  { repeat match type of Hfmt with context [if ?b then _ else _] => destruct b end;
      eauto. }
  clear Hfmt. split.
  - intros [_ ?]. destruct_or?; simplify_eq; use_tests.
  - by destruct Hother as [->|[->| ->]].
Qed.

End AudioFormatMore.

(** ** The voice route and its client *)

Module VoiceRouteMore.
Import VoiceStream VoiceStreamViews VoiceRoute.

#[local] Arguments truthy : simpl never.

Lemma concat_strings_app (xs ys : list string) :
  concat_strings (xs ++ ys) = concat_strings xs +:+ concat_strings ys.
Proof.
  induction xs as [|x xs IH]; [done|].
  change (x +:+ concat_strings (xs ++ ys)
          = (x +:+ concat_strings xs) +:+ concat_strings ys).
  by rewrite IH, VoiceStreamMore.string_app_assoc.
Qed.

(** The records the chunk loop writes, and the transcript it builds. *)
Lemma stream_chunks_spec acc (chunks : list (option delta)) :
  let '(final, written) := stream_chunks acc chunks in
  final = acc +:+ concat_strings (omap transcript_delta (sse_lines written))
  ∧ Forall (λ r, ∃ v, truthy (Some v) = true
                      ∧ (r = record "transcript" "data" v ∨ r = record "audio" "data" v))
      written.
Proof.
  revert acc. induction chunks as [|[d|] chunks IH]; intros acc; simpl.
  - split; [|done]. symmetry. apply VoiceStreamMore.string_app_nil_r.
  - set (one := match audio_transcript d with
                | Some t =>
                    if truthy (Some (JStr t))
                    then (acc +:+ t, [record "transcript" "data" (JStr t)])
                    else (acc, [])
                | None => (acc, [])
                end).
    set (two := match audio_data d with
                | Some a =>
                    if truthy (Some (JStr a)) then [record "audio" "data" (JStr a)] else []
                | None => []
                end).
    assert (one.1 = acc +:+ concat_strings (omap transcript_delta (sse_lines one.2))
            ∧ Forall (λ r, ∃ v, truthy (Some v) = true
                      ∧ (r = record "transcript" "data" v ∨ r = record "audio" "data" v))
                one.2) as [H1 F1].
    { subst one. destruct (audio_transcript d) as [t|].
      - destruct (truthy (Some (JStr t))) eqn:Ht; unfold concat_strings; simpl.
        + split; [by rewrite VoiceStreamMore.string_app_nil_r|].
          apply Forall_singleton. eauto.
        + by rewrite VoiceStreamMore.string_app_nil_r.
      - unfold concat_strings. simpl. by rewrite VoiceStreamMore.string_app_nil_r. }
    assert (omap transcript_delta (sse_lines two) = []
            ∧ Forall (λ r, ∃ v, truthy (Some v) = true
                      ∧ (r = record "transcript" "data" v ∨ r = record "audio" "data" v))
                two) as [H2 F2].
    { subst two. destruct (audio_data d) as [a|]; [|done].
      destruct (truthy (Some (JStr a))) eqn:Ha; simpl; [|done].
      split; [done|]. apply Forall_singleton. eauto. }
    destruct one as [acc1 written1]. simpl in *.
    specialize (IH acc1). destruct (stream_chunks acc1 chunks) as [final written3].
    destruct IH as [-> F3]. split.
    + unfold sse_lines in *. rewrite !flat_map_app, !omap_app, H2. simpl.
      rewrite H1, VoiceStreamMore.string_app_assoc. f_equal.
      by rewrite concat_strings_app.
    + by rewrite !Forall_app.
  - apply IH.
Qed.

Lemma client_on_stream callbacks st (first terminal : json) (written : list json) :
  process_lines callbacks st (sse_lines (first :: written ++ [terminal]))
  = let '(st1, calls1) := handle_line callbacks st (Data (Some first)) in
    let '(st2, calls2) := process_lines callbacks st1 (sse_lines written) in
    let '(st3, calls3) := handle_line callbacks st2 (Data (Some terminal)) in
    (st3, calls1 ++ calls2 ++ calls3).
Proof.
  assert (∀ st, handle_line callbacks st Skipped = (st, [])) as Hs by done.
  unfold sse_lines. cbn [flat_map app process_lines].
  destruct (handle_line callbacks st (Data (Some first))) as [st1 calls1].
  rewrite Hs, flat_map_app, VoiceStreamFacts.process_lines_app.
  destruct (process_lines callbacks st1 _) as [st2 calls2].
  cbn [flat_map app process_lines].
  destruct (handle_line callbacks st2 (Data (Some terminal))) as [st3 calls3].
  by rewrite Hs, !app_nil_r.
Qed.

(** Lines without a [done] record never invoke the completion callback. *)
Lemma no_done_no_complete callbacks st (lines : list line) :
  Forall (λ l, ∀ event, l = Data (Some event) → ¬ has_type "done" event) lines →
  Forall (λ c, ∀ t, c ≠ OnComplete t) (process_lines callbacks st lines).2.
Proof.
  intros Hl. revert st. induction Hl as [|l lines Hl _ IH]; intros st; simpl; [done|].
  pose proof (VoiceStreamCompletion.handle_line_complete callbacks st l) as Hc.
  destruct (handle_line callbacks st l) as [st1 calls1].
  specialize (IH st1). destruct (process_lines callbacks st1 lines) as [st2 calls2].
  simpl in *. apply Forall_app. split; [|done].
  apply Forall_forall. intros c Hin t ->.
  destruct (Hc t Hin) as (event & -> & Hty & _). by eapply Hl.
Qed.

Lemma written_no_done (written : list json) :
  Forall (λ r, ∃ v, truthy (Some v) = true
                    ∧ (r = record "transcript" "data" v ∨ r = record "audio" "data" v))
    written →
  Forall (λ l, ∀ event, l = Data (Some event) → ¬ has_type "done" event)
    (sse_lines written).
Proof.
  induction 1 as [|r written (v & _ & Hr) _ IH]; simpl; [done|].
  apply Forall_cons. split; [|by apply Forall_cons].
  intros event [= <-]. by destruct Hr as [-> | ->].
Qed.

Lemma client_messages (first terminal : json) (written : list json) :
  omap worklet_message (sse_lines (first :: written ++ [terminal]))
  = option_list (worklet_message (Data (Some first)))
      ++ omap worklet_message (sse_lines written)
      ++ option_list (worklet_message (Data (Some terminal))).
Proof.
  unfold sse_lines. cbn [flat_map app]. rewrite flat_map_app.
  cbn [omap list_omap]. rewrite omap_app. cbn [flat_map app omap list_omap].
  destruct (worklet_message (Data (Some first)));
    destruct (worklet_message (Data (Some terminal))); simpl; by rewrite ?app_nil_r.
Qed.

Lemma client_posted callbacks pb (lines : list line) :
  AudioPlayback.posted (playback (streamVoiceResponse callbacks pb lines).1)
  = AudioPlayback.posted pb
      ++ AudioPlaybackProcessor.Message "clear" [] :: omap worklet_message lines.
Proof.
  unfold streamVoiceResponse.
  set (st0 := mk "" (AudioPlayback.clear (AudioPlayback.init pb))).
  pose proof (VoiceStreamMore.process_lines_effects callbacks st0 lines) as (Hp & _).
  simpl in Hp. rewrite Hp. unfold AudioPlayback.init.
  destruct (AudioPlayback.worklet pb) eqn:Hpb; simpl; rewrite ?Hpb; simpl;
    by rewrite <- app_assoc.
Qed.

(** X24.  A voice exchange that goes through, end to end.  When the request
    carries audio and nothing fails, the server answers with an event
    stream and saves the assistant transcript; the client reading that
    stream ends with the very transcript the server saved, reports the
    user's transcript first and completion last and exactly once, and
    posts to the worklet the decoded audio of the stream between one
    "clear" and one closing "streamComplete". *)
Theorem voice_exchange_completes callbacks pb audio userTranscript
    (chunks : list (option delta)) :
  truthy audio = true →
  ∃ records assistantTranscript,
    post_message audio (Ok userTranscript) chunks false false
    = (EventStream records, Some assistantTranscript)
    ∧ let '(st, calls) := streamVoiceResponse callbacks pb (sse_lines records) in
      fullTranscript st = assistantTranscript
      ∧ (∃ calls0,
           calls
           = optional_call (onUserTranscript callbacks)
               (OnUserTranscript (Some (JStr userTranscript)))
               ++ calls0
               ++ optional_call (onComplete callbacks) (OnComplete assistantTranscript)
           ∧ Forall (λ c, ∀ t, c ≠ OnComplete t) calls0)
      ∧ AudioPlayback.posted (playback st)
        = AudioPlayback.posted pb
            ++ AudioPlaybackProcessor.Message "clear" []
            :: omap worklet_message (sse_lines (stream_chunks "" chunks).2)
            ++ [AudioPlaybackProcessor.Message "streamComplete" []].
Proof.
  intros Ha. unfold post_message. rewrite Ha. cbn [negb].
  pose proof (stream_chunks_spec "" chunks) as Hs.
  destruct (stream_chunks "" chunks) as [T w]. destruct Hs as [HT Hw].
  eexists _, _. split; [reflexivity|].
  pose proof (client_posted callbacks pb
                (sse_lines (record "user_transcript" "data" (JStr userTranscript)
                              :: w ++ [record "done" "transcript" (JStr T)]))) as Hp.
  rewrite client_messages in Hp.
  unfold streamVoiceResponse in *.
  set (st0 := mk "" (AudioPlayback.clear (AudioPlayback.init pb))) in *.
  destruct (process_lines callbacks st0 _) as [st calls] eqn:E.
  rewrite client_on_stream in E.
  change (handle_line callbacks st0
            (Data (Some (record "user_transcript" "data" (JStr userTranscript)))))
    with (st0, optional_call (onUserTranscript callbacks)
                 (OnUserTranscript (Some (JStr userTranscript)))) in E.
  cbv beta iota in E.
  pose proof (no_done_no_complete callbacks st0 _ (written_no_done _ Hw)) as Hnc.
  pose proof (VoiceStreamMore.process_lines_effects callbacks st0 (sse_lines w))
    as (_ & Ht).
  destruct (process_lines callbacks st0 (sse_lines w)) as [st2 calls2].
  change (handle_line callbacks st2 (Data (Some (record "done" "transcript" (JStr T)))))
    with (mk (fullTranscript st2) (AudioPlayback.signalComplete (playback st2)),
          optional_call (onComplete callbacks) (OnComplete (fullTranscript st2))) in E.
  cbv beta iota zeta in E. injection E as <- <-. simpl in Ht, Hnc, Hp. simpl.
  assert (fullTranscript st2 = T) as -> by congruence.
  split_and!; [done|by exists calls2|done].
Qed.

Lemma written_messages_audio (written : list json) :
  Forall (λ r, ∃ v, truthy (Some v) = true
                    ∧ (r = record "transcript" "data" v ∨ r = record "audio" "data" v))
    written →
  Forall (λ m, AudioPlaybackProcessor.type m = "audio")
    (omap worklet_message (sse_lines written)).
Proof.
  induction 1 as [|r written (v & _ & Hr) _ IH]; [done|].
  change (sse_lines (r :: written)) with (Data (Some r) :: Skipped :: sse_lines written).
  cbn [omap list_omap].
  change (worklet_message Skipped) with (@None AudioPlayback.message). cbv beta iota.
  destruct Hr as [-> | ->].
  - by change (worklet_message (Data (Some (record "transcript" "data" v))))
      with (@None AudioPlayback.message).
  - change (worklet_message (Data (Some (record "audio" "data" v))))
      with (match decode_value (Some v) with
            | Ok samples => Some (AudioPlaybackProcessor.Message "audio" samples)
            | Throw _ => None
            end).
    destruct (decode_value _); [|done]. by apply Forall_cons.
Qed.

(** X25.  A voice exchange that fails once the response has started.  When the
    model's stream or the saving of the assistant message throws, the
    server saves no assistant transcript and ends the event stream with
    an [error] record.  The client reading that stream reports the error
    last, never reports completion, and posts to the worklet a "clear"
    and the audio delivered before the failure, but no "streamComplete". *)
Theorem voice_exchange_failure callbacks pb audio userTranscript
    (chunks : list (option delta)) (stream_throws save_throws : bool) :
  truthy audio = true →
  stream_throws || save_throws = true →
  ∃ records,
    post_message audio (Ok userTranscript) chunks stream_throws save_throws
    = (EventStream records, None)
    ∧ let '(st, calls) := streamVoiceResponse callbacks pb (sse_lines records) in
      (∃ calls0,
         calls = calls0 ++ optional_call (onError callbacks)
                             (OnError (Error "Failed to process voice message")))
      ∧ Forall (λ c, ∀ t, c ≠ OnComplete t) calls
      ∧ AudioPlayback.posted (playback st)
        = AudioPlayback.posted pb
            ++ AudioPlaybackProcessor.Message "clear" []
            :: omap worklet_message (sse_lines (stream_chunks "" chunks).2)
      ∧ Forall (λ m, AudioPlaybackProcessor.type m = "audio")
          (omap worklet_message (sse_lines (stream_chunks "" chunks).2)).
Proof.
  intros Ha Hthrows.
  set (failure := record "error" "error" (JStr "Failed to process voice message")).
  assert (post_message audio (Ok userTranscript) chunks stream_throws save_throws
          = (EventStream (record "user_transcript" "data" (JStr userTranscript)
                            :: (stream_chunks "" chunks).2 ++ [failure]), None)) as ->.
  { unfold post_message. rewrite Ha. cbn [negb].
    destruct (stream_chunks "" chunks) as [T w].
    by destruct stream_throws, save_throws. }
  pose proof (stream_chunks_spec "" chunks) as Hs.
  destruct (stream_chunks "" chunks) as [T w]. destruct Hs as [_ Hw].
  eexists. split; [reflexivity|]. cbn [snd].
  pose proof (client_posted callbacks pb
                (sse_lines (record "user_transcript" "data" (JStr userTranscript)
                              :: w ++ [failure]))) as Hp.
  rewrite client_messages in Hp.
  unfold streamVoiceResponse in *.
  set (st0 := mk "" (AudioPlayback.clear (AudioPlayback.init pb))) in *.
  destruct (process_lines callbacks st0 _) as [st calls] eqn:E.
  rewrite client_on_stream in E.
  change (handle_line callbacks st0
            (Data (Some (record "user_transcript" "data" (JStr userTranscript)))))
    with (st0, optional_call (onUserTranscript callbacks)
                 (OnUserTranscript (Some (JStr userTranscript)))) in E.
  cbv beta iota in E.
  pose proof (no_done_no_complete callbacks st0 _ (written_no_done _ Hw)) as Hnc.
  destruct (process_lines callbacks st0 (sse_lines w)) as [st2 calls2].
  change (handle_line callbacks st2 (Data (Some failure)))
    with (st2, optional_call (onError callbacks)
                 (OnError (Error "Failed to process voice message"))) in E.
  cbv beta iota in E. injection E as <- <-. simpl in Hnc, Hp. rewrite app_nil_r in Hp.
  split_and!.
  - eexists. by rewrite app_assoc.
  - rewrite !Forall_app. split_and!; [|done|].
    + unfold optional_call. destruct (onUserTranscript callbacks); [|done].
      by apply Forall_singleton.
    + unfold optional_call. destruct (onError callbacks); [|done].
      by apply Forall_singleton.
  - done.
  - by apply written_messages_audio.
Qed.

Lemma voice_exchange_completes_witness :
  truthy (Some (JStr "UklGRg==")) = true
  ∧ ∃ records assistantTranscript,
      post_message (Some (JStr "UklGRg==")) (Ok "hello")
        [Some (Delta (Some "Hi") None); None;
         Some (Delta (Some " there") (Some "AAD/fw=="))] false false
      = (EventStream records, Some assistantTranscript)
      ∧ let '(st, calls) :=
          streamVoiceResponse all_callbacks AudioPlayback.new (sse_lines records) in
        fullTranscript st = assistantTranscript
        ∧ (∃ calls0,
             calls
             = optional_call (onUserTranscript all_callbacks)
                 (OnUserTranscript (Some (JStr "hello")))
                 ++ calls0
                 ++ optional_call (onComplete all_callbacks)
                      (OnComplete assistantTranscript)
             ∧ Forall (λ c, ∀ t, c ≠ OnComplete t) calls0)
        ∧ AudioPlayback.posted (playback st)
          = AudioPlayback.posted AudioPlayback.new
              ++ AudioPlaybackProcessor.Message "clear" []
              :: omap worklet_message
                   (sse_lines
                      (stream_chunks ""
                         [Some (Delta (Some "Hi") None); None;
                          Some (Delta (Some " there") (Some "AAD/fw=="))]).2)
              ++ [AudioPlaybackProcessor.Message "streamComplete" []].
Proof.
  assert (truthy (Some (JStr "UklGRg==")) = true) as H by reflexivity.
  split; [exact H|].
  exact (voice_exchange_completes all_callbacks AudioPlayback.new
           (Some (JStr "UklGRg==")) "hello"
           [Some (Delta (Some "Hi") None); None;
            Some (Delta (Some " there") (Some "AAD/fw=="))] H).
Defined.

Lemma voice_exchange_failure_witness :
  truthy (Some (JStr "UklGRg==")) = true
  ∧ false || true = true
  ∧ ∃ records,
      post_message (Some (JStr "UklGRg==")) (Ok "hello")
        [Some (Delta (Some "Hi") (Some "AAD/fw=="))] false true
      = (EventStream records, None)
      ∧ let '(st, calls) :=
          streamVoiceResponse all_callbacks AudioPlayback.new (sse_lines records) in
        (∃ calls0,
           calls = calls0 ++ optional_call (onError all_callbacks)
                               (OnError (Error "Failed to process voice message")))
        ∧ Forall (λ c, ∀ t, c ≠ OnComplete t) calls
        ∧ AudioPlayback.posted (playback st)
          = AudioPlayback.posted AudioPlayback.new
              ++ AudioPlaybackProcessor.Message "clear" []
              :: omap worklet_message
                   (sse_lines
                      (stream_chunks ""
                         [Some (Delta (Some "Hi") (Some "AAD/fw=="))]).2)
        ∧ Forall (λ m, AudioPlaybackProcessor.type m = "audio")
            (omap worklet_message
               (sse_lines
                  (stream_chunks ""
                     [Some (Delta (Some "Hi") (Some "AAD/fw=="))]).2)).
Proof.
  assert (truthy (Some (JStr "UklGRg==")) = true) as H by reflexivity.
  assert (false || true = true) as H' by reflexivity.
  split; [exact H|]. split; [exact H'|].
  exact (voice_exchange_failure all_callbacks AudioPlayback.new
           (Some (JStr "UklGRg==")) "hello"
           [Some (Delta (Some "Hi") (Some "AAD/fw=="))] false true H H').
Defined.

(** The exchange of the example, run: the transcript the client ends
    with and the one block of two samples it posts. *)
Example voice_exchange_run :
  let chunks := [Some (Delta (Some "Hi") None); None;
                 Some (Delta (Some " there") (Some "AAD/fw=="))] in
  match post_message (Some (JStr "UklGRg==")) (Ok "hello") chunks false false with
  | (EventStream records, saved) =>
      let '(st, calls) :=
        streamVoiceResponse all_callbacks AudioPlayback.new (sse_lines records) in
      saved = Some "Hi there"
      ∧ calls = [OnUserTranscript (Some (JStr "hello"));
                 OnTranscript (Some (JStr "Hi")) "Hi";
                 OnTranscript (Some (JStr " there")) "Hi there";
                 OnComplete "Hi there"]
      ∧ AudioPlayback.audio_blocks (AudioPlayback.posted (playback st))
        = [[0 # 32768; 32767 # 32768]]%Q
  | _ => False
  end.
Proof. vm_compute. done. Qed.

End VoiceRouteMore.

(** ** URL building *)

Module RoutesMore.
Import Routes.

Lemma strip_prefix_app (p s : string) : strip_prefix p (p +:+ s) = Some s.
Proof.
  induction p as [|a p IH]; [by destruct s|].
  change (strip_prefix (String a p) (String a (p +:+ s)) = Some s).
  simpl. by rewrite decide_True.
Qed.

Lemma search_first (c : ascii) (p before after : string) :
  has_char c before = false →
  search (String c p) (before +:+ String c p +:+ after) = Some (before, after).
Proof.
  induction before as [|a before IH]; intros Hc.
  - change (search (String c p) (String c p +:+ after) = Some (EmptyString, after)).
    destruct (String c p +:+ after) eqn:E; [done|].
    unfold search; fold search. by rewrite <- E, strip_prefix_app.
  - simpl in Hc. apply orb_false_iff in Hc as [Ha Hc].
    apply bool_decide_eq_false in Ha.
    change (search (String c p) (String a (before +:+ String c p +:+ after))
            = Some (String a before, after)).
    unfold search; fold search. simpl strip_prefix.
    rewrite decide_False by congruence. by rewrite (IH Hc).
Qed.

Lemma search_none (c : ascii) (p s : string) :
  has_char c s = false → search (String c p) s = None.
Proof.
  induction s as [|a s IH]; intros Hc; [done|].
  simpl in Hc. apply orb_false_iff in Hc as [Ha Hc].
  apply bool_decide_eq_false in Ha.
  unfold search; fold search. simpl strip_prefix.
  rewrite decide_False by congruence. by rewrite (IH Hc).
Qed.

Lemma GetSubstitution_plain (matched before after r : string) :
  has_char "$" r = false → GetSubstitution matched before after r = r.
Proof.
  induction r as [|c r IH]; intros Hc; [done|].
  simpl in Hc. apply orb_false_iff in Hc as [Ha Hc].
  apply bool_decide_eq_false in Ha.
  simpl. rewrite decide_False by done. by rewrite (IH Hc).
Qed.

Lemma string_of_uint_plain (u : Decimal.uint) :
  has_char "$" (NilEmpty.string_of_uint u) = false.
Proof. induction u; simpl; done. Qed.

Lemma number_plain (n : safe_integer) : has_char "$" (Number_toString n) = false.
Proof.
  unfold Number_toString, NilZero.string_of_int.
  destruct (Z.to_int (safe_value n)) as [u|u]; unfold NilZero.string_of_uint.
  - destruct u; try apply string_of_uint_plain; done.
  - simpl. destruct u; try apply string_of_uint_plain; done.
Qed.

Lemma plain_value (value : param) :
  plain value = true → has_char "$" (param_ToString value) = false.
Proof.
  destruct value as [s|n]; simpl.
  - by intros ?%negb_true_iff.
  - intros _. apply number_plain.
Qed.

(** X26.  A path that contains no colon has no placeholder: [buildUrl] returns
    it unchanged, whatever the parameters. *)
Theorem buildUrl_without_placeholders (path : string)
    (params : option (list (string * param))) :
  has_char ":" path = false →
  buildUrl path params = path.
Proof.
  intros Hc. destruct params as [entries|]; [|done]. simpl.
  induction entries as [|[key value] entries IH]; [done|].
  assert (includes path (":" +:+ key) = false) as Hi.
  { unfold includes. change (":" +:+ key) with (String ":" key).
    by rewrite (search_none _ _ _ Hc). }
  cbn [fold_left]. by rewrite Hi.
Qed.

(** X27.  With one parameter, [buildUrl] replaces the first [:key] of the path
    by the string form of the value, for a number or a string without
    [$].  Only the first occurrence is replaced, and the placeholder is
    not required to end where the key ends: whatever follows it is kept
    as it is. *)
Theorem buildUrl_substitutes_first_placeholder (before key after : string)
    (value : param) :
  has_char ":" before = false →
  plain value = true →
  buildUrl (before +:+ ":" +:+ key +:+ after) (Some [(key, value)])
  = before +:+ param_ToString value +:+ after.
Proof.
  intros Hc Hv. simpl. unfold includes, replace.
  change (":" +:+ key) with (String ":" key).
  change (before +:+ ":" +:+ key +:+ after)
    with (before +:+ String ":" key +:+ after).
  rewrite (search_first _ _ _ _ Hc).
  by rewrite (GetSubstitution_plain _ _ _ _ (plain_value _ Hv)).
Qed.

(** X28.  The value is a replacement pattern, not literal text: a value [$&]
    puts the placeholder back, [$$] inserts a single [$], and a [$] followed by a
    backquote inserts the part of the path before the placeholder. *)
Theorem buildUrl_expands_dollar_patterns (before key after : string) :
  has_char ":" before = false →
  let path := before +:+ ":" +:+ key +:+ after in
  buildUrl path (Some [(key, PStr "$&")]) = path
  ∧ buildUrl path (Some [(key, PStr "$$")]) = before +:+ "$" +:+ after
  ∧ buildUrl path (Some [(key, PStr "$`")]) = before +:+ before +:+ after.
Proof.
  intros Hc. cbv zeta. unfold buildUrl, fold_left, includes, replace, param_ToString.
  change (":" +:+ key) with (String ":" key).
  change (before +:+ ":" +:+ key +:+ after)
    with (before +:+ String ":" key +:+ after).
  rewrite (search_first _ _ _ _ Hc).
  change (GetSubstitution (String ":" key) before after "$&")
    with (String ":" key +:+ EmptyString).
  change (GetSubstitution (String ":" key) before after "$$") with "$".
  change (GetSubstitution (String ":" key) before after "$`")
    with (before +:+ EmptyString).
  by rewrite !VoiceStreamMore.string_app_nil_r.
Qed.

Lemma buildUrl_without_placeholders_witness :
  has_char ":" "/api/conversations" = false
  ∧ buildUrl "/api/conversations" (Some [("id", PNum (SafeInteger 7 I))]) = "/api/conversations".
Proof.
  assert (has_char ":" "/api/conversations" = false) as H by reflexivity.
  split; [exact H|].
  exact (buildUrl_without_placeholders "/api/conversations" (Some [("id", PNum (SafeInteger 7 I))]) H).
Defined.

Lemma buildUrl_substitutes_first_placeholder_witness :
  has_char ":" "/api/conversations/" = false
  ∧ plain (PNum (SafeInteger 42 I)) = true
  ∧ buildUrl ("/api/conversations/" +:+ ":" +:+ "id" +:+ "/messages")
      (Some [("id", PNum (SafeInteger 42 I))])
    = "/api/conversations/" +:+ param_ToString (PNum (SafeInteger 42 I)) +:+ "/messages".
Proof.
  assert (has_char ":" "/api/conversations/" = false) as H by reflexivity.
  assert (plain (PNum (SafeInteger 42 I)) = true) as H' by reflexivity.
  split; [exact H|]. split; [exact H'|].
  exact (buildUrl_substitutes_first_placeholder "/api/conversations/" "id" "/messages"
           (PNum (SafeInteger 42 I)) H H').
Defined.

Lemma buildUrl_expands_dollar_patterns_witness :
  has_char ":" "/x/" = false
  ∧ let path := "/x/" +:+ ":" +:+ "id" +:+ "/y" in
    buildUrl path (Some [("id", PStr "$&")]) = path
    ∧ buildUrl path (Some [("id", PStr "$$")]) = "/x/" +:+ "$" +:+ "/y"
    ∧ buildUrl path (Some [("id", PStr "$`")]) = "/x/" +:+ "/x/" +:+ "/y".
Proof.
  assert (has_char ":" "/x/" = false) as H by reflexivity.
  split; [exact H|].
  exact (buildUrl_expands_dollar_patterns "/x/" "id" "/y" H).
Defined.

(** The placeholder of a longer name is hit by a shorter key, and a
    second occurrence stays. *)
Example buildUrl_prefix_key :
  buildUrl "/a/:idx/:id" (Some [("id", PNum (SafeInteger 5 I))]) = "/a/5x/:id".
Proof. reflexivity. Qed.

End RoutesMore.

(** ** Chat stream hook *)

Module ChatStreamMore.
Import ChatStream.

#[local] Arguments truthy : simpl never.

Lemma chat_process_lines_app tid st (pre post : list VoiceStream.line) :
  process_lines tid st (pre ++ post)
  = let '(st1, logged1) := process_lines tid st pre in
    let '(st2, logged2) := process_lines tid st1 post in
    (st2, logged1 ++ logged2).
Proof.
  revert st. induction pre as [|l pre IH]; intros st; simpl.
  - by destruct (process_lines tid st post).
  - destruct (handle_line tid st l) as [st1 logged1]. rewrite IH.
    destruct (process_lines tid st1 pre) as [st2 logged2].
    destruct (process_lines tid st2 post) as [st3 logged3].
    by rewrite app_assoc.
Qed.

Lemma handle_error_line tid st l :
  carries_error l = true →
  ∃ e, handle_line tid st l = (st, [e]).
Proof.
  destruct l as [|[[| | | | |fields]|]]; try done. simpl.
  intros He. unfold dispatch, get. rewrite He. eauto.
Qed.

(** X29.  A record with a truthy [error] changes nothing: the exception made
    from it is caught and logged inside the loop, which goes on with the
    next line.  So the response with its error records left out leaves
    the same content and the same cache, and whatever records the body
    carries, the error toast is shown only when a read throws. *)
Theorem chat_error_records_ignored old userMessage initialAssistantMessage
    (lines : list VoiceStream.line) (read_throws : bool) :
  let kept := filter (λ l, carries_error l = false) lines in
  (sendMessage old userMessage initialAssistantMessage (Body kept read_throws)).1.1
  = (sendMessage old userMessage initialAssistantMessage (Body lines read_throws)).1.1
  ∧ (sendMessage old userMessage initialAssistantMessage (Body lines read_throws)).2
    = read_throws.
Proof.
  cbv zeta. unfold sendMessage.
  set (tid := id initialAssistantMessage).
  generalize (mk EmptyString (optimistic old userMessage initialAssistantMessage)).
  intros st. split.
  - assert ((process_lines tid st (filter (λ l, carries_error l = false) lines)).1
            = (process_lines tid st lines).1) as H.
    { revert st. induction lines as [|l lines IH]; intros st; [done|].
      destruct (carries_error l) eqn:Hl.
      - rewrite filter_cons_False by (by rewrite Hl). simpl.
        destruct (handle_error_line tid st l Hl) as [e ->].
        rewrite IH. by destruct (process_lines tid st lines).
      - rewrite filter_cons_True by done. simpl.
        destruct (handle_line tid st l) as [st1 logged1].
        specialize (IH st1).
        destruct (process_lines tid st1 (filter _ lines)) as [st2 logged2].
        destruct (process_lines tid st1 lines) as [st3 logged3].
        simpl in *. by subst. }
    destruct (process_lines tid st (filter _ lines)) as [st1 logged1].
    destruct (process_lines tid st lines) as [st2 logged2].
    simpl in *. by subst.
  - by destruct (process_lines tid st lines).
Qed.

Lemma last_two {A} (xs : list A) (x y : A) : last (xs ++ [x; y]) = Some y.
Proof. change [x; y] with ([x] ++ [y]). by rewrite app_assoc, last_snoc. Qed.

Lemma removelast_two {A} (xs : list A) (x y : A) :
  removelast (xs ++ [x; y]) = xs ++ [x].
Proof.
  change [x; y] with ([x] ++ [y]). rewrite app_assoc. apply removelast_last.
Qed.

(** One line, with the cache holding the conversation and the temporary
    assistant message last. *)
Lemma handle_line_cached tid st l messages userMessage assistant :
  id assistant = tid →
  data st = Some (messages ++ [userMessage; with_content assistant (assistantContent st)]) →
  let st' := (handle_line tid st l).1 in
  assistantContent st' = assistantContent st +:+ default EmptyString (content_delta l)
  ∧ data st'
    = Some (messages ++ [userMessage; with_content assistant (assistantContent st')]).
Proof.
  intros Hid Hdata.
  destruct l as [|[record|]]; simpl;
    [by rewrite VoiceStreamMore.string_app_nil_r| |by rewrite VoiceStreamMore.string_app_nil_r].
  unfold dispatch, get, prop, get.
  destruct record as [| | | | |fields]; simpl;
    try (by rewrite VoiceStreamMore.string_app_nil_r).
  destruct (truthy (field fields "error")); simpl;
    [by rewrite VoiceStreamMore.string_app_nil_r|].
  destruct (truthy (field fields "content")); simpl;
    [|by rewrite VoiceStreamMore.string_app_nil_r].
  destruct (ToString (field fields "content")) as [text|e]; simpl;
    [|by rewrite VoiceStreamMore.string_app_nil_r].
  unfold update_last. rewrite Hdata, last_two, removelast_two. simpl.
  rewrite decide_True by done. simpl. split; [done|].
  by rewrite <- app_assoc.
Qed.

(** X30.  While the conversation is cached, the temporary assistant message at
    the end of the cache always carries the content received so far: after
    the response it holds, in arrival order, the string forms of the truthy
    [content] of the records without a truthy [error], and nothing else in
    the cache has changed apart from the two messages appended at the
    start. *)
Theorem chat_content_accumulates (messages : list message)
    userMessage initialAssistantMessage (lines : list VoiceStream.line)
    (read_throws : bool) :
  content initialAssistantMessage = EmptyString →
  (sendMessage (Some messages) userMessage initialAssistantMessage
     (Body lines read_throws)).1.1
  = Some (messages
            ++ [userMessage;
                with_content initialAssistantMessage
                  (VoiceStreamViews.concat_strings (omap content_delta lines))]).
Proof.
  intros Hc. unfold sendMessage, optimistic.
  set (tid := id initialAssistantMessage).
  assert (∀ st,
    data st = Some (messages ++ [userMessage;
                                 with_content initialAssistantMessage (assistantContent st)]) →
    data (process_lines tid st lines).1
    = Some (messages
              ++ [userMessage;
                  with_content initialAssistantMessage
                    (assistantContent st
                       +:+ VoiceStreamViews.concat_strings (omap content_delta lines))]))
    as Hloop.
  { induction lines as [|l lines IH]; intros st Hdata.
    - simpl. unfold VoiceStreamViews.concat_strings. simpl.
      by rewrite VoiceStreamMore.string_app_nil_r.
    - pose proof (handle_line_cached tid st l messages userMessage
                    initialAssistantMessage eq_refl Hdata) as [Ha Hd].
      simpl. destruct (handle_line tid st l) as [st1 logged1]. simpl in Ha, Hd.
      specialize (IH st1 Hd).
      destruct (process_lines tid st1 lines) as [st2 logged2]. simpl in *.
      rewrite IH, Ha, VoiceStreamMore.string_app_assoc. do 4 f_equal.
      destruct (content_delta l); simpl; [done|].
      by destruct (VoiceStreamViews.concat_strings _). }
  specialize (Hloop (mk EmptyString
                       (Some (messages ++ [userMessage; initialAssistantMessage])))).
  destruct (process_lines tid _ lines) as [st logged]. simpl in *.
  apply Hloop. do 3 f_equal. destruct initialAssistantMessage. simpl in *. by subst.
Qed.

Lemma chat_content_accumulates_witness :
  content (Message 2 7 "assistant" EmptyString "t") = EmptyString
  ∧ (sendMessage (Some []) (Message 1 7 "user" "hi" "t")
       (Message 2 7 "assistant" EmptyString "t")
       (Body [VoiceStream.Data (Some (JObj [("content", JStr "He")]));
              VoiceStream.Data (Some (JObj [("error", JStr "x"); ("content", JStr "?")]));
              VoiceStream.Data (Some (JObj [("content", JStr "llo")]))] false)).1.1
    = Some ([] ++ [Message 1 7 "user" "hi" "t";
                   with_content (Message 2 7 "assistant" EmptyString "t")
                     (VoiceStreamViews.concat_strings
                        (omap content_delta
                           [VoiceStream.Data (Some (JObj [("content", JStr "He")]));
                            VoiceStream.Data
                              (Some (JObj [("error", JStr "x"); ("content", JStr "?")]));
                            VoiceStream.Data (Some (JObj [("content", JStr "llo")]))]))]).
Proof.
  assert (content (Message 2 7 "assistant" EmptyString "t") = EmptyString) as H
    by reflexivity.
  split; [exact H|].
  exact (chat_content_accumulates [] (Message 1 7 "user" "hi" "t")
           (Message 2 7 "assistant" EmptyString "t") _ false H).
Defined.

(** A record whose truthy [content] does not convert to a string: the
    [TypeError] is logged and nothing is appended. *)
Example chat_unconvertible_content :
  sendMessage (Some []) (Message 1 7 "user" "hi" "t")
    (Message 2 7 "assistant" EmptyString "t")
    (Body [VoiceStream.Data (Some (JObj [("content", JStr "He")]));
           VoiceStream.Data
             (Some (JObj [("content", JObj [("toString", JNum (SafeInteger 1 I))])]))]
       false)
  = (Some [Message 1 7 "user" "hi" "t"; Message 2 7 "assistant" "He" "t"],
     [TypeError], false).
Proof. reflexivity. Qed.

(** The response of the example, run: the error record in the middle is
    logged and skipped. *)
Example chat_stream_run :
  sendMessage (Some []) (Message 1 7 "user" "hi" "t")
    (Message 2 7 "assistant" EmptyString "t")
    (Body [VoiceStream.Data (Some (JObj [("content", JStr "He")]));
           VoiceStream.Data (Some (JObj [("error", JStr "x"); ("content", JStr "?")]));
           VoiceStream.Data (Some (JObj [("content", JStr "llo")]))] false)
  = (Some [Message 1 7 "user" "hi" "t"; Message 2 7 "assistant" "Hello" "t"],
     [Error "x"], false).
Proof. reflexivity. Qed.

End ChatStreamMore.
